(** * FileSharingPlatform: the login handler and the upload simulator

    A shallow embedding of [src/pages/Login.tsx] (the [handleLogin] handler)
    and of the [FileUploader] component ([handleFileSelect],
    [simulateFileUpload], [saveUploadedFile], [removeFile],
    [getTotalProgress], [allUploaded]), together with the part of the
    JavaScript platform these functions rest on: strings as sequences of
    UTF-16 code units, [localStorage], [JSON.parse] and [JSON.stringify].

    Conventions.
    - A JavaScript string is a list of code units ([N], below 65536).
    - A number that goes through JSON is a binary64 value
      ([SpecFloat.spec_float]): [JSON.parse] rounds a numeral to the
      nearest double, [JSON.stringify] prints the shortest decimal that
      reads back as the double, and null for a double that is not finite.
    - [progress] values and [Math.random()] draws are exact rationals: the
      rounding of the additions, multiplications and divisions of lines 44
      and 113-117 is not modelled.  The properties of progress values
      below are inequalities that rounding to nearest preserves.
    - [localStorage] is a finite map from keys to texts together with the
      quota of the origin; [localStorage.setItem] raises
      [QuotaExceededError] when the store would grow beyond it.
    - The component state is updated callback by callback: each
      [setUploadingFiles(prev => ...)] is applied to the list left by the
      one before it.
    - Timers: the browser runs one callback at a time, an interval or a
      timeout no earlier than its due time. *)

From Stdlib Require Import ZArith NArith QArith Lia Lqa List Bool String Ascii.
From Stdlib Require Import Decimal DecimalN Qround Qabs SpecFloat.
From stdpp Require Import base option list gmap.
Close Scope Q_scope.
Local Open Scope N_scope.

(** ** JavaScript strings *)

Abbreviation jsstring := (list N).

(** A string literal of the source, as code units. *)
Definition js (s : string) : jsstring :=
  List.map N_of_ascii (list_ascii_of_string s).

Definition is_digit (c : N) : bool := (48 <=? c) && (c <=? 57).
Definition is_digit19 (c : N) : bool := (49 <=? c) && (c <=? 57).
Definition is_exp_mark (c : N) : bool := (c =? 101) || (c =? 69).
Definition is_sign (c : N) : bool := (c =? 43) || (c =? 45).
Definition is_ws (c : N) : bool :=
  (c =? 9) || (c =? 10) || (c =? 13) || (c =? 32).

(** Decimal printing of naturals and integers ([Number::toString] on an
    integer below 10^21, template literals on [Date.now()]). *)
Fixpoint uint_units (d : Decimal.uint) : jsstring :=
  match d with
  | Decimal.Nil => []
  | Decimal.D0 d => 48 :: uint_units d
  | Decimal.D1 d => 49 :: uint_units d
  | Decimal.D2 d => 50 :: uint_units d
  | Decimal.D3 d => 51 :: uint_units d
  | Decimal.D4 d => 52 :: uint_units d
  | Decimal.D5 d => 53 :: uint_units d
  | Decimal.D6 d => 54 :: uint_units d
  | Decimal.D7 d => 55 :: uint_units d
  | Decimal.D8 d => 56 :: uint_units d
  | Decimal.D9 d => 57 :: uint_units d
  end.

Definition decimal_of_N (n : N) : jsstring := uint_units (N.to_uint n).

Definition decimal_of_Z (z : Z) : jsstring :=
  match z with
  | Zneg p => 45 :: decimal_of_N (Npos p)
  | _ => decimal_of_N (Z.to_N z)
  end.

(** ** JSON numerals

    The JSON number grammar as an automaton: an optional minus sign; a
    single 0, or a digit 1-9 followed by digits; optionally a dot and one
    or more digits; optionally e or E, an optional sign and one or more
    digits. *)

Inductive num_state :=
| NMinus | NZero | NInt | NDot | NFrac | NExp | NExpSign | NExpDigits.

Definition num_start (c : N) : option num_state :=
  if c =? 45 then Some NMinus
  else if c =? 48 then Some NZero
  else if is_digit19 c then Some NInt
  else None.

Definition num_step (s : num_state) (c : N) : option num_state :=
  match s with
  | NMinus =>
      if c =? 48 then Some NZero
      else if is_digit19 c then Some NInt else None
  | NZero =>
      if c =? 46 then Some NDot
      else if is_exp_mark c then Some NExp else None
  | NInt =>
      if is_digit c then Some NInt
      else if c =? 46 then Some NDot
      else if is_exp_mark c then Some NExp else None
  | NDot => if is_digit c then Some NFrac else None
  | NFrac =>
      if is_digit c then Some NFrac
      else if is_exp_mark c then Some NExp else None
  | NExp =>
      if is_sign c then Some NExpSign
      else if is_digit c then Some NExpDigits else None
  | NExpSign => if is_digit c then Some NExpDigits else None
  | NExpDigits => if is_digit c then Some NExpDigits else None
  end.

Definition num_accepting (s : num_state) : bool :=
  match s with
  | NZero | NInt | NFrac | NExpDigits => true
  | _ => false
  end.

Fixpoint num_run (s : num_state) (l : jsstring) : option num_state :=
  match l with
  | [] => Some s
  | c :: l' =>
      match num_step s c with
      | Some s' => num_run s' l'
      | None => None
      end
  end.

(** The state reached after reading the whole of [l] as a numeral. *)
Definition num_scan (l : jsstring) : option num_state :=
  match l with
  | [] => None
  | c :: l' =>
      match num_start c with
      | Some s => num_run s l'
      | None => None
      end
  end.

Definition is_numeral (l : jsstring) : bool :=
  match num_scan l with
  | Some s => num_accepting s
  | None => false
  end.

(** ** Numbers

    A JavaScript number is a binary64 value.  [S754_finite s m e] is
    [m * 2^e], negated when [s] is set. *)

Abbreviation number := spec_float.

Definition number_eqb (x y : number) : bool :=
  match x, y with
  | S754_zero s, S754_zero s' => Bool.eqb s s'
  | S754_infinity s, S754_infinity s' => Bool.eqb s s'
  | S754_nan, S754_nan => true
  | S754_finite s m e, S754_finite s' m' e' =>
      Bool.eqb s s' && (m =? m')%positive && (e =? e')%Z
  | _, _ => false
  end.

Definition digits_count (n : N) : Z := Z.of_nat (List.length (decimal_of_N n)).

(** The double nearest to [m * 10^e10], the one with an even mantissa at
    a tie; an infinity when that is out of range.  A decimal of 10^309 or
    more is beyond the largest double, one below 10^-324 is less than half
    the smallest.  Otherwise the quotient of [m * 10^e10] by a power of two
    is taken with more than 53 bits, and [binary_round_aux] rounds it with
    the position of the remainder. *)
Definition binary64_of_decimal (neg : bool) (m : N) (e10 : Z) : number :=
  match m with
  | 0 => S754_zero neg
  | Npos _ =>
      (if 309 <? e10 + digits_count m then S754_infinity neg
       else if e10 + digits_count m <? -323 then S754_zero neg
       else
         let num := Z.of_N m * 10 ^ Z.max e10 0 in
         let den := 10 ^ Z.max (- e10) 0 in
         let k := Z.max 0 (Z.log2 den - Z.log2 num + 56) in
         let '(q, r) := Z.div_eucl (Z.shiftl num k) den in
         binary_round_aux 53 1024 neg q (- k) (new_location den r))%Z
  end.

(** An integer as a number (the [size] of a [File]). *)
Definition number_of_N (n : N) : number := binary64_of_decimal false n 0.

Inductive numeral_part := PInt | PFrac | PExp.

(** The sign, the digits and the decimal exponent of a numeral. *)
Fixpoint read_numeral (l : jsstring) (part : numeral_part) (neg : bool)
    (m : N) (scale : Z) (eneg : bool) (e : N) : bool * N * Z :=
  match l with
  | [] => (neg, m, ((if eneg then - Z.of_N e else Z.of_N e) - scale)%Z)
  | c :: l' =>
      if c =? 45 then
        match part with
        | PExp => read_numeral l' part neg m scale true e
        | _ => read_numeral l' part true m scale eneg e
        end
      else if c =? 43 then read_numeral l' part neg m scale eneg e
      else if c =? 46 then read_numeral l' PFrac neg m scale eneg e
      else if is_exp_mark c then read_numeral l' PExp neg m scale eneg e
      else
        match part with
        | PInt => read_numeral l' part neg (m * 10 + (c - 48)) scale eneg e
        | PFrac =>
            read_numeral l' part neg (m * 10 + (c - 48)) (scale + 1)%Z eneg e
        | PExp => read_numeral l' part neg m scale eneg (e * 10 + (c - 48))
        end
  end.

(** The value of a numeral. *)
Definition number_of_numeral (l : jsstring) : number :=
  let '(neg, m, e10) := read_numeral l PInt false 0 0%Z false 0 in
  binary64_of_decimal neg m e10.

(** *** Number::toString

    For a finite non-zero [x]: the digits [s] and the exponent [p] with
    the fewest digits such that [s * 10^p] reads back as [x], the nearest
    to [x] when there are several; then the digits are laid out as an
    integer, with a decimal point, or in exponent form. *)

(** The integer [L] with [10^L <= num / den < 10^(L + 1)]. *)
Definition decimal_exponent (num den : Z) : Z :=
  (if den <=? num then digits_count (Z.to_N (num / den)) - 1
   else - digits_count (Z.to_N ((den + num - 1) / num - 1)))%Z.

Fixpoint strip_zeros (fuel : nat) (s : N) (p : Z) : N * Z :=
  match fuel with
  | O => (s, p)
  | S fuel' =>
      if (0 <? s) && (s mod 10 =? 0) then strip_zeros fuel' (s / 10) (p + 1)%Z
      else (s, p)
  end.

(** The decimals with [k] digits just below and just above [num / den]
    that read back as [x], the nearer one first (at equal distance the
    even one). *)
Definition candidates (x : number) (num den L : Z) (k : Z) : list (N * Z) :=
  (let p := L - k + 1 in
   let n := num * 10 ^ Z.max (- p) 0 in
   let d := den * 10 ^ Z.max p 0 in
   let lo := n / d in
   let hi := lo + 1 in
   let reads_as_x s :=
     number_eqb (binary64_of_decimal false (Z.to_N s) p) x in
   let lo_first :=
     (n - lo * d <? hi * d - n)
     || ((n - lo * d =? hi * d - n) && Z.even lo) in
   List.map (fun s => (Z.to_N s, p))
     (List.filter reads_as_x (if lo_first then [lo; hi] else [hi; lo])))%Z.

(** Seventeen digits are enough for every double; the last case is not
    reached. *)
Fixpoint shortest (x : number) (num den L : Z) (fuel : nat) (k : Z) : N * Z :=
  match fuel with
  | O =>
      (Z.to_N (num * 10 ^ Z.max (- (L - k + 1)) 0
               / (den * 10 ^ Z.max (L - k + 1) 0)),
       L - k + 1)%Z
  | S fuel' =>
      match candidates x num den L k with
      | c :: _ => c
      | [] => shortest x num den L fuel' (k + 1)%Z
      end
  end.

Definition shortest_decimal (m : positive) (e : Z) : N * Z :=
  (let num := Zpos m * 2 ^ Z.max e 0 in
   let den := 2 ^ Z.max (- e) 0 in
   let L := decimal_exponent num den in
   let '(s, p) := shortest (S754_finite false m e) num den L 17 1 in
   strip_zeros 20 s p)%Z.

(** The digits [s] with [k] of them and [n = p + k]: an integer when
    [k <= n <= 21], a decimal point inside the digits when [0 < n <= 21],
    zeros after the point when [-6 < n <= 0], otherwise exponent form. *)
Definition format_decimal (s : N) (p : Z) : jsstring :=
  match s with
  | 0 => [48]
  | _ =>
      let ds := decimal_of_N s in
      let k := Z.of_nat (List.length ds) in
      let n := (p + k)%Z in
      if ((k <=? n) && (n <=? 21))%Z then
        ds ++ List.repeat 48 (Z.to_nat (n - k))
      else if ((0 <? n) && (n <=? 21))%Z then
        List.firstn (Z.to_nat n) ds ++ 46 :: List.skipn (Z.to_nat n) ds
      else if ((-6 <? n) && (n <=? 0))%Z then
        48 :: 46 :: List.repeat 48 (Z.to_nat (- n)) ++ ds
      else
        let exponent :=
          101 :: (if (n - 1 <? 0)%Z then 45 else 43)
              :: decimal_of_N (Z.to_N (Z.abs (n - 1))) in
        match ds with
        | [] => [48]
        | [d] => d :: exponent
        | d :: ds' => d :: 46 :: ds' ++ exponent
        end
  end.

(** The text of a finite number; [None] for NaN and the infinities. *)
Definition number_text (x : number) : option jsstring :=
  match x with
  | S754_zero _ => Some [48]
  | S754_finite neg m e =>
      let '(s, p) := shortest_decimal m e in
      Some ((if neg then [45] else []) ++ format_decimal s p)
  | _ => None
  end.

(** ** JavaScript values

    The values that reach the modelled code: the JSON values, [undefined]
    (the result of reading a missing property) and [Date] objects
    ([new Date()] in [simulateFileUpload]).  An object is the list of its
    own properties in enumeration order. *)

Unset Elimination Schemes.
Inductive value :=
| VUndefined
| VNull
| VBool (b : bool)
| VNum (x : number)
| VStr (s : jsstring)
| VDate (time : Z)
| VArr (items : list value)
| VObj (props : list (jsstring * value)).
Set Elimination Schemes.

Section value_induction.
  Variable P : value -> Prop.
  Hypothesis Hundef : P VUndefined.
  Hypothesis Hnull : P VNull.
  Hypothesis Hbool : forall b, P (VBool b).
  Hypothesis Hnum : forall n, P (VNum n).
  Hypothesis Hstr : forall s, P (VStr s).
  Hypothesis Hdate : forall t, P (VDate t).
  Hypothesis Harr : forall xs, Forall P xs -> P (VArr xs).
  Hypothesis Hobj : forall ps, Forall (fun kv => P (snd kv)) ps -> P (VObj ps).

Fixpoint value_nested_ind (v : value) : P v :=
  match v with
  | VUndefined => Hundef
  | VNull => Hnull
  | VBool b => Hbool b
  | VNum n => Hnum n
  | VStr s => Hstr s
  | VDate t => Hdate t
  | VArr xs =>
      Harr xs
        ((fix go (l : list value) : Forall P l :=
            match l with
            | [] => @List.Forall_nil _ P
            | x :: l' => @List.Forall_cons _ P x l' (value_nested_ind x) (go l')
            end) xs)
  | VObj ps =>
      Hobj ps
        ((fix go (l : list (jsstring * value))
            : Forall (fun kv => P (snd kv)) l :=
            match l with
            | [] => @List.Forall_nil _ _
            | kv :: l' =>
                @List.Forall_cons _ (fun kv => P (snd kv)) kv l'
                  (value_nested_ind (snd kv)) (go l')
            end) ps)
  end.
End value_induction.

(** ToBoolean.  A number is falsy when it is a zero or NaN. *)
Definition truthy (v : value) : bool :=
  match v with
  | VUndefined | VNull => false
  | VBool b => b
  | VNum (S754_zero _ | S754_nan) => false
  | VNum _ => true
  | VStr s => match s with [] => false | _ => true end
  | VDate _ | VArr _ | VObj _ => true
  end.

(** ** JSON.stringify *)

Definition hex_digit (n : N) : N := if n <? 10 then 48 + n else 87 + n.

(** The six-character escape of a code unit, with lowercase hex digits. *)
Definition unicode_escape (c : N) : jsstring :=
  [92; 117; hex_digit (c / 4096 mod 16); hex_digit (c / 256 mod 16);
   hex_digit (c / 16 mod 16); hex_digit (c mod 16)].

Definition is_high_surrogate (c : N) : bool := (55296 <=? c) && (c <=? 56319).
Definition is_low_surrogate (c : N) : bool := (56320 <=? c) && (c <=? 57343).

Definition quote_unit (c : N) : jsstring :=
  if c =? 8 then [92; 98]
  else if c =? 9 then [92; 116]
  else if c =? 10 then [92; 110]
  else if c =? 12 then [92; 102]
  else if c =? 13 then [92; 114]
  else if c =? 34 then [92; 34]
  else if c =? 92 then [92; 92]
  else if c <? 32 then unicode_escape c
  else [c].

(** QuoteJSONString walks the code points of the string: a surrogate pair
    is copied, a lone surrogate is escaped. *)
Fixpoint quote_units (s : jsstring) : jsstring :=
  match s with
  | [] => []
  | c :: s' =>
      if is_high_surrogate c then
        match s' with
        | d :: s'' =>
            if is_low_surrogate d then c :: d :: quote_units s''
            else unicode_escape c ++ quote_units s'
        | [] => unicode_escape c
        end
      else if is_low_surrogate c then unicode_escape c ++ quote_units s'
      else quote_unit c ++ quote_units s'
  end.

Definition quote (s : jsstring) : jsstring := 34 :: quote_units s ++ [34].

(** [Date.prototype.toISOString], for a time value in milliseconds since
    the epoch: the proleptic Gregorian date of the day, then the time of
    day.  Years outside 0..9999 take the expanded six-digit form. *)
Definition pad (width : nat) (n : N) : jsstring :=
  let d := decimal_of_N n in
  List.repeat 48 (width - List.length d) ++ d.

Definition civil_from_days (days : Z) : Z * Z * Z :=
  (let z := days + 719468 in
   let era := z / 146097 in
   let doe := z - era * 146097 in
   let yoe := (doe - doe / 1460 + doe / 36524 - doe / 146096) / 365 in
   let doy := doe - (365 * yoe + yoe / 4 - yoe / 100) in
   let mp := (5 * doy + 2) / 153 in
   let d := doy - (153 * mp + 2) / 5 + 1 in
   let m := if mp <? 10 then mp + 3 else mp - 9 in
   let y := yoe + era * 400 + (if m <=? 2 then 1 else 0) in
   (y, m, d))%Z.

Definition iso_year (y : Z) : jsstring :=
  if ((0 <=? y) && (y <=? 9999))%Z then pad 4 (Z.to_N y)
  else (if (y <? 0)%Z then 45 else 43) :: pad 6 (Z.to_N (Z.abs y)).

Definition toISOString (t : Z) : jsstring :=
  let day := (t / 86400000)%Z in
  let ms := Z.to_N (t mod 86400000)%Z in
  let '(y, m, d) := civil_from_days day in
  iso_year y ++ 45 :: pad 2 (Z.to_N m) ++ 45 :: pad 2 (Z.to_N d)
    ++ 84 :: pad 2 (ms / 3600000) ++ 58 :: pad 2 (ms / 60000 mod 60)
    ++ 58 :: pad 2 (ms / 1000 mod 60) ++ 46 :: pad 3 (ms mod 1000) ++ [90].

Definition or_else (fallback : jsstring) (o : option jsstring) : jsstring :=
  match o with Some t => t | None => fallback end.

Fixpoint join_commas (parts : list jsstring) : jsstring :=
  match parts with
  | [] => []
  | [p] => p
  | p :: rest => p ++ 44 :: join_commas rest
  end.

(** SerializeJSONProperty without indentation: [None] is the
    [undefined] result.  A number that is not finite prints as null.  In
    an array [undefined] prints as null; in an object a property whose
    value is [undefined] is left out.  A [Date] prints through its
    [toJSON]. *)
Fixpoint serialize (v : value) : option jsstring :=
  match v with
  | VUndefined => None
  | VNull => Some (js "null")
  | VBool true => Some (js "true")
  | VBool false => Some (js "false")
  | VNum x => Some (or_else (js "null") (number_text x))
  | VStr s => Some (quote s)
  | VDate t => Some (quote (toISOString t))
  | VArr xs =>
      Some (91 :: join_commas
                    (List.map (fun x => or_else (js "null") (serialize x)) xs)
               ++ [93])
  | VObj ps =>
      Some (123 :: join_commas
                     ((fix members (l : list (jsstring * value)) :=
                         match l with
                         | [] => []
                         | (k, x) :: l' =>
                             match serialize x with
                             | Some t => (quote k ++ 58 :: t) :: members l'
                             | None => members l'
                             end
                         end) ps)
                ++ [125])
  end.

(** [JSON.stringify(v)] as the text that [localStorage.setItem] stores:
    the [undefined] result is stored as the string "undefined". *)
Definition JSON_stringify (v : value) : jsstring :=
  or_else (js "undefined") (serialize v).

(** ** Objects: own properties in enumeration order

    Array-index keys come first, in ascending numeric order; the other
    keys follow in creation order.  Writing an existing key keeps its
    place. *)

Fixpoint digits_value (acc : N) (l : jsstring) : option N :=
  match l with
  | [] => Some acc
  | c :: l' =>
      if is_digit c then digits_value (acc * 10 + (c - 48)) l' else None
  end.

(** The canonical numeric strings of the integers 0 .. 2^32 - 2. *)
Definition array_index (k : jsstring) : option N :=
  match k with
  | [] => None
  | c :: k' =>
      if (c =? 48) && negb (bool_decide (k' = [])) then None
      else
        match digits_value 0 k with
        | Some n => if n <? 4294967295 then Some n else None
        | None => None
        end
  end.

(** Whether a new key [k] is enumerated before the existing key [k']. *)
Definition goes_before (k k' : jsstring) : bool :=
  match array_index k, array_index k' with
  | Some i, Some j => i <? j
  | Some _, None => true
  | None, _ => false
  end.

(** CreateDataProperty on an object under construction. *)
Fixpoint set_prop (k : jsstring) (v : value) (props : list (jsstring * value))
  : list (jsstring * value) :=
  match props with
  | [] => [(k, v)]
  | (k', v') :: ps =>
      if bool_decide (k = k') then (k, v) :: ps
      else if goes_before k k' then (k, v) :: props
      else (k', v') :: set_prop k v ps
  end.

Fixpoint lookup_prop (k : jsstring) (props : list (jsstring * value)) : value :=
  match props with
  | [] => VUndefined
  | (k', v) :: ps => if bool_decide (k = k') then v else lookup_prop k ps
  end.

(** ** JSON.parse

    A pushdown automaton that reads the text one code unit at a time. A
    rejected text is the [SyntaxError] of [JSON.parse]. *)

Inductive str_state :=
| SChars
| SEscape
| SHex (count : nat) (acc : N).

Inductive frame :=
| FArr (items : list value)
| FObj (props : list (jsstring * value))
| FMember (props : list (jsstring * value)) (key : jsstring).

Inductive mode :=
| MValue (may_close : bool)
| MKey (may_close : bool)
| MColon (key : jsstring)
| MAfter (v : value)
| MLit (rest : jsstring) (v : value)
| MNum (s : num_state) (acc : jsstring)
| MStr (is_key : bool) (acc : jsstring) (s : str_state).

Abbreviation pstate := (mode * list frame)%type.

Definition unescape (c : N) : option N :=
  if c =? 34 then Some 34
  else if c =? 92 then Some 92
  else if c =? 47 then Some 47
  else if c =? 98 then Some 8
  else if c =? 102 then Some 12
  else if c =? 110 then Some 10
  else if c =? 114 then Some 13
  else if c =? 116 then Some 9
  else None.

Definition hex_value (c : N) : option N :=
  if is_digit c then Some (c - 48)
  else if (97 <=? c) && (c <=? 102) then Some (c - 87)
  else if (65 <=? c) && (c <=? 70) then Some (c - 55)
  else None.

Definition begin_value (may_close : bool) (stk : list frame) (c : N)
  : option pstate :=
  if is_ws c then Some (MValue may_close, stk)
  else if c =? 123 then Some (MKey true, FObj [] :: stk)
  else if c =? 91 then Some (MValue true, FArr [] :: stk)
  else if c =? 34 then Some (MStr false [] SChars, stk)
  else if c =? 116 then Some (MLit (js "rue") (VBool true), stk)
  else if c =? 102 then Some (MLit (js "alse") (VBool false), stk)
  else if c =? 110 then Some (MLit (js "ull") VNull, stk)
  else if (c =? 93) && may_close then
    match stk with
    | FArr items :: stk' => Some (MAfter (VArr items), stk')
    | _ => None
    end
  else
    match num_start c with
    | Some s => Some (MNum s [c], stk)
    | None => None
    end.

Definition begin_key (may_close : bool) (stk : list frame) (c : N)
  : option pstate :=
  if is_ws c then Some (MKey may_close, stk)
  else if c =? 34 then Some (MStr true [] SChars, stk)
  else if (c =? 125) && may_close then
    match stk with
    | FObj props :: stk' => Some (MAfter (VObj props), stk')
    | _ => None
    end
  else None.

Definition after_key (key : jsstring) (stk : list frame) (c : N)
  : option pstate :=
  if is_ws c then Some (MColon key, stk)
  else if c =? 58 then
    match stk with
    | FObj props :: stk' => Some (MValue false, FMember props key :: stk')
    | _ => None
    end
  else None.

Definition after_value (v : value) (stk : list frame) (c : N)
  : option pstate :=
  if is_ws c then Some (MAfter v, stk)
  else
    match stk with
    | FArr items :: stk' =>
        if c =? 44 then Some (MValue false, FArr (items ++ [v]) :: stk')
        else if c =? 93 then Some (MAfter (VArr (items ++ [v])), stk')
        else None
    | FMember props key :: stk' =>
        if c =? 44 then Some (MKey false, FObj (set_prop key v props) :: stk')
        else if c =? 125 then
          Some (MAfter (VObj (set_prop key v props)), stk')
        else None
    | _ => None
    end.

Definition end_string (is_key : bool) (acc : jsstring) (stk : list frame)
  : pstate :=
  if is_key then (MColon acc, stk) else (MAfter (VStr acc), stk).

Definition str_step (is_key : bool) (acc : jsstring) (s : str_state)
    (stk : list frame) (c : N) : option pstate :=
  match s with
  | SChars =>
      if c =? 34 then Some (end_string is_key acc stk)
      else if c =? 92 then Some (MStr is_key acc SEscape, stk)
      else if c <? 32 then None
      else Some (MStr is_key (acc ++ [c]) SChars, stk)
  | SEscape =>
      match unescape c with
      | Some u => Some (MStr is_key (acc ++ [u]) SChars, stk)
      | None =>
          if c =? 117 then Some (MStr is_key acc (SHex 0 0), stk) else None
      end
  | SHex n h =>
      match hex_value c with
      | Some d =>
          if (n =? 3)%nat then
            Some (MStr is_key (acc ++ [h * 16 + d]) SChars, stk)
          else Some (MStr is_key acc (SHex (S n) (h * 16 + d)), stk)
      | None => None
      end
  end.

Definition step (st : pstate) (c : N) : option pstate :=
  let '(m, stk) := st in
  match m with
  | MValue may_close => begin_value may_close stk c
  | MKey may_close => begin_key may_close stk c
  | MColon key => after_key key stk c
  | MAfter v => after_value v stk c
  | MLit rest v =>
      match rest with
      | [] => None
      | c' :: rest' =>
          if c =? c' then
            match rest' with
            | [] => Some (MAfter v, stk)
            | _ => Some (MLit rest' v, stk)
            end
          else None
      end
  | MNum s acc =>
      match num_step s c with
      | Some s' => Some (MNum s' (acc ++ [c]), stk)
      | None =>
          if num_accepting s then
            after_value (VNum (number_of_numeral acc)) stk c
          else None
      end
  | MStr is_key acc s => str_step is_key acc s stk c
  end.

Fixpoint run (st : pstate) (text : jsstring) : option pstate :=
  match text with
  | [] => Some st
  | c :: text' =>
      match step st c with
      | Some st' => run st' text'
      | None => None
      end
  end.

(** At the end of the text a single complete value must have been read. *)
Definition finish (st : pstate) : option value :=
  match st with
  | (MAfter v, []) => Some v
  | (MNum s acc, []) =>
      if num_accepting s then Some (VNum (number_of_numeral acc)) else None
  | _ => None
  end.

(** [JSON.parse(text)]: [None] is the [SyntaxError]. *)
Definition JSON_parse (text : jsstring) : option value :=
  match run (MValue false, []) text with
  | Some st => finish st
  | None => None
  end.

(** ** Exceptions *)

Inductive exn := SyntaxError | TypeError | QuotaExceededError.

Inductive completion (A : Type) :=
| Normal (a : A)
| Throw (e : exn).
Arguments Normal {A} a.
Arguments Throw {A} e.

(** ** localStorage

    The texts stored for the origin, by key, and the quota of the origin.
    How a browser measures the store is its own business; here the quota
    is a number of code units of keys and texts. *)

Record Storage := {
  texts : gmap jsstring jsstring;
  capacity : N
}.

Definition usage (m : gmap jsstring jsstring) : N :=
  map_fold
    (fun key text n => N.of_nat (List.length key + List.length text) + n) 0 m.

Definition getItem (key : jsstring) (ls : Storage) : option jsstring :=
  texts ls !! key.

(** [localStorage.setItem(key, text)]: the item is stored, or nothing
    changes and [QuotaExceededError] is raised. *)
Definition setItem (key text : jsstring) (ls : Storage) : completion Storage :=
  let m := <[key := text]> (texts ls) in
  if usage m <=? capacity ls then
    Normal {| texts := m; capacity := capacity ls |}
  else Throw QuotaExceededError.

(** [localStorage.getItem(key) || fallback]: [null] (no such key) and the
    empty string are falsy. *)
Definition or_text (item : option jsstring) (fallback : jsstring) : jsstring :=
  match item with
  | Some (c :: text) => c :: text
  | _ => fallback
  end.

(** Reading a property whose name is neither an own property of arrays,
    strings, numbers, booleans and dates nor inherited from their
    prototypes or from [Object.prototype]; [name], [email] and [password]
    are such names. *)
Definition get (v : value) (k : jsstring) : completion value :=
  match v with
  | VUndefined | VNull => Throw TypeError
  | VObj props => Normal (lookup_prop k props)
  | _ => Normal VUndefined
  end.

(** [v !== s] for a string [s]. *)
Definition differs_from_string (v : value) (s : jsstring) : bool :=
  match v with
  | VStr s' => negb (bool_decide (s' = s))
  | _ => true
  end.

(** ** Login.tsx *)

Module Login.

(** What the handler shows to the user:
    - [FillInAllFields]: [toast.error("Please fill in all fields")];
    - [InvalidCredentials]: [setError(...)] and
      [toast.error("Invalid credentials")];
    - [LoggedIn]: [toast.success("Successfully logged in")] and
      [navigate('/dashboard')].
    An exception ends the handler where it is raised: one raised by the
    write of line 40 leaves the store as it was and shows nothing. *)
Inductive signal := FillInAllFields | InvalidCredentials | LoggedIn.

(** Line 25: [JSON.parse(localStorage.getItem('userData') || '{}')]. *)
Definition readUser (ls : Storage) : completion value :=
  match JSON_parse (or_text (getItem (js "userData") ls) (js "{}")) with
  | Some v => Normal v
  | None => Throw SyntaxError
  end.

(** Line 27: [!stored || stored.email !== email ||
    stored.password !== password], with its short circuits. *)
Definition rejects (stored : value) (email password : jsstring)
  : completion bool :=
  if negb (truthy stored) then Normal true
  else
    match get stored (js "email") with
    | Throw e => Throw e
    | Normal stored_email =>
        if differs_from_string stored_email email then Normal true
        else
          match get stored (js "password") with
          | Throw e => Throw e
          | Normal stored_password =>
              Normal (differs_from_string stored_password password)
          end
    end.

(** Lines 34-38: the record written back. *)
Definition userData (stored_name stored_email : value) : value :=
  VObj [(js "name", stored_name); (js "email", stored_email);
        (js "isLoggedIn", VBool true)].

Definition is_empty (s : jsstring) : bool :=
  match s with [] => true | _ => false end.

Definition handleLogin (email password : jsstring) (ls : Storage)
  : completion signal * Storage :=
  if is_empty email || is_empty password then (Normal FillInAllFields, ls)
  else
    match readUser ls with
    | Throw e => (Throw e, ls)
    | Normal storedUserData =>
        match rejects storedUserData email password with
        | Throw e => (Throw e, ls)
        | Normal true => (Normal InvalidCredentials, ls)
        | Normal false =>
            match get storedUserData (js "name"),
                  get storedUserData (js "email") with
            | Normal stored_name, Normal stored_email =>
                match setItem (js "userData")
                        (JSON_stringify (userData stored_name stored_email))
                        ls with
                | Normal ls' => (Normal LoggedIn, ls')
                | Throw e => (Throw e, ls)
                end
            | Throw e, _ | _, Throw e => (Throw e, ls)
            end
        end
    end.

End Login.

(** ** FileUploader *)

Module File.
Record t := { name : jsstring; type : jsstring; size : N }.
End File.

Inductive Status := uploading | complete | error.

Record UploadingFile := {
  id : jsstring;
  file : File.t;
  progress : Q;
  status : Status;
  error_text : option jsstring
}.

(** Lines 83-92.  [[...existingFiles, fileData]] iterates
    [existingFiles]: an array yields its items, a string its code points,
    anything else is not iterable. *)
Fixpoint code_points (s : jsstring) : list value :=
  match s with
  | [] => []
  | c :: s' =>
      if is_high_surrogate c then
        match s' with
        | d :: s'' =>
            if is_low_surrogate d then VStr [c; d] :: code_points s''
            else VStr [c] :: code_points s'
        | [] => [VStr [c]]
        end
      else VStr [c] :: code_points s'
  end.

Definition spread (v : value) : completion (list value) :=
  match v with
  | VArr items => Normal items
  | VStr s => Normal (code_points s)
  | _ => Throw TypeError
  end.

(** Line 85: [JSON.parse(localStorage.getItem('uploadedFiles') || '[]')]. *)
Definition readUploadedFiles (ls : Storage) : completion value :=
  match JSON_parse (or_text (getItem (js "uploadedFiles") ls) (js "[]")) with
  | Some v => Normal v
  | None => Throw SyntaxError
  end.

Definition saveUploadedFile (fileData : value) (ls : Storage)
  : completion Storage :=
  match readUploadedFiles ls with
  | Throw e => Throw e
  | Normal existingFiles =>
      match spread existingFiles with
      | Throw e => Throw e
      | Normal items =>
          let updatedFiles := VArr (items ++ [fileData]) in
          setItem (js "uploadedFiles") (JSON_stringify updatedFiles) ls
      end
  end.

(** One call of [simulateFileUpload]: its arguments, its local variable
    [progress] and its interval (the time of the next firing, or [None]
    once cleared). *)
Record Upload := {
  fileId : jsstring;
  upload_file : File.t;
  upload_progress : Q;
  interval : option Z
}.

(** The component, the store and the pending timers.  [timeouts] holds
    the removals scheduled at line 70, each with the time from which it can
    run; [clock] is the time in milliseconds, read by [Date.now()] and
    [new Date()]; [toasts] counts the "File uploaded successfully"
    notifications. *)
Record World := {
  uploadingFiles : list UploadingFile;
  localStorage : Storage;
  uploads : list Upload;
  timeouts : list (Z * jsstring);
  clock : Z;
  toasts : nat
}.

(** Lines 26-31. *)
Definition newFile (now : Z) (f : File.t) : UploadingFile :=
  {| id := File.name f ++ 45 :: decimal_of_Z now;
     file := f; progress := 0%Q; status := uploading; error_text := None |}.

(** Line 41-43: the closure starts at 0 and its interval first fires 200 ms
    later. *)
Definition simulateFileUpload (now : Z) (fileId : jsstring) (f : File.t)
  : Upload :=
  {| fileId := fileId; upload_file := f; upload_progress := 0%Q;
     interval := Some (now + 200)%Z |}.

(** Lines 26-31: [Array.from(files).map(...)] reads [Date.now()] once for
    each file.  A picked file comes with the time, in milliseconds, that
    has passed since the clock was last read; the result is the new
    entries and the time of the last reading. *)
Fixpoint newFiles (now : Z) (files : list (File.t * N))
  : list UploadingFile * Z :=
  match files with
  | [] => ([], now)
  | (f, elapsed) :: rest =>
      let '(entries, last) := newFiles (now + Z.of_N elapsed)%Z rest in
      (newFile (now + Z.of_N elapsed)%Z f :: entries, last)
  end.

(** The times at which [newFiles] reads the clock, file by file. *)
Fixpoint reading_times (now : Z) (files : list (File.t * N)) : list Z :=
  match files with
  | [] => []
  | (_, elapsed) :: rest =>
      (now + Z.of_N elapsed)%Z :: reading_times (now + Z.of_N elapsed)%Z rest
  end.

(** Lines 22-39.  [files] is [None] when [e.target.files] is null. *)
Definition handleFileSelect (files : option (list (File.t * N))) (w : World)
  : World :=
  match files with
  | None | Some [] => w
  | Some fs =>
      let '(entries, now) := newFiles (clock w) fs in
      {| uploadingFiles := uploadingFiles w ++ entries;
         localStorage := localStorage w;
         uploads :=
           uploads w
           ++ List.map (fun f => simulateFileUpload now (id f) (file f))
                entries;
         timeouts := timeouts w;
         clock := now;
         toasts := toasts w |}
  end.

Definition same_id (fileId : jsstring) (f : UploadingFile) : bool :=
  bool_decide (id f = fileId).

(** Lines 49-55: [{ ...f, progress: 100, status: 'complete' }]. *)
Definition mark_complete (fileId : jsstring) (f : UploadingFile)
  : UploadingFile :=
  if same_id fileId f then
    {| id := id f; file := file f; progress := 100%Q; status := complete;
       error_text := error_text f |}
  else f.

(** Lines 75-79: [{ ...f, progress }]. *)
Definition set_progress (fileId : jsstring) (p : Q) (f : UploadingFile)
  : UploadingFile :=
  if same_id fileId f then
    {| id := id f; file := file f; progress := p; status := status f;
       error_text := error_text f |}
  else f.

(** Lines 58-65. *)
Definition fileData (fileId : jsstring) (f : File.t) (now : Z) : value :=
  VObj [(js "id", VStr fileId);
        (js "name", VStr (File.name f));
        (js "type", VStr (File.type f));
        (js "size", VNum (number_of_N (File.size f)));
        (js "modifiedAt", VDate now);
        (js "isFolder", VBool false)].

(** Lines 43-80: the interval callback, run with [Math.random()] = [r].
    It returns the closure and the world it leaves, and how it completes:
    an exception of [saveUploadedFile] ends the callback at line 58. *)
Definition tick (r : Q) (u : Upload) (w : World)
  : Upload * World * completion unit :=
  let progress := (upload_progress u + r * 10)%Q in
  if Qle_bool 100 progress then
    let u' := {| fileId := fileId u; upload_file := upload_file u;
                 upload_progress := 100%Q; interval := None |} in
    let marked := List.map (mark_complete (fileId u)) (uploadingFiles w) in
    match saveUploadedFile (fileData (fileId u) (upload_file u) (clock w))
            (localStorage w) with
    | Throw e =>
        (u',
         {| uploadingFiles := marked; localStorage := localStorage w;
            uploads := uploads w; timeouts := timeouts w; clock := clock w;
            toasts := toasts w |},
         Throw e)
    | Normal ls' =>
        (u',
         {| uploadingFiles := List.map (set_progress (fileId u) 100%Q) marked;
            localStorage := ls';
            uploads := uploads w;
            timeouts := timeouts w ++ [((clock w + 2000)%Z, fileId u)];
            clock := clock w;
            toasts := S (toasts w) |},
         Normal tt)
    end
  else
    ({| fileId := fileId u; upload_file := upload_file u;
        upload_progress := progress;
        interval := Some (clock w + 200)%Z |},
     {| uploadingFiles :=
          List.map (set_progress (fileId u) progress) (uploadingFiles w);
        localStorage := localStorage w; uploads := uploads w;
        timeouts := timeouts w; clock := clock w; toasts := toasts w |},
     Normal tt).

(** Lines 109-111, and the callback of line 71. *)
Definition removeFile (fileId : jsstring) (w : World) : World :=
  {| uploadingFiles :=
       List.filter (fun f => negb (same_id fileId f)) (uploadingFiles w);
     localStorage := localStorage w; uploads := uploads w;
     timeouts := timeouts w; clock := clock w; toasts := toasts w |}.

(** Lines 113-117. *)
Definition getTotalProgress (uploadingFiles : list UploadingFile) : Q :=
  if (List.length uploadingFiles =? 0)%nat then 0%Q
  else
    let totalProgress :=
      List.fold_left (fun sum file => (sum + progress file)%Q)
        uploadingFiles 0%Q in
    (totalProgress / inject_Z (Z.of_nat (List.length uploadingFiles)))%Q.

(** Line 119. *)
Definition allUploaded (uploadingFiles : list UploadingFile) : bool :=
  (0 <? List.length uploadingFiles)%nat
  && List.forallb
       (fun file => match status file with complete => true | _ => false end)
       uploadingFiles.

(** *** The event loop

    The browser runs one callback at a time.  An interval fires no earlier
    than its due time and only while it is not cleared; a timeout fires no
    earlier than its due time, once. *)

Inductive event :=
| FilesSelected (files : option (list (File.t * N)))
| IntervalFires (i : nat) (r : Q)
| TimeoutFires (j : nat)
| RemoveClicked (fileId : jsstring)
| TimePasses (dt : Z).

Definition put_upload (i : nat) (u : Upload) (w : World) : World :=
  {| uploadingFiles := uploadingFiles w; localStorage := localStorage w;
     uploads := <[i := u]> (uploads w); timeouts := timeouts w;
     clock := clock w; toasts := toasts w |}.

Definition random_draw (r : Q) : bool := Qle_bool 0 r && negb (Qle_bool 1 r).

Definition fire_interval (i : nat) (r : Q) (w : World) : option World :=
  match uploads w !! i with
  | Some u =>
      match interval u with
      | Some due =>
          if (due <=? clock w)%Z && random_draw r then
            let '(u', w', _) := tick r u w in Some (put_upload i u' w')
          else None
      | None => None
      end
  | None => None
  end.

Definition fire_timeout (j : nat) (w : World) : option World :=
  match timeouts w !! j with
  | Some (due, fileId) =>
      if (due <=? clock w)%Z then
        let w' := removeFile fileId w in
        Some {| uploadingFiles := uploadingFiles w';
                localStorage := localStorage w'; uploads := uploads w';
                timeouts := delete j (timeouts w'); clock := clock w';
                toasts := toasts w' |}
      else None
  | None => None
  end.

Definition pass_time (dt : Z) (w : World) : option World :=
  if (0 <=? dt)%Z then
    Some {| uploadingFiles := uploadingFiles w; localStorage := localStorage w;
            uploads := uploads w; timeouts := timeouts w;
            clock := (clock w + dt)%Z; toasts := toasts w |}
  else None.

(** [None]: the event cannot happen in this world. *)
Definition react (e : event) (w : World) : option World :=
  match e with
  | FilesSelected files => Some (handleFileSelect files w)
  | IntervalFires i r => fire_interval i r w
  | TimeoutFires j => fire_timeout j w
  | RemoveClicked fileId => Some (removeFile fileId w)
  | TimePasses dt => pass_time dt w
  end.

Fixpoint react_all (es : list event) (w : World) : option World :=
  match es with
  | [] => Some w
  | e :: es' =>
      match react e w with
      | Some w' => react_all es' w'
      | None => None
      end
  end.

(** ** The values of JSON texts

    [is_json v]: [v] is built from null, booleans, numbers, strings,
    arrays and objects, and every object lists its properties in
    enumeration order, each key once. *)

Fixpoint keys_ordered (l : list jsstring) : bool :=
  match l with
  | [] => true
  | k :: l' =>
      forallb (fun k' => negb (bool_decide (k' = k)) && negb (goes_before k' k))
        l'
      && keys_ordered l'
  end.

Fixpoint is_json (v : value) : bool :=
  match v with
  | VUndefined | VDate _ => false
  | VNull | VBool _ | VNum _ | VStr _ => true
  | VArr xs => forallb is_json xs
  | VObj ps =>
      keys_ordered (List.map fst ps)
      && forallb (fun kv => is_json (snd kv)) ps
  end.

(** The members of an object as [JSON.stringify] prints them. *)
Fixpoint members (l : list (jsstring * value)) : list jsstring :=
  match l with
  | [] => []
  | (k, x) :: l' =>
      match serialize x with
      | Some t => (quote k ++ 58 :: t) :: members l'
      | None => members l'
      end
  end.

(** What [JSON.parse] reads from the text that [JSON.stringify] prints
    for a JSON value: the same value, except that each number has gone
    through its decimal text, and a number that is not finite has become
    null. *)
Fixpoint reread (v : value) : value :=
  match v with
  | VNum x =>
      match number_text x with
      | Some t => VNum (number_of_numeral t)
      | None => VNull
      end
  | VArr xs => VArr (List.map reread xs)
  | VObj ps => VObj (List.map (fun kv => (fst kv, reread (snd kv))) ps)
  | _ => v
  end.

Definition reread_props (ps : list (jsstring * value))
  : list (jsstring * value) :=
  List.map (fun kv => (fst kv, reread (snd kv))) ps.

(** A value that is read back as it was printed.  Such are the values
    without numbers; a finite number other than -0 is expected to be
    one, which [reread] decides for each given number. *)
Definition stable (v : value) : Prop := reread v = v.

(** [v'] is [v] after it has been printed and read any number of
    times. *)
Definition reprinted (v v' : value) : Prop :=
  exists n, v' = Nat.iter n reread v.

(** A comma, a closing bracket or a closing brace ends a numeral. *)
Definition is_closer (c : N) : bool := (c =? 44) || (c =? 93) || (c =? 125).

(** The automaton has read the value [v] above the stack [stk]: either
    it knows so, or [v] is the number of a numeral that the next code
    unit may still extend. *)
Definition settled (v : value) (stk : list frame) (st : pstate) : Prop :=
  st = (MAfter v, stk)
  \/ exists s n, v = VNum (number_of_numeral n) /\ st = (MNum s n, stk)
                 /\ num_accepting s = true.

(** [v] prints to a text from which the automaton reads [reread v]. *)
Definition reads_back (v : value) : Prop :=
  exists t,
    serialize v = Some t
    /\ forall mc stk,
        exists st,
          run (MValue mc, stk) t = Some st /\ settled (reread v) stk st.

(** What holds of every state the automaton reaches: the values it has
    built are JSON values, and the code units gathered for a numeral
    have led the numeral automaton to the recorded state. *)
Definition props_ok (props : list (jsstring * value)) : bool :=
  keys_ordered (List.map fst props)
  && forallb (fun kv => is_json (snd kv)) props.

Definition frame_ok (f : frame) : bool :=
  match f with
  | FArr items => forallb is_json items
  | FObj props | FMember props _ => props_ok props
  end.

Definition mode_ok (m : mode) : Prop :=
  match m with
  | MAfter v | MLit _ v => is_json v = true
  | MNum s acc => num_scan acc = Some s
  | _ => True
  end.

Definition state_ok (st : pstate) : Prop :=
  mode_ok (fst st) /\ forallb frame_ok (snd st) = true.

(** ** The arithmetic mean, as the specification words it

    The sum of the values divided by their number. *)
Fixpoint spec_sum (ps : list Q) : Q :=
  match ps with
  | [] => 0%Q
  | p :: ps' => (p + spec_sum ps')%Q
  end.

Definition spec_mean (ps : list Q) : Q :=
  (spec_sum ps / inject_Z (Z.of_nat (List.length ps)))%Q.

(** ** Lines 44 and 113-117 on doubles

    The arithmetic of the engine: each operation gives the double
    nearest to the exact result.  [Q_of_number] is the exact value of a
    finite double. *)

Definition binary64_add : number -> number -> number := SFadd 53 1024.
Definition binary64_mul : number -> number -> number := SFmul 53 1024.

Definition Q_of_number (x : number) : Q :=
  match x with
  | S754_finite s m e =>
      ((if s then -1 else 1) * inject_Z (Zpos m) * Qpower 2 e)%Q
  | _ => 0%Q
  end.

(** Line 44: [progress += Math.random() * 10]. *)
Definition line_44 (progress r : number) : number :=
  binary64_add progress (binary64_mul r (number_of_N 10)).




(** The value that [JSON.parse] reads from the record written at line 40:
    a [name] that is [undefined] is not printed. *)
Definition persisted_user (stored_name stored_email : value) : value :=
  VObj (match stored_name with
        | VUndefined => []
        | _ => [(js "name", stored_name)]
        end
        ++ [(js "email", stored_email); (js "isLoggedIn", VBool true)]).

(** The record of lines 58-65 as [JSON.stringify] prints it: the [Date]
    gives its ISO string. *)
Definition printed_file_record (fileId : jsstring) (f : File.t) (now : Z)
  : value :=
  VObj [(js "id", VStr fileId);
        (js "name", VStr (File.name f));
        (js "type", VStr (File.type f));
        (js "size", VNum (number_of_N (File.size f)));
        (js "modifiedAt", VStr (toISOString now));
        (js "isFolder", VBool false)].

(** The record of lines 58-65 as it is read from the store: the [Date]
    has become its ISO string, the size has gone through its decimal
    text. *)
Definition uploaded_file_record (fileId : jsstring) (f : File.t) (now : Z)
  : value :=
  VObj [(js "id", VStr fileId);
        (js "name", VStr (File.name f));
        (js "type", VStr (File.type f));
        (js "size", reread (VNum (number_of_N (File.size f))));
        (js "modifiedAt", VStr (toISOString now));
        (js "isFolder", VBool false)].

(** ** Sample data *)

(** A text of the examples, written with an apostrophe where the text
    has a double quote. *)
Definition sample_text (s : string) : jsstring :=
  List.map (fun c => if c =? 39 then 34 else c) (js s).

(** A store of five mebi code units. *)
Definition store_of (m : gmap jsstring jsstring) : Storage :=
  {| texts := m; capacity := 5242880 |}.

Definition empty_store : Storage := store_of ∅.

Definition ann_signed_up : Storage :=
  store_of
    {[ js "userData" :=
         sample_text "{'name':'Ann','email':'ann@x.io','password':'pw','isLoggedIn':false}" ]}.

Definition ann_logged_in : Storage :=
  store_of
    {[ js "userData" :=
         sample_text "{'name':'Ann','email':'ann@x.io','isLoggedIn':true}" ]}.

Definition broken_store : Storage :=
  store_of
    {[ js "userData" := sample_text "{'name':";
       js "uploadedFiles" := sample_text "oops" ]}.

(** A store that is full: Bob's record takes all of the quota. *)
Definition bob_record : jsstring :=
  sample_text "{'email':'bob@x.io','password':'pw'}".

Definition full_store : Storage :=
  {| texts := {[ js "userData" := bob_record ]};
     capacity := N.of_nat (List.length (js "userData" ++ bob_record)) |}.

(** A store whose list of uploaded files holds numbers that do not print
    as they were read: a numeral beyond the range of the doubles, a
    negative zero and a numeral with more digits than a double keeps. *)
Definition odd_numbers : Storage :=
  store_of
    {[ js "uploadedFiles" := sample_text "[1e400,-0,0.1234567890123456789]" ]}.

(** The same store after [saveUploadedFile] has stored the record of
    a.txt at time 0. *)
Definition odd_numbers_saved : Storage :=
  store_of
    {[ js "uploadedFiles" :=
         sample_text "[null,0,0.12345678901234568,{'id':'a.txt-0','name':'a.txt','type':'text/plain','size':10,'modifiedAt':'1970-01-01T00:00:00.000Z','isFolder':false}]" ]}.

(** A store that holds one uploaded file. *)
Definition one_uploaded : Storage :=
  store_of
    {[ js "uploadedFiles" :=
         sample_text "[{'id':'b.txt-5','name':'b.txt','type':'text/plain','size':1536,'modifiedAt':'1970-01-01T00:00:00.005Z','isFolder':false}]" ]}.

(** The same store after the upload of a.txt has finished at time 2200. *)
Definition two_uploaded : Storage :=
  store_of
    {[ js "uploadedFiles" :=
         sample_text "[{'id':'b.txt-5','name':'b.txt','type':'text/plain','size':1536,'modifiedAt':'1970-01-01T00:00:00.005Z','isFolder':false},{'id':'a.txt-0','name':'a.txt','type':'text/plain','size':10,'modifiedAt':'1970-01-01T00:00:02.200Z','isFolder':false}]" ]}.

Definition a_txt : File.t :=
  {| File.name := js "a.txt"; File.type := js "text/plain"; File.size := 10 |}.

Definition b_txt : File.t :=
  {| File.name := js "b.txt"; File.type := js "text/plain"; File.size := 1536 |}.

Definition broken_uploads : World :=
  {| uploadingFiles := []; localStorage := broken_store; uploads := [];
     timeouts := []; clock := 0; toasts := 0 |}.


(** The ticks of [eleven_ticks], without the pick. *)
Definition eleven_ticks_only : list event :=
  List.concat (List.repeat [TimePasses 200; IntervalFires 0 (99 # 100)%Q] 11).

(** a.txt has just been picked at time 0, in a browser whose store holds
    one uploaded file. *)
Definition a_txt_picked : World :=
  {| uploadingFiles := [newFile 0 a_txt]; localStorage := one_uploaded;
     uploads := [simulateFileUpload 0 (js "a.txt-0") a_txt];
     timeouts := []; clock := 0; toasts := 0 |}.

(** The same browser after the eleven ticks. *)
Definition a_txt_uploaded : World :=
  {| uploadingFiles := [mark_complete (js "a.txt-0") (newFile 0 a_txt)];
     localStorage := two_uploaded;
     uploads :=
       [{| fileId := js "a.txt-0"; upload_file := a_txt;
           upload_progress := 100%Q; interval := None |}];
     timeouts := [(4200%Z, js "a.txt-0")]; clock := 2200; toasts := 1 |}.

(** ** The login form

    The component state of Login.tsx (lines 11-13) and what the user can
    do with the form: type in the two inputs (lines 70 and 86) and submit
    (line 60).  [error] is the text shown at line 89. *)

Module Form.
Record t := { email : jsstring; password : jsstring; error : jsstring }.
End Form.

Inductive action :=
| TypeEmail (value : jsstring)
| TypePassword (value : jsstring)
| Submit.

(** Line 28. *)
Definition invalid_credentials_message : jsstring :=
  js "Invalid credentials. Please try again.".

(** [onSubmit]: [handleLogin] on the current inputs; [setError] runs on the
    "invalid credentials" path only. *)
Definition submit (f : Form.t) (ls : Storage)
  : Form.t * Storage * completion Login.signal :=
  let '(outcome, ls') :=
    Login.handleLogin (Form.email f) (Form.password f) ls in
  match outcome with
  | Normal Login.InvalidCredentials =>
      ({| Form.email := Form.email f; Form.password := Form.password f;
          Form.error := invalid_credentials_message |}, ls', outcome)
  | _ => (f, ls', outcome)
  end.

Definition act (a : action) (page : Form.t * Storage) : Form.t * Storage :=
  let '(f, ls) := page in
  match a with
  | TypeEmail value =>
      ({| Form.email := value; Form.password := Form.password f;
          Form.error := Form.error f |}, ls)
  | TypePassword value =>
      ({| Form.email := Form.email f; Form.password := value;
          Form.error := Form.error f |}, ls)
  | Submit => (submit f ls).1
  end.

Definition act_all (acts : list action) (page : Form.t * Storage)
  : Form.t * Storage :=
  List.fold_left (fun p a => act a p) acts page.

(** Login attempts one after the other, each with its own inputs. *)
Fixpoint login_all (attempts : list (jsstring * jsstring)) (ls : Storage)
  : Storage :=
  match attempts with
  | [] => ls
  | (email, password) :: rest =>
      login_all rest (Login.handleLogin email password ls).2
  end.

(** ** The view of the uploader *)

(** [Math.round]: the nearest integer, the larger one at a tie. *)
Definition Math_round (x : Q) : Z := Qfloor (x + (1 # 2))%Q.

(** Line 155: [Math.round(getTotalProgress())]. *)
Definition total_percent (uploadingFiles : list UploadingFile) : Z :=
  Math_round (getTotalProgress uploadingFiles).

(** Line 180: [Math.round(file.progress)]. *)
Definition file_percent (f : UploadingFile) : Z := Math_round (progress f).

(** Line 175: [(file.file.size / 1024 / 1024).toFixed(2)].  The two
    divisions by a power of two are exact on a size below 2^53, and
    [toFixed(2)] takes the integer [n] for which [n / 100] is nearest to
    the quotient, the larger one at a tie: [megabyte_hundredths] is that
    [n].  Its digits are then printed with a point before the last two. *)
Definition megabyte_hundredths (size : N) : N :=
  (100 * size + 524288) / 1048576.

Definition toFixed2 (n : N) : jsstring :=
  let m := decimal_of_N n in
  let m' := List.repeat 48 (3 - List.length m) ++ m in
  List.firstn (List.length m' - 2) m'
  ++ 46 :: List.skipn (List.length m' - 2) m'.

Definition size_label (f : File.t) : jsstring :=
  toFixed2 (megabyte_hundredths (File.size f)) ++ js " MB".

(** ** Counting uploads and selected files *)

Definition is_armed (u : Upload) : bool :=
  match interval u with Some _ => true | None => false end.

(** The uploads whose interval has not been cleared. *)
Definition armed (w : World) : nat :=
  List.length (List.filter is_armed (uploads w)).

Definition selected (e : event) : nat :=
  match e with
  | FilesSelected (Some fs) => List.length fs
  | _ => 0%nat
  end.

Fixpoint selected_all (es : list event) : nat :=
  match es with
  | [] => 0%nat
  | e :: es' => (selected e + selected_all es')%nat
  end.

(** ** What the uploader keeps true *)

Definition progress_in_range (w : World) : Prop :=
  Forall (fun f => (0 <= progress f /\ progress f <= 100)%Q)
    (uploadingFiles w)
  /\ Forall (fun u => (0 <= upload_progress u /\ upload_progress u <= 100)%Q)
       (uploads w).

Definition never_failed (w : World) : Prop :=
  Forall (fun f => status f <> error /\ error_text f = None)
    (uploadingFiles w).

(** A store from which both reads return normally, the second one with a
    sequence. *)
Definition readable (ls : Storage) : Prop :=
  (exists v, Login.readUser ls = Normal v)
  /\ (exists items, readUploadedFiles ls = Normal (VArr items)).

(** How far an upload can be after [k] ticks, at time [now], when it
    started with progress [p0] and its interval first due at [due0]: each
    tick adds at most 10 and re-arms the interval 200 ms later. *)
Definition paced (p0 : Q) (due0 : Z) (u : Upload) (now : Z) (k : nat)
  : Prop :=
  match interval u with
  | Some due =>
      (upload_progress u <= p0 + 10 * inject_Z (Z.of_nat k))%Q
      /\ (due0 + 200 * Z.of_nat k <= due)%Z
  | None =>
      (1 <= k)%nat
      /\ (100 < p0 + 10 * inject_Z (Z.of_nat k))%Q
      /\ (due0 + 200 * (Z.of_nat k - 1) <= now)%Z
  end.

(** The number of times the interval of upload [i] fires in [es]. *)
Fixpoint fired (i : nat) (es : list event) : nat :=
  match es with
  | [] => 0%nat
  | IntervalFires i' _ :: es' =>
      ((if bool_decide (i' = i) then 1 else 0) + fired i es')%nat
  | _ :: es' => fired i es'
  end.

(** Whether the event is a tick that ends with an exception. *)
Definition raises (e : event) (w : World) : bool :=
  match e with
  | IntervalFires i r =>
      match uploads w !! i with
      | Some u =>
          match (tick r u w).2 with Throw _ => true | Normal _ => false end
      | None => false
      end
  | _ => false
  end.

(** The number of ticks that end with an exception in the course of
    [es]. *)
Fixpoint raised_all (es : list event) (w : World) : nat :=
  match es with
  | [] => 0%nat
  | e :: es' =>
      match react e w with
      | Some w' => ((if raises e w then 1 else 0) + raised_all es' w')%nat
      | None => 0%nat
      end
  end.

(** A bound on what the rounding of the two operations of line 44 can
    add to or take from a progress value below 128: 2^-40. *)
Definition slack : Q := 1 # 1099511627776.

(** * Properties of the JSON model *)

Lemma four_hex_digits c :
  c < 65536 ->
  (((0 * 16 + c / 4096 mod 16) * 16 + c / 256 mod 16) * 16
   + c / 16 mod 16) * 16 + c mod 16 = c.
Proof.
  intros Hc.
  pose proof (N.div_mod' c 16) as E0.
  pose proof (N.div_mod' (c / 16) 16) as E1.
  pose proof (N.div_mod' (c / 256) 16) as E2.
  replace (c / 16 / 16) with (c / 256) in E1
    by (rewrite N.Div0.div_div; reflexivity).
  replace (c / 256 / 16) with (c / 4096) in E2
    by (rewrite N.Div0.div_div; reflexivity).
  assert (E3 : c / 4096 mod 16 = c / 4096).
  { apply N.mod_small. apply N.Div0.div_lt_upper_bound. lia. }
  rewrite E3. lia.
Qed.

Ltac cmp_cases :=
  repeat match goal with
    | |- context [N.eqb ?a ?b] => destruct (N.eqb_spec a b)
    | |- context [N.leb ?a ?b] => destruct (N.leb_spec a b)
    | |- context [N.ltb ?a ?b] => destruct (N.ltb_spec a b)
    end;
  simpl; try lia; try congruence.

Ltac reflect_in H :=
  rewrite ?andb_true_iff, ?orb_true_iff, ?andb_false_iff, ?orb_false_iff,
    ?negb_true_iff, ?negb_false_iff,
    ?N.leb_le, ?N.eqb_eq, ?N.ltb_lt, ?N.leb_gt, ?N.eqb_neq, ?N.ltb_ge in H.

Ltac reflect_in_goal :=
  rewrite ?andb_true_iff, ?orb_true_iff, ?andb_false_iff, ?orb_false_iff,
    ?negb_true_iff, ?negb_false_iff,
    ?N.leb_le, ?N.eqb_eq, ?N.ltb_lt, ?N.leb_gt, ?N.eqb_neq, ?N.ltb_ge.

Lemma run_app st a b :
  run st (a ++ b) =
  match run st a with Some st' => run st' b | None => None end.
Proof.
  revert st. induction a as [|c a IH]; intros st; simpl; [reflexivity|].
  destruct (step st c); [apply IH | reflexivity].
Qed.

(** ** Strings are read back from their quoted form *)

Lemma hex_value_hex_digit n : n < 16 -> hex_value (hex_digit n) = Some n.
Proof.
  intros Hn. unfold hex_value, hex_digit, is_digit.
  cmp_cases; f_equal; lia.
Qed.

Lemma unicode_escape_run k acc stk c rest :
  c < 65536 ->
  run (MStr k acc SChars, stk) (unicode_escape c ++ rest)
  = run (MStr k (acc ++ [c]) SChars, stk) rest.
Proof.
  intros Hc. unfold unicode_escape.
  assert (H3 : c / 4096 mod 16 < 16) by (apply N.mod_lt; lia).
  assert (H2 : c / 256 mod 16 < 16) by (apply N.mod_lt; lia).
  assert (H1 : c / 16 mod 16 < 16) by (apply N.mod_lt; lia).
  assert (H0 : c mod 16 < 16) by (apply N.mod_lt; lia).
  cbn [app run step str_step].
  change (92 =? 34) with false. change (92 =? 92) with true.
  cbn [run step str_step]. change (unescape 117) with (@None N).
  change (117 =? 117) with true. cbn [run step str_step].
  repeat (rewrite hex_value_hex_digit by assumption;
          cbn [Nat.eqb run step str_step]).
  rewrite four_hex_digits by assumption. reflexivity.
Qed.

Lemma raw_unit_run k acc stk c :
  32 <= c -> c <> 34 -> c <> 92 ->
  step (MStr k acc SChars, stk) c = Some (MStr k (acc ++ [c]) SChars, stk).
Proof. intros. cbn [step str_step]. cmp_cases. Qed.

Lemma quote_unit_run k acc stk c rest :
  is_high_surrogate c = false -> is_low_surrogate c = false ->
  run (MStr k acc SChars, stk) (quote_unit c ++ rest)
  = run (MStr k (acc ++ [c]) SChars, stk) rest.
Proof.
  intros _ _. unfold quote_unit.
  destruct (N.eqb_spec c 8) as [->|]; [reflexivity|].
  destruct (N.eqb_spec c 9) as [->|]; [reflexivity|].
  destruct (N.eqb_spec c 10) as [->|]; [reflexivity|].
  destruct (N.eqb_spec c 12) as [->|]; [reflexivity|].
  destruct (N.eqb_spec c 13) as [->|]; [reflexivity|].
  destruct (N.eqb_spec c 34) as [->|]; [reflexivity|].
  destruct (N.eqb_spec c 92) as [->|]; [reflexivity|].
  destruct (N.ltb_spec c 32).
  - apply unicode_escape_run. lia.
  - cbn [app run]. rewrite raw_unit_run by assumption. reflexivity.
Qed.

Lemma quote_units_run_bounded n : forall s k acc stk rest,
  (List.length s <= n)%nat ->
  run (MStr k acc SChars, stk) (quote_units s ++ rest)
  = run (MStr k (acc ++ s) SChars, stk) rest.
Proof.
  induction n as [|n IH]; intros s k acc stk rest Hlen.
  - destruct s; [|simpl in Hlen; lia]. rewrite app_nil_r. reflexivity.
  - destruct s as [|c s]; [rewrite app_nil_r; reflexivity|].
    simpl in Hlen. cbn [quote_units].
    destruct (is_high_surrogate c) eqn:Hhi.
    + assert (Hc : 55296 <= c /\ c <= 56319).
      { unfold is_high_surrogate in Hhi. reflect_in Hhi. lia. }
      destruct s as [|d s].
      * rewrite unicode_escape_run by lia. reflexivity.
      * destruct (is_low_surrogate d) eqn:Hlo.
        -- assert (Hd : 56320 <= d /\ d <= 57343).
           { unfold is_low_surrogate in Hlo. reflect_in Hlo. lia. }
           cbn [app run]. rewrite raw_unit_run by lia.
           rewrite raw_unit_run by lia.
           simpl in Hlen. rewrite IH by lia.
           rewrite <- !app_assoc. reflexivity.
        -- rewrite <- app_assoc, unicode_escape_run by lia.
           rewrite IH by lia. rewrite <- app_assoc. reflexivity.
    + destruct (is_low_surrogate c) eqn:Hlo.
      * assert (Hc : 56320 <= c /\ c <= 57343).
        { unfold is_low_surrogate in Hlo. reflect_in Hlo. lia. }
        rewrite <- app_assoc, unicode_escape_run by lia.
        rewrite IH by lia. rewrite <- app_assoc. reflexivity.
      * rewrite <- app_assoc, quote_unit_run by assumption.
        rewrite IH by lia. rewrite <- app_assoc. reflexivity.
Qed.

Lemma quote_run k stk s rest :
  run (MStr k [] SChars, stk) (quote_units s ++ 34 :: rest)
  = run (end_string k s stk) rest.
Proof.
  rewrite (quote_units_run_bounded (List.length s)) by lia.
  reflexivity.
Qed.

(** ** Numerals are read back *)

Lemma num_start_begin_value mc stk c s :
  num_start c = Some s ->
  begin_value mc stk c = Some (MNum s [c], stk).
Proof.
  unfold begin_value, num_start, is_ws, is_digit19.
  destruct mc; cmp_cases; intros Hs; congruence.
Qed.

Lemma num_run_MNum stk l : forall s s' acc,
  num_run s l = Some s' ->
  run (MNum s acc, stk) l = Some (MNum s' (acc ++ l), stk).
Proof.
  induction l as [|c l IH]; intros s s' acc H; simpl in *.
  - rewrite app_nil_r. congruence.
  - destruct (num_step s c) as [s1|]; [|discriminate].
    rewrite (IH _ _ _ H), <- app_assoc. reflexivity.
Qed.

Lemma numeral_run mc stk n :
  is_numeral n = true ->
  exists s, run (MValue mc, stk) n = Some (MNum s n, stk)
            /\ num_accepting s = true.
Proof.
  unfold is_numeral, num_scan. destruct n as [|c l]; [discriminate|].
  destruct (num_start c) as [s0|] eqn:H0; [|discriminate].
  destruct (num_run s0 l) as [s|] eqn:H1; [|discriminate].
  intros Hacc. exists s. split; [|assumption].
  cbn [run step]. rewrite (num_start_begin_value _ _ _ _ H0).
  apply (num_run_MNum _ _ _ _ [c] H1).
Qed.

Lemma num_step_closer s c : is_closer c = true -> num_step s c = None.
Proof.
  unfold is_closer. intros H. reflect_in H.
  assert (Hc : c = 44 \/ c = 93 \/ c = 125) by tauto.
  destruct Hc as [->|[->| ->]]; destruct s; reflexivity.
Qed.

Lemma settled_step v stk st c :
  settled v stk st -> is_closer c = true -> step st c = after_value v stk c.
Proof.
  intros [->|(s & n & -> & -> & Hacc)] Hc; [reflexivity|].
  cbn [step]. rewrite (num_step_closer _ _ Hc), Hacc. reflexivity.
Qed.

(** *** The text of a number is a numeral *)

Lemma num_run_app a : forall s b,
  num_run s (a ++ b)
  = match num_run s a with Some s' => num_run s' b | None => None end.
Proof.
  induction a as [|c a IH]; intros s b; cbn [app num_run]; [reflexivity|].
  destruct (num_step s c); [apply IH | reflexivity].
Qed.

Lemma uint_units_all_digits d : forallb is_digit (uint_units d) = true.
Proof. induction d; cbn [uint_units forallb]; rewrite ?IHd; reflexivity. Qed.

Lemma nzhead_head d :
  match Decimal.nzhead d with Decimal.D0 _ => False | _ => True end.
Proof. induction d; cbn [Decimal.nzhead]; auto. Qed.

(** The decimal form of a positive number: digits, the first of them not
    a zero. *)
Lemma decimal_of_N_pos p :
  exists c l,
    decimal_of_N (Npos p) = c :: l
    /\ is_digit19 c = true /\ forallb is_digit l = true.
Proof.
  unfold decimal_of_N.
  assert (H : N.to_uint (Npos p) = Decimal.unorm (N.to_uint (Npos p))).
  { rewrite <- DecimalN.Unsigned.to_of, DecimalN.Unsigned.of_to.
    reflexivity. }
  pose proof (DecimalPos.Unsigned.to_uint_nonzero p) as Hnz.
  change (N.to_uint (Npos p)) with (Pos.to_uint p) in *.
  rewrite H. unfold Decimal.unorm.
  pose proof (nzhead_head (Pos.to_uint p)) as Hh.
  pose proof (uint_units_all_digits (Decimal.nzhead (Pos.to_uint p))) as Hd.
  destruct (Decimal.nzhead (Pos.to_uint p)) eqn:E;
    try contradiction;
    try (cbn [uint_units forallb] in *; eexists _, _;
         split; [reflexivity|]; split; [reflexivity|];
         apply andb_true_iff in Hd as [_ Hd]; exact Hd).
  exfalso. apply Hnz. rewrite H. unfold Decimal.unorm. rewrite E.
  reflexivity.
Qed.

Lemma decimal_of_N_digits n :
  decimal_of_N n <> [] /\ forallb is_digit (decimal_of_N n) = true.
Proof.
  destruct n as [|p]; [split; [discriminate|reflexivity]|].
  destruct (decimal_of_N_pos p) as (c & l & -> & Hc & Hl).
  split; [discriminate|]. cbn [forallb]. rewrite Hl, andb_true_r.
  unfold is_digit19 in Hc. unfold is_digit. reflect_in Hc. reflect_in_goal.
  lia.
Qed.

Lemma digit19_starts c :
  is_digit19 c = true ->
  num_start c = Some NInt /\ num_step NMinus c = Some NInt.
Proof.
  unfold is_digit19, num_start. cbn [num_step]. unfold is_digit19.
  intros H. rewrite H. reflect_in H.
  destruct (N.eqb_spec c 45); [lia|]. destruct (N.eqb_spec c 48); [lia|].
  auto.
Qed.

Lemma digits_stay s l :
  s = NInt \/ s = NFrac \/ s = NExpDigits ->
  forallb is_digit l = true -> num_run s l = Some s.
Proof.
  intros Hs. induction l as [|c l IH]; cbn [forallb num_run];
    [reflexivity|].
  rewrite andb_true_iff. intros [Hc Hl].
  destruct Hs as [->|[->| ->]]; cbn [num_step]; rewrite Hc; auto.
Qed.

Lemma digits_enter s s' l :
  (s = NDot /\ s' = NFrac) \/ (s = NExpSign /\ s' = NExpDigits) ->
  l <> [] -> forallb is_digit l = true -> num_run s l = Some s'.
Proof.
  intros Hs Hne. destruct l as [|c l]; [congruence|].
  cbn [forallb num_run]. rewrite andb_true_iff. intros [Hc Hl].
  destruct Hs as [[-> ->]|[-> ->]]; cbn [num_step]; rewrite Hc;
    apply digits_stay; auto.
Qed.

Lemma zeros_are_digits n : forallb is_digit (List.repeat 48 n) = true.
Proof. induction n; cbn [List.repeat forallb]; rewrite ?IHn; reflexivity. Qed.

Lemma forallb_firstn {A} (f : A -> bool) n : forall l,
  forallb f l = true -> forallb f (List.firstn n l) = true.
Proof.
  induction n as [|n IH]; intros [|x l]; cbn [List.firstn forallb]; auto.
  rewrite !andb_true_iff. intros [Hx Hl]. auto.
Qed.

Lemma forallb_skipn {A} (f : A -> bool) n : forall l,
  forallb f l = true -> forallb f (List.skipn n l) = true.
Proof.
  induction n as [|n IH]; intros [|x l]; cbn [List.skipn forallb]; auto.
  rewrite !andb_true_iff. intros [Hx Hl]. auto.
Qed.

(** The exponent part: e, a sign and digits. *)
Lemma exponent_run s sign n :
  s = NInt \/ s = NFrac -> sign = 45 \/ sign = 43 ->
  num_run s (101 :: sign :: decimal_of_N n) = Some NExpDigits.
Proof.
  intros Hs Hsign. destruct (decimal_of_N_digits n) as [Hne Hd].
  assert (H1 : num_step s 101 = Some NExp)
    by (destruct Hs as [->| ->]; reflexivity).
  assert (H2 : num_step NExp sign = Some NExpSign)
    by (destruct Hsign as [->| ->]; reflexivity).
  cbn [num_run]. rewrite H1, H2. apply digits_enter; auto.
Qed.

Lemma format_decimal_numeral s p :
  exists c l s0 s1,
    format_decimal s p = c :: l
    /\ num_start c = Some s0 /\ num_step NMinus c = Some s0
    /\ num_run s0 l = Some s1 /\ num_accepting s1 = true.
Proof.
  destruct s as [|q].
  { exists 48, [], NZero, NZero. repeat split. }
  destruct (decimal_of_N_pos q) as (c & l & Hds & Hc & Hl).
  destruct (digit19_starts c Hc) as [Hstart Hminus].
  unfold format_decimal. rewrite Hds.
  set (k := Z.of_nat (List.length (c :: l))).
  set (n := (p + k)%Z).
  assert (Hk : k = (Z.of_nat (List.length l) + 1)%Z)
    by (unfold k; cbn [List.length]; lia).
  destruct ((k <=? n) && (n <=? 21))%Z eqn:E1.
  { exists c, (l ++ List.repeat 48 (Z.to_nat (n - k))), NInt, NInt.
    repeat split; try assumption.
    apply digits_stay; [auto|].
    rewrite forallb_app, Hl, zeros_are_digits. reflexivity. }
  destruct ((0 <? n) && (n <=? 21))%Z eqn:E2.
  { apply andb_true_iff in E2 as [E2 E3].
    apply Z.ltb_lt in E2. apply Z.leb_le in E3.
    assert (Hnk : (n < k)%Z).
    { apply andb_false_iff in E1 as [E1|E1];
        [apply Z.leb_gt in E1; lia | apply Z.leb_gt in E1; lia]. }
    destruct (Z.to_nat n) as [|n'] eqn:En; [lia|].
    cbn [List.firstn List.skipn app].
    exists c, (List.firstn n' l ++ 46 :: List.skipn n' l), NInt, NFrac.
    repeat split; try assumption.
    rewrite num_run_app, (digits_stay NInt) by auto using forallb_firstn.
    cbn [num_run]. change (num_step NInt 46) with (Some NDot).
    apply digits_enter; [auto| |apply forallb_skipn; exact Hl].
    intros H. apply (f_equal (@List.length N)) in H.
    rewrite length_skipn in H. cbn [List.length] in H. lia. }
  destruct ((-6 <? n) && (n <=? 0))%Z eqn:E3.
  { exists 48, (46 :: List.repeat 48 (Z.to_nat (- n)) ++ c :: l), NZero, NFrac.
    repeat split.
    cbn [num_run]. change (num_step NZero 46) with (Some NDot).
    apply digits_enter; [auto| |].
    - destruct (List.repeat 48 (Z.to_nat (- n))); discriminate.
    - rewrite forallb_app, zeros_are_digits. cbn [forallb andb].
      rewrite Hl, andb_true_r.
      unfold is_digit19 in Hc. unfold is_digit. reflect_in Hc.
      reflect_in_goal. lia. }
  assert (Hsign : (if (n - 1 <? 0)%Z then 45 else 43) = 45
                  \/ (if (n - 1 <? 0)%Z then 45 else 43) = 43)
    by (destruct (n - 1 <? 0)%Z; auto).
  destruct l as [|d l'].
  - eexists c, _, NInt, NExpDigits. repeat split; try assumption.
    apply exponent_run; auto.
  - eexists c, _, NInt, NExpDigits. split; [reflexivity|].
    repeat split; try assumption.
    cbn [num_run]. change (num_step NInt 46) with (Some NDot).
    cbv beta iota.
    rewrite num_run_app, (digits_enter NDot NFrac) by (auto; discriminate).
    apply exponent_run; auto.
Qed.

Lemma number_text_numeral x t : number_text x = Some t -> is_numeral t = true.
Proof.
  destruct x as [s|s| |neg m e]; cbn [number_text]; try discriminate.
  - intros [= <-]. reflexivity.
  - destruct (shortest_decimal m e) as [s p]. intros [= <-].
    destruct (format_decimal_numeral s p)
      as (c & l & s0 & s1 & -> & Hstart & Hminus & Hrun & Hacc).
    unfold is_numeral, num_scan. destruct neg; cbn [app].
    + cbn [num_start N.eqb Pos.eqb num_run]. rewrite Hminus, Hrun. exact Hacc.
    + rewrite Hstart, Hrun. exact Hacc.
Qed.

Lemma settled_finish v st : settled v [] st -> finish st = Some v.
Proof.
  intros [->|(s & n & -> & -> & Hacc)]; [reflexivity|].
  cbn [finish]. rewrite Hacc. reflexivity.
Qed.

(** ** Property order *)

Lemma keys_ordered_app_l l1 l2 :
  keys_ordered (l1 ++ l2) = true -> keys_ordered l1 = true.
Proof.
  induction l1 as [|k l1 IH]; [reflexivity|]. cbn [app keys_ordered].
  rewrite !andb_true_iff, forallb_app, andb_true_iff. tauto.
Qed.

Lemma set_prop_append k v acc :
  keys_ordered (List.map fst (acc ++ [(k, v)])) = true ->
  set_prop k v acc = acc ++ [(k, v)].
Proof.
  induction acc as [|[k0 v0] acc IH]; [reflexivity|].
  cbn [app List.map fst keys_ordered set_prop].
  rewrite andb_true_iff, map_app, forallb_app. cbn [List.map forallb fst].
  rewrite !andb_true_iff, !negb_true_iff.
  intros [(_ & (Hne & Hgb) & _) Hrest].
  rewrite Hne, Hgb. f_equal. apply IH. rewrite map_app. exact Hrest.
Qed.

(** ** Parsing a printed value gives the value back *)

Lemma elements_run xs :
  Forall (fun x => is_json x = true -> reads_back x) xs ->
  forallb is_json xs = true -> xs <> [] ->
  forall mc items stk,
    run (MValue mc, FArr items :: stk)
      (join_commas
         (List.map (fun x => or_else (js "null") (serialize x)) xs) ++ [93])
    = Some (MAfter (VArr (items ++ List.map reread xs)), stk).
Proof.
  induction xs as [|x xs IH]; intros HF Hwf Hne mc items stk; [congruence|].
  apply Forall_cons in HF as [Hx HF].
  cbn [forallb] in Hwf. apply andb_true_iff in Hwf as [Hwx Hwf].
  destruct (Hx Hwx) as (t & Ht & Hrun).
  destruct (Hrun mc (FArr items :: stk)) as (st & Hst & Hset).
  destruct xs as [|y xs].
  - cbn [List.map join_commas]. rewrite Ht. cbn [or_else].
    rewrite run_app, Hst. cbn [run].
    rewrite (settled_step _ _ _ 93 Hset eq_refl). reflexivity.
  - change (join_commas (List.map ?f (x :: y :: xs)))
      with (f x ++ 44 :: join_commas (List.map f (y :: xs))).
    cbv beta. rewrite Ht. cbn [or_else].
    rewrite <- app_assoc, run_app, Hst. cbn [app run].
    rewrite (settled_step _ _ _ 44 Hset eq_refl).
    change (after_value (reread x) (FArr items :: stk) 44)
      with (Some (MValue false, FArr (items ++ [reread x]) :: stk)).
    cbv beta iota.
    rewrite (IH HF Hwf ltac:(congruence)), <- app_assoc. reflexivity.
Qed.

Lemma member_run mc acc stk k x t :
  (forall mc stk,
      exists st, run (MValue mc, stk) t = Some st /\ settled x stk st) ->
  exists st,
    run (MKey mc, FObj acc :: stk) (quote k ++ 58 :: t) = Some st
    /\ settled x (FMember acc k :: stk) st.
Proof.
  intros Hrun. unfold quote. cbn [app run step].
  replace (begin_key mc (FObj acc :: stk) 34)
    with (Some (MStr true [] SChars, FObj acc :: stk))
    by (destruct mc; reflexivity).
  rewrite <- app_assoc. cbn [app]. rewrite quote_run.
  cbn [end_string run step]. cbn [after_key is_ws N.eqb Pos.eqb orb].
  apply Hrun.
Qed.

Lemma reread_props_keys ps : List.map fst (reread_props ps) = List.map fst ps.
Proof.
  unfold reread_props. rewrite List.map_map. reflexivity.
Qed.

Lemma members_run ps :
  Forall (fun kv => is_json (snd kv) = true -> reads_back (snd kv)) ps ->
  forallb (fun kv => is_json (snd kv)) ps = true -> ps <> [] ->
  forall mc acc stk,
    keys_ordered (List.map fst (acc ++ ps)) = true ->
    run (MKey mc, FObj acc :: stk) (join_commas (members ps) ++ [125])
    = Some (MAfter (VObj (acc ++ reread_props ps)), stk).
Proof.
  induction ps as [|[k x] ps IH]; intros HF Hwf Hne mc acc stk Hord;
    [congruence|].
  apply Forall_cons in HF as [Hx HF].
  cbn [forallb snd] in Hwf. apply andb_true_iff in Hwf as [Hwx Hwf].
  destruct (Hx Hwx) as (t & Ht & Hrun). cbn [snd] in Ht, Hrun.
  destruct (member_run mc acc stk k (reread x) t Hrun) as (st & Hst & Hset).
  assert (Hput : set_prop k (reread x) acc = acc ++ [(k, reread x)]).
  { apply set_prop_append. rewrite map_app. rewrite map_app in Hord.
    apply (keys_ordered_app_l _ (List.map fst ps)).
    rewrite <- app_assoc. exact Hord. }
  assert (Hord' : keys_ordered
                    (List.map fst ((acc ++ [(k, reread x)]) ++ ps)) = true).
  { rewrite <- app_assoc. rewrite map_app in *. exact Hord. }
  cbn [reread_props List.map fst snd]. fold (reread_props ps).
  destruct ps as [|[k' y] ps].
  - cbn [members]. rewrite Ht. cbn [join_commas].
    rewrite run_app, Hst. cbn [run].
    rewrite (settled_step _ _ _ 125 Hset eq_refl).
    cbn [after_value is_ws N.eqb Pos.eqb orb]. rewrite Hput. reflexivity.
  - assert (Hy : exists ty, serialize y = Some ty).
    { apply Forall_cons in HF as [Hy _]. cbn [forallb snd] in Hwf.
      apply andb_true_iff in Hwf as [Hwy _].
      destruct (Hy Hwy) as (ty & Hty & _). eauto. }
    destruct Hy as (ty & Hty).
    assert (Hm : members ((k, x) :: (k', y) :: ps)
                 = (quote k ++ 58 :: t) :: members ((k', y) :: ps)).
    { cbn [members]. rewrite Ht. reflexivity. }
    rewrite Hm. assert (Hm' : exists m ms, members ((k', y) :: ps) = m :: ms).
    { cbn [members]. rewrite Hty. eauto. }
    destruct Hm' as (m & ms & Hm'). rewrite Hm'.
    change (join_commas ((quote k ++ 58 :: t) :: m :: ms))
      with ((quote k ++ 58 :: t) ++ 44 :: join_commas (m :: ms)).
    rewrite <- Hm', <- app_assoc, run_app, Hst. cbn [app run].
    rewrite (settled_step _ _ _ 44 Hset eq_refl).
    cbn [after_value is_ws N.eqb Pos.eqb orb]. rewrite Hput.
    rewrite (IH HF Hwf ltac:(congruence) _ _ _ Hord').
    rewrite <- app_assoc. reflexivity.
Qed.

Lemma is_json_reads_back v : is_json v = true -> reads_back v.
Proof.
  induction v as [| |b|x|s|t|xs IH|ps IH] using value_nested_ind;
    intros Hwf; try discriminate.
  - exists (js "null"). split; [reflexivity|]. intros mc stk.
    eexists. split; [|left; reflexivity]. destruct mc; reflexivity.
  - exists (js (if b then "true" else "false")).
    split; [destruct b; reflexivity|]. intros mc stk.
    eexists. split; [|left; reflexivity]. destruct mc, b; reflexivity.
  - unfold reads_back. cbn [serialize reread].
    destruct (number_text x) as [n|] eqn:Hn; cbn [or_else].
    + exists n. split; [reflexivity|]. intros mc stk.
      destruct (numeral_run mc stk n (number_text_numeral _ _ Hn))
        as (s & Hs & Hacc).
      exists (MNum s n, stk). split; [exact Hs|]. right. eauto.
    + exists (js "null"). split; [reflexivity|]. intros mc stk.
      eexists. split; [|left; reflexivity]. destruct mc; reflexivity.
  - exists (quote s). split; [reflexivity|]. intros mc stk.
    exists (MAfter (VStr s), stk). split; [|left; reflexivity].
    unfold quote. cbn [run step].
    replace (begin_value mc stk 34) with (Some (MStr false [] SChars, stk))
      by (destruct mc; reflexivity).
    rewrite quote_run. reflexivity.
  - eexists. split; [reflexivity|]. intros mc stk.
    exists (MAfter (VArr (List.map reread xs)), stk).
    split; [|left; reflexivity].
    cbn [run step].
    replace (begin_value mc stk 91) with (Some (MValue true, FArr [] :: stk))
      by (destruct mc; reflexivity).
    destruct xs as [|x xs]; [reflexivity|].
    apply (elements_run (x :: xs) IH Hwf ltac:(congruence) true [] stk).
  - cbn [is_json] in Hwf. apply andb_true_iff in Hwf as [Hord Hwf].
    exists (123 :: join_commas (members ps) ++ [125]).
    split; [reflexivity|]. intros mc stk.
    exists (MAfter (VObj (reread_props ps)), stk). split; [|left; reflexivity].
    cbn [run step].
    replace (begin_value mc stk 123) with (Some (MKey true, FObj [] :: stk))
      by (destruct mc; reflexivity).
    destruct ps as [|kv ps]; [reflexivity|].
    apply (members_run (kv :: ps) IH Hwf ltac:(congruence) true [] stk Hord).
Qed.

(** [JSON.parse(JSON.stringify(v))] for a JSON value [v]. *)
Theorem JSON_parse_stringify v :
  is_json v = true -> JSON_parse (JSON_stringify v) = Some (reread v).
Proof.
  intros Hwf. destruct (is_json_reads_back v Hwf) as (t & Ht & Hrun).
  unfold JSON_stringify, JSON_parse. rewrite Ht. cbn [or_else].
  destruct (Hrun false []) as (st & -> & Hset).
  apply settled_finish, Hset.
Qed.

(** *** Values that are read back as they were *)

Lemma stable_array xs : Forall stable xs -> List.map reread xs = xs.
Proof.
  induction 1 as [|x xs Hx _ IH]; cbn [List.map]; [reflexivity|].
  rewrite Hx, IH. reflexivity.
Qed.

Lemma stable_app xs ys :
  stable (VArr xs) -> stable (VArr ys) -> stable (VArr (xs ++ ys)).
Proof.
  unfold stable. cbn [reread]. intros [= Hx] [= Hy].
  rewrite map_app, Hx, Hy. reflexivity.
Qed.

Lemma stable_items xs : stable (VArr xs) <-> Forall stable xs.
Proof.
  unfold stable. cbn [reread]. split.
  - intros [= H]. induction xs as [|x xs IH]; constructor;
      cbn [List.map] in H; injection H as Hx Hxs; auto.
  - intros H. rewrite (stable_array _ H). reflexivity.
Qed.

Lemma reprinted_refl v : reprinted v v.
Proof. exists 0%nat. reflexivity. Qed.

Lemma reprinted_step v v' : reprinted v v' -> reprinted v (reread v').
Proof. intros [n ->]. exists (S n). reflexivity. Qed.

Lemma reprinted_stable v v' : stable v -> reprinted v v' -> v' = v.
Proof.
  intros Hv [n ->]. induction n as [|n IH]; [reflexivity|].
  change (Nat.iter (S n) reread v) with (reread (Nat.iter n reread v)).
  rewrite IH. exact Hv.
Qed.

Lemma Forall2_reprinted_refl xs : Forall2 reprinted xs xs.
Proof. induction xs; constructor; auto using reprinted_refl. Qed.

Lemma Forall2_reprinted_step xs ys :
  Forall2 reprinted xs ys -> Forall2 reprinted xs (List.map reread ys).
Proof.
  induction 1; cbn [List.map]; constructor; auto using reprinted_step.
Qed.

Lemma Forall2_reprinted_stable xs ys :
  Forall stable xs -> Forall2 reprinted xs ys -> ys = xs.
Proof.
  intros Hs H. induction H as [|x y xs ys Hxy _ IH]; [reflexivity|].
  apply Forall_cons in Hs as [Hx Hs].
  rewrite (reprinted_stable _ _ Hx Hxy), (IH Hs). reflexivity.
Qed.

(** ** Every parsed value is a JSON value *)

Lemma goes_before_asym k k0 :
  goes_before k k0 = true -> goes_before k0 k = false.
Proof.
  unfold goes_before.
  destruct (array_index k), (array_index k0); try congruence.
  intros H. reflect_in H. apply N.ltb_ge. lia.
Qed.

Lemma goes_before_chain k k0 k' :
  goes_before k k0 = true -> goes_before k' k0 = false ->
  goes_before k' k = false.
Proof.
  unfold goes_before.
  destruct (array_index k), (array_index k0), (array_index k');
    try congruence.
  intros H1 H2. reflect_in H1. reflect_in H2. apply N.ltb_ge. lia.
Qed.

Lemma keys_set_prop k v ps k' :
  In k' (List.map fst (set_prop k v ps)) ->
  k' = k \/ In k' (List.map fst ps).
Proof.
  induction ps as [|[k0 v0] ps IH]; cbn [set_prop List.map fst In].
  - intuition congruence.
  - destruct (bool_decide (k = k0)) eqn:E; [|destruct (goes_before k k0)];
      cbn [List.map fst In]; intuition congruence.
Qed.

Lemma set_prop_ordered k v ps :
  keys_ordered (List.map fst ps) = true ->
  keys_ordered (List.map fst (set_prop k v ps)) = true.
Proof.
  induction ps as [|[k0 v0] ps IH]; [reflexivity|].
  cbn [set_prop List.map fst keys_ordered].
  rewrite andb_true_iff. intros [Hk0 Hps].
  destruct (bool_decide (k = k0)) eqn:E.
  - apply bool_decide_eq_true in E as ->.
    cbn [List.map fst keys_ordered]. rewrite Hk0, Hps. reflexivity.
  - apply bool_decide_eq_false in E.
    destruct (goes_before k k0) eqn:G.
    + cbn [List.map fst keys_ordered forallb].
      rewrite (goes_before_asym _ _ G), Hk0, Hps, !andb_true_r.
      rewrite bool_decide_eq_false_2 by congruence. cbn [negb andb].
      apply forallb_forall. intros k' Hin.
      rewrite forallb_forall in Hk0. specialize (Hk0 k' Hin).
      reflect_in Hk0. destruct Hk0 as [_ Hgb].
      rewrite (goes_before_chain _ _ _ G Hgb), andb_true_r.
      apply negb_true_iff, bool_decide_eq_false_2. intros ->. congruence.
    + cbn [List.map fst keys_ordered]. rewrite (IH Hps), andb_true_r.
      apply forallb_forall. intros k' Hin.
      apply keys_set_prop in Hin as [->|Hin].
      * rewrite G, bool_decide_eq_false_2 by congruence. reflexivity.
      * rewrite forallb_forall in Hk0. exact (Hk0 k' Hin).
Qed.

Lemma set_prop_values k v ps :
  is_json v = true ->
  forallb (fun kv => is_json (snd kv)) ps = true ->
  forallb (fun kv => is_json (snd kv)) (set_prop k v ps) = true.
Proof.
  intros Hv. induction ps as [|[k0 v0] ps IH]; cbn [set_prop forallb snd].
  - rewrite Hv. reflexivity.
  - rewrite andb_true_iff. intros [H0 Hps].
    destruct (bool_decide (k = k0)); [|destruct (goes_before k k0)];
      cbn [forallb snd]; rewrite ?Hv, ?H0, ?Hps, ?IH; auto.
Qed.

Lemma set_prop_ok k v ps :
  is_json v = true -> props_ok ps = true -> props_ok (set_prop k v ps) = true.
Proof.
  unfold props_ok. rewrite !andb_true_iff. intros Hv [Hord Hvals].
  split; [apply set_prop_ordered | apply set_prop_values]; assumption.
Qed.

Lemma num_run_snoc l : forall s s' c s'',
  num_run s l = Some s' -> num_step s' c = Some s'' ->
  num_run s (l ++ [c]) = Some s''.
Proof.
  induction l as [|d l IH]; intros s s' c s'' H1 H2; simpl in *.
  - injection H1 as ->. rewrite H2. reflexivity.
  - destruct (num_step s d); [eauto | discriminate].
Qed.

Lemma num_scan_snoc l s c s' :
  num_scan l = Some s -> num_step s c = Some s' ->
  num_scan (l ++ [c]) = Some s'.
Proof.
  destruct l as [|d l]; [discriminate|]. cbn [num_scan app].
  destruct (num_start d); [|discriminate]. apply num_run_snoc.
Qed.

Lemma forallb_snoc {A} (f : A -> bool) l x :
  forallb f l = true -> f x = true -> forallb f (l ++ [x]) = true.
Proof.
  intros Hl Hx. rewrite forallb_app, Hl. cbn. rewrite Hx. reflexivity.
Qed.

Lemma after_value_ok v stk c st' :
  is_json v = true -> forallb frame_ok stk = true ->
  after_value v stk c = Some st' -> state_ok st'.
Proof.
  intros Hv Hstk. unfold after_value.
  destruct (is_ws c); [intros [= <-]; split; assumption|].
  destruct stk as [|[items|props|props key] stk]; try discriminate;
    cbn [forallb frame_ok] in Hstk; apply andb_true_iff in Hstk as [Hf Hstk].
  - destruct (c =? 44); [|destruct (c =? 93)]; intros [= <-]; split;
      cbn [fst snd mode_ok forallb frame_ok is_json];
      rewrite ?Hstk, ?(forallb_snoc _ _ _ Hf Hv); auto.
  - destruct (c =? 44); [|destruct (c =? 125)]; intros [= <-]; split;
      cbn [fst snd mode_ok forallb frame_ok is_json];
      rewrite ?Hstk; try (rewrite (set_prop_ok _ _ _ Hv Hf)); auto;
      apply (set_prop_ok _ _ _ Hv Hf).
Qed.

Lemma step_ok st c st' : state_ok st -> step st c = Some st' -> state_ok st'.
Proof.
  destruct st as [m stk]. intros [Hm Hstk]. cbn [fst snd] in Hm, Hstk.
  destruct m as [mc|mc|key|v|rest v|s acc|k acc s]; cbn [step mode_ok] in *.
  - unfold begin_value.
    repeat match goal with
           | |- context [if ?b then _ else _] => destruct b eqn:?
           end;
      try (intros [= <-]; split; cbn [fst snd mode_ok forallb frame_ok];
           rewrite ?Hstk; auto; fail).
    + destruct stk as [|[items| |] stk]; try discriminate.
      intros [= <-]. cbn [forallb frame_ok] in Hstk.
      apply andb_true_iff in Hstk as [Hf Hstk]. split; assumption.
    + destruct (num_start c) eqn:Hs; [|discriminate].
      intros [= <-]. split; [|assumption]. cbn [fst mode_ok num_scan].
      rewrite Hs. reflexivity.
  - unfold begin_key.
    repeat match goal with
           | |- context [if ?b then _ else _] => destruct b eqn:?
           end;
      try discriminate;
      try (intros [= <-]; split; cbn [fst snd mode_ok forallb frame_ok];
           rewrite ?Hstk; auto; fail).
    destruct stk as [|[|props|] stk]; try discriminate.
    intros [= <-]. cbn [forallb frame_ok] in Hstk.
    apply andb_true_iff in Hstk as [Hf Hstk]. split; assumption.
  - unfold after_key.
    destruct (is_ws c); [intros [= <-]; split; auto|].
    destruct (c =? 58); [|discriminate].
    destruct stk as [|[|props|] stk]; try discriminate.
    intros [= <-]. split; [exact I|exact Hstk].
  - apply after_value_ok; assumption.
  - destruct rest as [|c' rest]; [discriminate|].
    destruct (c =? c'); [|discriminate].
    destruct rest; intros [= <-]; split; assumption.
  - destruct (num_step s c) as [s1|] eqn:Hs.
    + intros [= <-]. split; [|assumption].
      apply (num_scan_snoc _ _ _ _ Hm Hs).
    + destruct (num_accepting s) eqn:Hacc; [|discriminate].
      apply after_value_ok; [reflexivity|assumption].
  - unfold str_step, end_string.
    destruct s as [| |n h];
      repeat match goal with
             | |- context [if ?b then _ else _] => destruct b eqn:?
             | |- context [match ?o with Some _ => _ | None => _ end] =>
                 destruct o eqn:?
             end;
      try discriminate; intros [= <-]; split; auto; reflexivity.
Qed.

Lemma run_ok text : forall st st',
  state_ok st -> run st text = Some st' -> state_ok st'.
Proof.
  induction text as [|c text IH]; intros st st' Hst; cbn [run].
  - intros [= <-]. assumption.
  - destruct (step st c) as [st1|] eqn:Hstep; [|discriminate].
    apply IH. exact (step_ok _ _ _ Hst Hstep).
Qed.

Theorem JSON_parse_is_json text v :
  JSON_parse text = Some v -> is_json v = true.
Proof.
  unfold JSON_parse.
  destruct (run (MValue false, []) text) as [[m stk]|] eqn:Hrun;
    [|discriminate].
  assert (Hok : state_ok (m, stk)).
  { apply (run_ok text (MValue false, [])); [|exact Hrun].
    split; [exact I|reflexivity]. }
  destruct Hok as [Hm _]. cbn [fst] in Hm.
  destruct m; cbn [finish]; try discriminate;
    destruct stk; try discriminate.
  - intros [= <-]. exact Hm.
  - destruct (num_accepting s) eqn:Hacc; [|discriminate].
    intros [= <-]. reflexivity.
Qed.

(** * The upload simulator *)

(** ** Picking files *)

Lemma newFiles_Forall (P : UploadingFile -> Prop) :
  (forall now f, P (newFile now f)) ->
  forall files now, Forall P (newFiles now files).1.
Proof.
  intros HP. induction files as [|[f dt] files IH]; intros now;
    cbn [newFiles]; [constructor|].
  specialize (IH (now + Z.of_N dt)%Z).
  destruct (newFiles (now + Z.of_N dt)%Z files) as [entries last].
  cbn [fst] in *. constructor; auto.
Qed.

Lemma newFiles_files files : forall now,
  List.map file (newFiles now files).1 = List.map fst files.
Proof.
  induction files as [|[f dt] files IH]; intros now; cbn [newFiles];
    [reflexivity|].
  specialize (IH (now + Z.of_N dt)%Z).
  destruct (newFiles (now + Z.of_N dt)%Z files) as [entries last].
  cbn [fst List.map file newFile] in *. rewrite IH. reflexivity.
Qed.

Lemma newFiles_length files now :
  List.length (newFiles now files).1 = List.length files.
Proof.
  rewrite <- (length_map file), newFiles_files, length_map. reflexivity.
Qed.

Lemma newFiles_clock files : forall now, (now <= (newFiles now files).2)%Z.
Proof.
  induction files as [|[f dt] files IH]; intros now; cbn [newFiles];
    [cbn; lia|].
  specialize (IH (now + Z.of_N dt)%Z).
  destruct (newFiles (now + Z.of_N dt)%Z files) as [entries last].
  cbn [snd] in *. lia.
Qed.

Lemma handleFileSelect_cases files w :
  (handleFileSelect files w = w /\ (files = None \/ files = Some []))
  \/ exists f fs,
      files = Some (f :: fs)
      /\ handleFileSelect files w
         = {| uploadingFiles :=
                uploadingFiles w ++ (newFiles (clock w) (f :: fs)).1;
              localStorage := localStorage w;
              uploads :=
                uploads w
                ++ List.map
                     (fun g =>
                        simulateFileUpload (newFiles (clock w) (f :: fs)).2
                          (id g) (file g))
                     (newFiles (clock w) (f :: fs)).1;
              timeouts := timeouts w;
              clock := (newFiles (clock w) (f :: fs)).2;
              toasts := toasts w |}.
Proof.
  destruct files as [[|f fs]|]; [left; auto| |left; auto].
  right. exists f, fs. split; [reflexivity|]. unfold handleFileSelect.
  destruct (newFiles (clock w) (f :: fs)) as [entries last]. reflexivity.
Qed.

(** ** Aggregate progress and the "all uploaded" flag *)

Lemma fold_left_progress l : forall a,
  (List.fold_left (fun sum file => sum + progress file) l a
   == a + spec_sum (List.map progress l))%Q.
Proof.
  induction l as [|f l IH]; intros a; cbn [List.fold_left List.map spec_sum].
  - ring.
  - rewrite IH. ring.
Qed.

(** In the exact arithmetic of the model, [getTotalProgress] is 0 on the
    empty list and otherwise the sum of the progress values divided by
    their number. *)
Lemma exact_mean :
  getTotalProgress [] = 0%Q
  /\ forall f l,
      (getTotalProgress (f :: l) == spec_mean (List.map progress (f :: l)))%Q.
Proof.
  split; [reflexivity|]. intros f l.
  unfold getTotalProgress, spec_mean. cbn [List.length Nat.eqb].
  rewrite fold_left_progress, length_map. cbn [List.length].
  rewrite Qplus_0_l. reflexivity.
Qed.





(** Rounding at line 44: a positive draw can leave the progress as it
    is, and a tick can reach 100 although the exact sum is below 100. *)
Lemma rounding_at_line_44 :
  line_44 (number_of_N 75) (S754_finite false 1 (-53)) = number_of_N 75
  /\ line_44 (number_of_N 94) (number_of_numeral (js "0.6")) = number_of_N 100
  /\ (Q_of_number (number_of_N 94)
      + Q_of_number (number_of_numeral (js "0.6")) * 10 < 100)%Q.
Proof. repeat split. Qed.

Lemma forallb_complete l :
  forallb (fun file => match status file with complete => true | _ => false end)
    l = true
  <-> Forall (fun f => status f = complete) l.
Proof.
  rewrite forallb_forall, Forall_forall. setoid_rewrite list_elem_of_In.
  split; intros H f Hf; specialize (H f Hf); destruct (status f);
    congruence.
Qed.




(** ** Progress ticks *)

Lemma random_draw_spec r : random_draw r = true <-> (0 <= r /\ r < 1)%Q.
Proof.
  unfold random_draw. rewrite andb_true_iff, negb_true_iff, Qle_bool_iff.
  split; intros [H0 H1]; split; try assumption.
  - apply Qnot_le_lt. intros H. apply Qle_bool_iff in H. congruence.
  - destruct (Qle_bool 1 r) eqn:E; [|reflexivity].
    apply Qle_bool_iff in E. lra.
Qed.

Lemma tick_uploads r u w : uploads (tick r u w).1.2 = uploads w.
Proof.
  unfold tick. destruct (Qle_bool 100 _); [|reflexivity].
  destruct (saveUploadedFile _ _); reflexivity.
Qed.

Lemma tick_clock r u w : clock (tick r u w).1.2 = clock w.
Proof.
  unfold tick. destruct (Qle_bool 100 _); [|reflexivity].
  destruct (saveUploadedFile _ _); reflexivity.
Qed.

Lemma cleared_interval_stays e w w' i u :
  uploads w !! i = Some u -> interval u = None ->
  react e w = Some w' -> uploads w' !! i = Some u.
Proof.
  intros Hi Hnone. destruct e as [files|i' r|j|fid|dt]; cbn [react].
  - intros [= <-].
    destruct (handleFileSelect_cases files w)
      as [[-> _]|(f0 & fs0 & _ & ->)]; [exact Hi|].
    cbn [uploads]. apply lookup_app_l_Some. assumption.
  - unfold fire_interval.
    destruct (uploads w !! i') as [u0|] eqn:Hi'; [|discriminate].
    destruct (interval u0) as [due|] eqn:Hdue; [|discriminate].
    destruct (_ && _); [|discriminate].
    pose proof (tick_uploads r u0 w) as Hup.
    destruct (tick r u0 w) as [[u' w1] c]. cbn [fst snd] in Hup.
    intros [= <-]. cbn [put_upload uploads]. rewrite Hup.
    rewrite list_lookup_insert_ne; [assumption|].
    intros ->. congruence.
  - unfold fire_timeout.
    destruct (timeouts w !! j) as [[due fid]|]; [|discriminate].
    destruct (due <=? clock w)%Z; [|discriminate].
    intros [= <-]. assumption.
  - intros [= <-]. assumption.
  - unfold pass_time. destruct (0 <=? dt)%Z; [|discriminate].
    intros [= <-]. assumption.
Qed.

Lemma mark_complete_spec fid f :
  id (mark_complete fid f) = id f
  /\ file (mark_complete fid f) = file f
  /\ (status f = complete -> status (mark_complete fid f) = complete)
  /\ (id f = fid ->
      status (mark_complete fid f) = complete
      /\ progress (mark_complete fid f) = 100%Q)
  /\ (id f <> fid -> mark_complete fid f = f).
Proof.
  unfold mark_complete, same_id.
  destruct (bool_decide (id f = fid)) eqn:E; cbn [id file status progress].
  - apply bool_decide_eq_true in E. repeat split; auto; contradiction.
  - apply bool_decide_eq_false in E. repeat split; auto; contradiction.
Qed.

Lemma set_progress_spec fid p f :
  id (set_progress fid p f) = id f
  /\ file (set_progress fid p f) = file f
  /\ status (set_progress fid p f) = status f
  /\ (id f = fid -> progress (set_progress fid p f) = p)
  /\ (id f <> fid -> set_progress fid p f = f).
Proof.
  unfold set_progress, same_id.
  destruct (bool_decide (id f = fid)) eqn:E; cbn [id file status progress].
  - apply bool_decide_eq_true in E. repeat split; auto; contradiction.
  - apply bool_decide_eq_false in E. repeat split; auto; contradiction.
Qed.

Lemma set_progress_mark_complete fid f :
  set_progress fid 100%Q (mark_complete fid f) = mark_complete fid f.
Proof.
  unfold set_progress, mark_complete, same_id.
  destruct (bool_decide (id f = fid)) eqn:E; cbn [id]; rewrite E; reflexivity.
Qed.

(** What a tick does to the list: every entry stays in its place, with
    its identifier and its file; an entry with another identifier than
    the upload's is not changed, and a complete entry stays complete. *)
Lemma tick_files r u w :
  exists g,
    uploadingFiles (tick r u w).1.2 = List.map g (uploadingFiles w)
    /\ forall f, id (g f) = id f /\ file (g f) = file f
                 /\ (status f = complete -> status (g f) = complete)
                 /\ (id f = fileId u ->
                     progress (g f) = upload_progress (tick r u w).1.1)
                 /\ (id f <> fileId u -> g f = f).
Proof.
  unfold tick. destruct (Qle_bool 100 _).
  - exists (mark_complete (fileId u)). split.
    + destruct (saveUploadedFile _ _); cbn [fst snd uploadingFiles];
        [|reflexivity].
      rewrite List.map_map. apply List.map_ext.
      intros f. apply set_progress_mark_complete.
    + intros f. destruct (mark_complete_spec (fileId u) f) as (?&?&?&H&?).
      repeat split; auto.
      intros Hid. destruct (saveUploadedFile _ _); apply H, Hid.
  - eexists. split; [reflexivity|].
    intros f.
    destruct (set_progress_spec (fileId u)
                (upload_progress u + r * 10)%Q f) as (?&?&E&?&?).
    rewrite E. cbn [fst snd upload_progress]. auto.
Qed.

Lemma slack_positive : (0 < slack)%Q.
Proof. reflexivity. Qed.

(** C6, as the code has it.  A tick adds [Math.random() * 10], a value in
    [0, 10), to the progress of the upload.  The progress never decreases
    and stays the same when the draw is 0; the new progress is the sum, to
    within the rounding of the two operations ([slack]), or exactly 100
    when the sum has reached 100, in which case the interval is cleared.
    While the sum stays below 100 (by more than the rounding) the progress
    stays below 100 and the interval is armed again 200 ms later.  A tick
    keeps every entry of the list in its place; the entries that carry the
    identifier of the upload show the new progress, the others are not
    changed.  An upload whose interval is cleared takes no further tick and
    is not changed by any later event.  The progress shown by an entry is
    that of the last upload that ticked with its identifier: when two
    uploads share an identifier an entry can go from 100 back to 5. *)
Theorem progress_ticks :
  (forall r u w,
      random_draw r = true -> (upload_progress u < 100)%Q ->
      let u' := (tick r u w).1.1 in
      let w' := (tick r u w).1.2 in
      (upload_progress u <= upload_progress u')%Q
      /\ ((r == 0)%Q -> (upload_progress u' == upload_progress u)%Q)
      /\ (upload_progress u' <= upload_progress u + r * 10 + slack)%Q
      /\ ((upload_progress u + r * 10 < 100)%Q ->
          (upload_progress u + r * 10 - slack <= upload_progress u')%Q)
      /\ ((100 <= upload_progress u + r * 10)%Q ->
          upload_progress u' = 100%Q /\ interval u' = None)
      /\ ((upload_progress u + r * 10 <= 100 - slack)%Q ->
          (upload_progress u' < 100)%Q
          /\ interval u' = Some (clock w + 200)%Z)
      /\ ((upload_progress u' = 100%Q /\ interval u' = None)
          \/ ((upload_progress u' < 100)%Q
              /\ interval u' = Some (clock w + 200)%Z))
      /\ exists g,
          uploadingFiles w' = List.map g (uploadingFiles w)
          /\ forall f,
              id (g f) = id f /\ file (g f) = file f
              /\ (id f = fileId u -> progress (g f) = upload_progress u')
              /\ (id f <> fileId u -> g f = f))
  /\ (forall i u w,
         uploads w !! i = Some u -> interval u = None ->
         (forall r, fire_interval i r w = None)
         /\ (forall es w', react_all es w = Some w' ->
                           uploads w' !! i = Some u))
  /\ (exists w w',
         react (IntervalFires 1 (1 # 2)) w = Some w'
         /\ List.map (fun f => (id f, progress f)) (uploadingFiles w)
            = [(js "a.txt-0", 100%Q)]
         /\ List.map fileId (uploads w) = [js "a.txt-0"; js "a.txt-0"]
         /\ List.map (fun f => (id f, progress f)) (uploadingFiles w')
            = [(js "a.txt-0", (0 + (1 # 2) * 10)%Q)]).
Proof.
  split; [|split].
  - intros r u w Hr Hlt. apply random_draw_spec in Hr as [Hr0 Hr1].
    pose proof slack_positive as Hs.
    assert (Hfiles :
              exists g,
                uploadingFiles (tick r u w).1.2
                = List.map g (uploadingFiles w)
                /\ forall f,
                    id (g f) = id f /\ file (g f) = file f
                    /\ (id f = fileId u ->
                        progress (g f) = upload_progress (tick r u w).1.1)
                    /\ (id f <> fileId u -> g f = f)).
    { destruct (tick_files r u w) as (g & Hg & Hspec). exists g.
      split; [exact Hg|]. intros f.
      destruct (Hspec f) as (?&?&?&?&?). auto. }
    cbv zeta. revert Hfiles. unfold tick.
    destruct (Qle_bool 100 (upload_progress u + r * 10)) eqn:Hreach.
    + apply Qle_bool_iff in Hreach.
      destruct (saveUploadedFile _ _) as [ls'|e];
        cbn [fst snd upload_progress interval uploadingFiles];
        intros Hfiles;
        (split; [lra|]); (split; [intros; lra|]); (split; [lra|]);
        (split; [intros; lra|]);
        (split; [intros; split; reflexivity|]);
        (split; [intros; lra|]);
        (split; [left; split; reflexivity|]); exact Hfiles.
    + assert (Hnot : ~ (100 <= upload_progress u + r * 10)%Q).
      { intros H. apply Qle_bool_iff in H. congruence. }
      cbn [fst snd upload_progress interval uploadingFiles].
      intros Hfiles.
      split; [lra|]. split; [intros; lra|]. split; [lra|].
      split; [intros; lra|]. split; [intros; contradiction|].
      split; [intros; split; [lra|reflexivity]|].
      split; [right; split; [lra|reflexivity]|]. exact Hfiles.
  - intros i u w Hi Hnone. split.
    + intros r. unfold fire_interval. rewrite Hi, Hnone. reflexivity.
    + intros es. revert w Hi. induction es as [|e es IH]; intros w Hi w'.
      * intros [= <-]. assumption.
      * cbn [react_all]. destruct (react e w) as [w1|] eqn:He; [|discriminate].
        apply IH. exact (cleared_interval_stays _ _ _ _ _ Hi Hnone He).
  - exists {| uploadingFiles := [mark_complete (js "a.txt-0") (newFile 0 a_txt)];
              localStorage := empty_store;
              uploads :=
                [ {| fileId := js "a.txt-0"; upload_file := a_txt;
                     upload_progress := 100%Q; interval := None |};
                  simulateFileUpload 0 (js "a.txt-0") a_txt ];
              timeouts := []; clock := 200; toasts := 0 |}.
    eexists. split; [vm_compute; reflexivity|]. repeat split.
Qed.

(** C6, as the claim states it, fails: when [Math.random()] returns 0 the
    tick leaves the progress where it was. *)
Lemma zero_draw_keeps_progress :
  let u := simulateFileUpload 0 (js "a.txt-0") a_txt in
  let w := {| uploadingFiles := [newFile 0 a_txt]; localStorage := empty_store;
              uploads := [u]; timeouts := []; clock := 200; toasts := 0 |} in
  random_draw 0%Q = true
  /\ fire_interval 0 0%Q w <> None
  /\ ~ (upload_progress u < upload_progress (tick 0%Q u w).1.1)%Q.
Proof.
  cbv zeta. split; [reflexivity|]. split; [discriminate|].
  vm_compute. intros H. discriminate H.
Qed.

Lemma progress_ticks_witness :
  let u := simulateFileUpload 0 (js "a.txt-0") a_txt in
  let w := {| uploadingFiles := [newFile 0 a_txt]; localStorage := empty_store;
              uploads := [u]; timeouts := []; clock := 200; toasts := 0 |} in
  (upload_progress u + (1 # 2) * 10 - slack
   <= upload_progress (tick (1 # 2) u w).1.1)%Q.
Proof.
  cbv zeta.
  refine (proj1 (proj2 (proj2 (proj2
            (proj1 progress_ticks (1 # 2)%Q _ _ _ _)))) _);
    [reflexivity | reflexivity | reflexivity].
Defined.

(** * The login handler *)

Import Login.

Lemma setItem_cases key text ls :
  (usage (<[key := text]> (texts ls)) <= capacity ls
   /\ setItem key text ls
      = Normal {| texts := <[key := text]> (texts ls);
                  capacity := capacity ls |})
  \/ (capacity ls < usage (<[key := text]> (texts ls))
      /\ setItem key text ls = Throw QuotaExceededError).
Proof.
  unfold setItem.
  destruct (N.leb_spec (usage (<[key := text]> (texts ls))) (capacity ls));
    auto.
Qed.

Lemma setItem_throw key text ls e :
  setItem key text ls = Throw e -> e = QuotaExceededError.
Proof.
  destruct (setItem_cases key text ls) as [[_ ->]|[_ ->]]; congruence.
Qed.

Lemma setItem_spec key text ls ls' :
  setItem key text ls = Normal ls' ->
  getItem key ls' = Some text
  /\ (forall key', key' <> key -> getItem key' ls' = getItem key' ls)
  /\ capacity ls' = capacity ls.
Proof.
  destruct (setItem_cases key text ls) as [[_ ->]|[_ ->]]; [|discriminate].
  intros [= <-]. unfold getItem. cbn [texts capacity].
  split; [apply lookup_insert_eq|]. split; [|reflexivity].
  intros key' Hne. apply lookup_insert_ne. congruence.
Qed.

Lemma stringify_object ps : exists rest, JSON_stringify (VObj ps) = 123 :: rest.
Proof. eexists. reflexivity. Qed.

Lemma stringify_array xs : exists rest, JSON_stringify (VArr xs) = 91 :: rest.
Proof. eexists. reflexivity. Qed.

Lemma or_text_nonempty c t fallback : or_text (Some (c :: t)) fallback = c :: t.
Proof. reflexivity. Qed.

Lemma get_string v k s :
  get v k = Normal (VStr s) ->
  exists ps, v = VObj ps /\ lookup_prop k ps = VStr s.
Proof.
  destruct v; cbn [get]; try discriminate. intros [= H]. eauto.
Qed.

Lemma differs_from_string_false v s :
  differs_from_string v s = false <-> v = VStr s.
Proof.
  destruct v; cbn [differs_from_string]; try (split; congruence).
  rewrite negb_false_iff, bool_decide_eq_true. split; congruence.
Qed.

(** The test of line 27 never throws: [stored.email] is only read when
    [stored] is truthy.  It lets through exactly the objects whose [email]
    and [password] are the submitted strings. *)
Lemma rejects_spec stored email password :
  (rejects stored email password = Normal false
   /\ exists ps, stored = VObj ps
                 /\ lookup_prop (js "email") ps = VStr email
                 /\ lookup_prop (js "password") ps = VStr password)
  \/ (rejects stored email password = Normal true
      /\ (get stored (js "email") <> Normal (VStr email)
          \/ get stored (js "password") <> Normal (VStr password))).
Proof.
  unfold rejects.
  destruct stored as [| |b|x|s|t|xs|ps];
    try (right; split; [cbn; repeat case_match; reflexivity
                       |left; cbn; discriminate]; fail).
  cbn [truthy negb get].
  destruct (differs_from_string (lookup_prop (js "email") ps) email) eqn:E1.
  - right. split; [reflexivity|]. left. intros [= H].
    apply differs_from_string_false in H. congruence.
  - destruct (differs_from_string (lookup_prop (js "password") ps) password)
      eqn:E2.
    + right. split; [reflexivity|]. right. intros [= H].
      apply differs_from_string_false in H. congruence.
    + left. split; [reflexivity|]. exists ps.
      apply differs_from_string_false in E1, E2. auto.
Qed.

Lemma is_empty_false s : is_empty s = false <-> s <> [].
Proof. destruct s; cbn; split; congruence. Qed.

Lemma filled_in email password :
  is_empty email || is_empty password = false
  <-> email <> [] /\ password <> [].
Proof. rewrite orb_false_iff, !is_empty_false. reflexivity. Qed.

(** The handler, case by case. *)
Lemma handleLogin_cases email password ls :
  (is_empty email || is_empty password = true
   /\ handleLogin email password ls = (Normal FillInAllFields, ls))
  \/ (is_empty email || is_empty password = false
      /\ ((readUser ls = Throw SyntaxError
           /\ handleLogin email password ls = (Throw SyntaxError, ls))
          \/ (exists stored,
                 readUser ls = Normal stored
                 /\ rejects stored email password = Normal true
                 /\ handleLogin email password ls
                    = (Normal InvalidCredentials, ls))
          \/ (exists ps,
                 readUser ls = Normal (VObj ps)
                 /\ lookup_prop (js "email") ps = VStr email
                 /\ lookup_prop (js "password") ps = VStr password
                 /\ ((exists ls',
                         setItem (js "userData")
                           (JSON_stringify
                              (userData (lookup_prop (js "name") ps)
                                 (VStr email)))
                           ls = Normal ls'
                         /\ handleLogin email password ls
                            = (Normal LoggedIn, ls'))
                     \/ (setItem (js "userData")
                           (JSON_stringify
                              (userData (lookup_prop (js "name") ps)
                                 (VStr email)))
                           ls = Throw QuotaExceededError
                         /\ handleLogin email password ls
                            = (Throw QuotaExceededError, ls)))))).
Proof.
  unfold handleLogin.
  destruct (is_empty email || is_empty password); [left; auto|].
  right. split; [reflexivity|].
  destruct (readUser ls) as [stored|e] eqn:Hread.
  - right.
    destruct (rejects_spec stored email password)
      as [(Hrej & ps & -> & He & Hp)|(Hrej & _)]; rewrite Hrej.
    + right. exists ps. cbn [get]. rewrite He.
      split; [reflexivity|]. split; [reflexivity|]. split; [exact Hp|].
      destruct (setItem _ _ ls) as [ls'|e] eqn:Hset.
      * left. exists ls'. auto.
      * right. apply setItem_throw in Hset as ->. auto.
    + left. exists stored. auto.
  - left. unfold readUser in Hread.
    destruct (JSON_parse _); [discriminate|]. injection Hread as <-. auto.
Qed.

Lemma handleLogin_mismatch email password ls stored :
  email <> [] -> password <> [] ->
  readUser ls = Normal stored ->
  get stored (js "email") <> Normal (VStr email)
  \/ get stored (js "password") <> Normal (VStr password) ->
  handleLogin email password ls = (Normal InvalidCredentials, ls).
Proof.
  intros H1 H2 Hread Hdiff.
  destruct (handleLogin_cases email password ls)
    as [[He _]|[_ [[Hthrow _]|[(st & Hst & _ & H)|(ps & Hps & Hem & Hpw & _)]]]].
  - apply orb_true_iff in He as [He|He]; destruct email, password;
      cbn in He; congruence.
  - congruence.
  - exact H.
  - rewrite Hread in Hps. injection Hps as ->. cbn [get] in Hdiff.
    rewrite Hem, Hpw in Hdiff. tauto.
Qed.

Lemma handleLogin_failure email password ls :
  (handleLogin email password ls).1 <> Normal LoggedIn ->
  (handleLogin email password ls).2 = ls.
Proof.
  destruct (handleLogin_cases email password ls)
    as [[_ ->]|[_ [[_ ->]|[(st & _ & _ & ->)
                          |(ps & _ & _ & _ & [(ls1 & _ & ->)|[_ ->]])]]]];
    cbn [fst snd]; congruence.
Qed.

(** C5. A login attempt that does not succeed writes nothing.  An empty
    email or password gives the "fill in all fields" signal; with both
    filled in, an absent record, or a record whose email or password is
    not the submitted one, gives the "invalid credentials" signal. *)
Theorem failed_login_leaves_store email password ls :
  ((handleLogin email password ls).1 <> Normal LoggedIn ->
   (handleLogin email password ls).2 = ls)
  /\ (email = [] \/ password = [] ->
      handleLogin email password ls = (Normal FillInAllFields, ls))
  /\ (email <> [] -> password <> [] ->
      getItem (js "userData") ls = None ->
      handleLogin email password ls = (Normal InvalidCredentials, ls))
  /\ (email <> [] -> password <> [] ->
      forall stored,
        readUser ls = Normal stored ->
        get stored (js "email") <> Normal (VStr email)
        \/ get stored (js "password") <> Normal (VStr password) ->
        handleLogin email password ls = (Normal InvalidCredentials, ls)).
Proof.
  split; [|split; [|split]].
  - apply handleLogin_failure.
  - intros Hempty. unfold handleLogin.
    replace (is_empty email || is_empty password) with true; [reflexivity|].
    destruct Hempty as [-> | ->]; [reflexivity|].
    rewrite orb_true_r. reflexivity.
  - intros H1 H2 Habsent.
    apply (handleLogin_mismatch _ _ _ (VObj []) H1 H2).
    + unfold readUser. rewrite Habsent. reflexivity.
    + left. discriminate.
  - intros H1 H2 stored. apply handleLogin_mismatch; assumption.
Qed.

Lemma failed_login_leaves_store_witness :
  handleLogin (js "ann@x.io") (js "wrong") ann_signed_up
  = (Normal InvalidCredentials, ann_signed_up).
Proof.
  refine (proj2 (proj2 (proj2
            (failed_login_leaves_store (js "ann@x.io") (js "wrong")
               ann_signed_up))) _ _ _ _ _).
  - discriminate.
  - discriminate.
  - vm_compute. reflexivity.
  - right. vm_compute. discriminate.
Defined.

Lemma readUser_is_json ls v : readUser ls = Normal v -> is_json v = true.
Proof.
  unfold readUser. destruct (JSON_parse _) as [v'|] eqn:H; [|discriminate].
  intros [= <-]. exact (JSON_parse_is_json _ _ H).
Qed.

Lemma lookup_prop_is_json k ps :
  forallb (fun kv => is_json (snd kv)) ps = true ->
  lookup_prop k ps = VUndefined \/ is_json (lookup_prop k ps) = true.
Proof.
  induction ps as [|[k0 v0] ps IH]; cbn [lookup_prop forallb snd];
    [auto|].
  rewrite andb_true_iff. intros [H0 Hps].
  destruct (bool_decide (k = k0)); auto.
Qed.

Lemma readUser_after_write t ls ls' :
  setItem (js "userData") (JSON_stringify (VObj t)) ls = Normal ls' ->
  readUser ls'
  = match JSON_parse (JSON_stringify (VObj t)) with
    | Some v => Normal v
    | None => Throw SyntaxError
    end.
Proof.
  intros Hset. apply setItem_spec in Hset as (Hget & _).
  unfold readUser. rewrite Hget.
  destruct (stringify_object t) as (rest & ->). reflexivity.
Qed.

Lemma reread_is_defined v : is_json v = true -> reread v <> VUndefined.
Proof.
  destruct v; try discriminate; cbn [reread]; intros _; try discriminate.
  destruct (number_text x); discriminate.
Qed.

(** The record written at line 40 is read back as [persisted_user], with
    the name as it is printed and read. *)
Lemma written_user_reads_back stored_name email :
  stored_name = VUndefined \/ is_json stored_name = true ->
  JSON_parse (JSON_stringify (userData stored_name (VStr email)))
  = Some (persisted_user (reread stored_name) (VStr email)).
Proof.
  intros [->|Hj].
  - change (JSON_stringify (userData VUndefined (VStr email)))
      with (JSON_stringify (persisted_user VUndefined (VStr email))).
    rewrite JSON_parse_stringify by reflexivity. reflexivity.
  - rewrite JSON_parse_stringify.
    + pose proof (reread_is_defined _ Hj) as Hdef.
      unfold persisted_user, userData. cbn [reread List.map fst snd].
      destruct (reread stored_name); try reflexivity. congruence.
    + unfold userData. cbn [is_json forallb snd List.map fst].
      rewrite Hj. reflexivity.
Qed.

Lemma login_record_reads_back ps email ls ls' :
  readUser ls = Normal (VObj ps) ->
  setItem (js "userData")
    (JSON_stringify (userData (lookup_prop (js "name") ps) (VStr email))) ls
  = Normal ls' ->
  readUser ls'
  = Normal (persisted_user (reread (lookup_prop (js "name") ps)) (VStr email)).
Proof.
  intros Hread Hset. unfold userData in Hset.
  rewrite (readUser_after_write _ _ _ Hset).
  fold (userData (lookup_prop (js "name") ps) (VStr email)).
  rewrite written_user_reads_back; [reflexivity|].
  apply lookup_prop_is_json.
  apply readUser_is_json in Hread. cbn [is_json] in Hread.
  apply andb_true_iff in Hread as [_ Hread]. exact Hread.
Qed.

Lemma persisted_user_fields stored_name email :
  exists props,
    persisted_user stored_name (VStr email) = VObj props
    /\ incl (List.map fst props) [js "name"; js "email"; js "isLoggedIn"]
    /\ lookup_prop (js "name") props = stored_name
    /\ lookup_prop (js "email") props = VStr email
    /\ lookup_prop (js "isLoggedIn") props = VBool true
    /\ lookup_prop (js "password") props = VUndefined.
Proof.
  eexists. split; [reflexivity|].
  destruct stored_name; cbn [app List.map fst];
    (split; [intros k; cbn [In]; tauto|]); repeat split.
Qed.

(** C4, as the claim states it, fails: on a store that is full the
    write of line 40 raises [QuotaExceededError]: Bob's email and
    password are those of the stored record, and the handler ends
    without the success signal and without having changed the store. *)
Lemma login_on_full_store :
  readUser full_store
  = Normal (VObj [(js "email", VStr (js "bob@x.io"));
                  (js "password", VStr (js "pw"))])
  /\ handleLogin (js "bob@x.io") (js "pw") full_store
     = (Throw QuotaExceededError, full_store).
Proof. split; vm_compute; reflexivity. Qed.

(** C4, as the code has it.  Let the email and the password be filled in
    and be the email and the password of the stored record.  The handler
    then writes under "userData" the text of a record with the stored
    name, the stored email and [isLoggedIn = true].  When the store takes
    the text, the handler signals success and the record read from the
    store afterwards has that email, [isLoggedIn = true] and the stored
    name as [JSON.stringify] prints it (the same name when it is a string;
    no name when the stored record had none).  When the store does not
    take the text, the handler ends with [QuotaExceededError], without a
    signal and without having changed the store. *)
Theorem login_success email password ls stored :
  email <> [] -> password <> [] ->
  readUser ls = Normal stored ->
  get stored (js "email") = Normal (VStr email) ->
  get stored (js "password") = Normal (VStr password) ->
  exists stored_name,
    get stored (js "name") = Normal stored_name
    /\ (forall ls',
           setItem (js "userData")
             (JSON_stringify (userData stored_name (VStr email))) ls
           = Normal ls' ->
           handleLogin email password ls = (Normal LoggedIn, ls')
           /\ getItem (js "userData") ls'
              = Some (JSON_stringify (userData stored_name (VStr email)))
           /\ readUser ls'
              = Normal (persisted_user (reread stored_name) (VStr email))
           /\ (forall s, stored_name = VStr s ->
                         readUser ls'
                         = Normal (userData (VStr s) (VStr email)))
           /\ (stored_name = VUndefined ->
               readUser ls'
               = Normal (VObj [(js "email", VStr email);
                               (js "isLoggedIn", VBool true)])))
    /\ (forall e,
           setItem (js "userData")
             (JSON_stringify (userData stored_name (VStr email))) ls
           = Throw e ->
           e = QuotaExceededError
           /\ handleLogin email password ls = (Throw QuotaExceededError, ls)).
Proof.
  intros H1 H2 Hread Hemail Hpw.
  apply get_string in Hemail as (ps & -> & Hemail).
  cbn [get] in Hpw. injection Hpw as Hpw.
  exists (lookup_prop (js "name") ps). split; [reflexivity|].
  destruct (handleLogin_cases email password ls)
    as [[He _]|[_ [[Hthrow _]|[(st & Hst & Hrej & _)
                              |(ps' & Hps & _ & _ & Hset)]]]].
  - apply orb_true_iff in He as [He|He]; destruct email, password;
      cbn in He; congruence.
  - congruence.
  - rewrite Hread in Hst. injection Hst as <-.
    destruct (rejects_spec (VObj ps) email password)
      as [(Hrej' & _)|(_ & [Hd|Hd])]; cbn [get] in *; congruence.
  - rewrite Hread in Hps. injection Hps as <-. split.
    + intros ls' Hls'.
      assert (Hlogin : handleLogin email password ls = (Normal LoggedIn, ls')).
      { destruct Hset as [(ls1 & Hls1 & H)|[Hq _]]; congruence. }
      pose proof (login_record_reads_back ps email ls ls' Hread Hls') as Hback.
      split; [exact Hlogin|].
      split; [apply (setItem_spec _ _ _ _ Hls')|].
      split; [exact Hback|]. split.
      * intros s Hs. rewrite Hback, Hs. reflexivity.
      * intros Hs. rewrite Hback, Hs. reflexivity.
    + intros e He. pose proof (setItem_throw _ _ _ _ He) as ->.
      split; [reflexivity|].
      destruct Hset as [(ls1 & Hls1 & _)|[_ H]]; congruence.
Qed.

Lemma login_success_witness :
  exists stored_name,
    get (VObj [(js "name", VStr (js "Ann")); (js "email", VStr (js "ann@x.io"));
               (js "password", VStr (js "pw")); (js "isLoggedIn", VBool false)])
      (js "name") = Normal stored_name
    /\ (forall ls',
           setItem (js "userData")
             (JSON_stringify (userData stored_name (VStr (js "ann@x.io"))))
             ann_signed_up
           = Normal ls' ->
           handleLogin (js "ann@x.io") (js "pw") ann_signed_up
           = (Normal LoggedIn, ls')
           /\ getItem (js "userData") ls'
              = Some (JSON_stringify
                        (userData stored_name (VStr (js "ann@x.io"))))
           /\ readUser ls'
              = Normal (persisted_user (reread stored_name)
                          (VStr (js "ann@x.io")))
           /\ (forall s, stored_name = VStr s ->
                         readUser ls'
                         = Normal (userData (VStr s) (VStr (js "ann@x.io"))))
           /\ (stored_name = VUndefined ->
               readUser ls'
               = Normal (VObj [(js "email", VStr (js "ann@x.io"));
                               (js "isLoggedIn", VBool true)])))
    /\ (forall e,
           setItem (js "userData")
             (JSON_stringify (userData stored_name (VStr (js "ann@x.io"))))
             ann_signed_up
           = Throw e ->
           e = QuotaExceededError
           /\ handleLogin (js "ann@x.io") (js "pw") ann_signed_up
              = (Throw QuotaExceededError, ann_signed_up)).
Proof.
  apply (login_success (js "ann@x.io") (js "pw") ann_signed_up).
  - discriminate.
  - discriminate.
  - vm_compute. reflexivity.
  - reflexivity.
  - reflexivity.
Defined.

(** C3. The record that a successful login leaves in the store has no
    field other than [name], [email] and [isLoggedIn], and no [password]:
    the same email and password submitted again are rejected with the
    "invalid credentials" signal, and the store stays as it is. *)
Theorem second_login_fails email password ls ls' :
  handleLogin email password ls = (Normal LoggedIn, ls') ->
  exists props,
    readUser ls' = Normal (VObj props)
    /\ incl (List.map fst props) [js "name"; js "email"; js "isLoggedIn"]
    /\ lookup_prop (js "password") props = VUndefined
    /\ handleLogin email password ls' = (Normal InvalidCredentials, ls').
Proof.
  intros Hlogin.
  destruct (handleLogin_cases email password ls)
    as [[_ H]|[Hfilled [[_ H]|[(st & _ & _ & H)
                              |(ps & Hread & Hem & Hpw
                                & [(ls1 & Hset & H)|[_ H]])]]]];
    rewrite H in Hlogin; try discriminate.
  apply filled_in in Hfilled as [He Hp].
  injection Hlogin as <-.
  pose proof (login_record_reads_back ps email ls ls1 Hread Hset) as Hback.
  destruct (persisted_user_fields (reread (lookup_prop (js "name") ps)) email)
    as (props & Hprops & Hincl & _ & _ & _ & Hnopw).
  rewrite Hprops in Hback. exists props.
  split; [exact Hback|]. split; [exact Hincl|]. split; [exact Hnopw|].
  apply (handleLogin_mismatch email password _ (VObj props) He Hp Hback).
  right. cbn [get]. rewrite Hnopw. discriminate.
Qed.

Lemma second_login_fails_witness :
  exists props,
    readUser ann_logged_in = Normal (VObj props)
    /\ incl (List.map fst props) [js "name"; js "email"; js "isLoggedIn"]
    /\ lookup_prop (js "password") props = VUndefined
    /\ handleLogin (js "ann@x.io") (js "pw") ann_logged_in
       = (Normal InvalidCredentials, ann_logged_in).
Proof.
  apply (second_login_fails (js "ann@x.io") (js "pw") ann_signed_up).
  vm_compute. reflexivity.
Defined.

(** C2, as the claim states it, fails: after Ann's successful login the
    object stored under "userData" has three fields, and [password] is not
    one of them. *)
Lemma login_drops_password :
  handleLogin (js "ann@x.io") (js "pw") ann_signed_up
  = (Normal LoggedIn, ann_logged_in)
  /\ readUser ann_signed_up
     = Normal (VObj [(js "name", VStr (js "Ann"));
                     (js "email", VStr (js "ann@x.io"));
                     (js "password", VStr (js "pw"));
                     (js "isLoggedIn", VBool false)])
  /\ readUser ann_logged_in
     = Normal (VObj [(js "name", VStr (js "Ann"));
                     (js "email", VStr (js "ann@x.io"));
                     (js "isLoggedIn", VBool true)]).
Proof. repeat split; vm_compute; reflexivity. Qed.

Lemma saveUploadedFile_cases fd ls :
  (readUploadedFiles ls = Throw SyntaxError
   /\ saveUploadedFile fd ls = Throw SyntaxError)
  \/ (exists v,
         readUploadedFiles ls = Normal v /\ spread v = Throw TypeError
         /\ (forall xs, v <> VArr xs) /\ (forall s, v <> VStr s)
         /\ saveUploadedFile fd ls = Throw TypeError)
  \/ (exists v existing,
         readUploadedFiles ls = Normal v /\ spread v = Normal existing
         /\ saveUploadedFile fd ls
            = setItem (js "uploadedFiles")
                (JSON_stringify (VArr (existing ++ [fd]))) ls).
Proof.
  unfold saveUploadedFile.
  destruct (readUploadedFiles ls) as [v|e] eqn:Hread.
  - right. destruct (spread v) as [existing|e] eqn:Hspread.
    + right. exists v, existing. auto.
    + left. exists v. split; [reflexivity|].
      destruct v; cbn [spread] in Hspread; try discriminate;
        injection Hspread as <-;
        (split; [reflexivity|]); (split; [|split]);
        try reflexivity; intros; discriminate.
  - left. unfold readUploadedFiles in Hread.
    destruct (JSON_parse _); [discriminate|]. injection Hread as <-. auto.
Qed.

Lemma saveUploadedFile_other_key fd ls ls' key :
  key <> js "uploadedFiles" ->
  saveUploadedFile fd ls = Normal ls' -> getItem key ls' = getItem key ls.
Proof.
  intros Hkey.
  destruct (saveUploadedFile_cases fd ls)
    as [[_ ->]|[(v & _ & _ & _ & _ & ->)|(v & existing & _ & _ & ->)]];
    try discriminate.
  intros Hset. apply setItem_spec in Hset as (_ & Hother & _).
  apply Hother. exact Hkey.
Qed.

Lemma tick_other_key r u w key :
  key <> js "uploadedFiles" ->
  getItem key (localStorage (tick r u w).1.2) = getItem key (localStorage w).
Proof.
  intros Hkey. unfold tick. destruct (Qle_bool 100 _); [|reflexivity].
  destruct (saveUploadedFile _ _) as [ls'|] eqn:Hsave; [|reflexivity].
  cbn [fst snd localStorage]. exact (saveUploadedFile_other_key _ _ _ _ Hkey Hsave).
Qed.

(** The store changes with ticks only. *)
Lemma react_store e w w' :
  react e w = Some w' ->
  localStorage w' = localStorage w
  \/ exists i r u,
      e = IntervalFires i r /\ uploads w !! i = Some u
      /\ localStorage w' = localStorage (tick r u w).1.2.
Proof.
  destruct e as [files|i r|j|fid|dt]; cbn [react].
  - intros [= <-]. left.
    destruct (handleFileSelect_cases files w)
      as [[-> _]|(f0 & fs0 & _ & ->)]; reflexivity.
  - unfold fire_interval.
    destruct (uploads w !! i) as [u|] eqn:Hi; [|discriminate].
    destruct (interval u); [|discriminate].
    destruct (_ && _); [|discriminate].
    intros H. right. exists i, r, u. split; [reflexivity|].
    split; [exact Hi|].
    destruct (tick r u w) as [[u' w1] c]. injection H as <-. reflexivity.
  - unfold fire_timeout.
    destruct (timeouts w !! j) as [[due fid]|]; [|discriminate].
    destruct (due <=? clock w)%Z; [|discriminate].
    intros [= <-]. left. reflexivity.
  - intros [= <-]. left. reflexivity.
  - unfold pass_time. destruct (0 <=? dt)%Z; [|discriminate].
    intros [= <-]. left. reflexivity.
Qed.

Lemma react_other_key e w w' key :
  key <> js "uploadedFiles" ->
  react e w = Some w' ->
  getItem key (localStorage w') = getItem key (localStorage w).
Proof.
  intros Hkey He.
  destruct (react_store e w w' He) as [->|(i & r & u & _ & _ & ->)];
    [reflexivity|].
  apply tick_other_key. exact Hkey.
Qed.

Lemma userData_not_uploadedFiles : js "userData" <> js "uploadedFiles".
Proof. discriminate. Qed.

(** C2, as the code has it.  When a login succeeds, the text stored under
    "userData" is that of the record of lines 34-38, and the object read
    from it has no field other than [name], [email] and [isLoggedIn]:
    the email is the submitted one, [isLoggedIn] is true, the name is the
    stored name as [JSON.stringify] prints it (the same name when it is a
    string, none when the stored record had none), and [password] is
    missing.  The other keys of the store are not changed.  Every other
    outcome of a login leaves the store as it was.  Neither
    [saveUploadedFile] nor any event of the uploader changes what is
    stored under "userData". *)
Theorem userData_after_operations :
  (forall email password ls ls',
      handleLogin email password ls = (Normal LoggedIn, ls') ->
      exists stored props,
        readUser ls = Normal (VObj stored)
        /\ getItem (js "userData") ls'
           = Some (JSON_stringify
                     (userData (lookup_prop (js "name") stored) (VStr email)))
        /\ readUser ls' = Normal (VObj props)
        /\ incl (List.map fst props) [js "name"; js "email"; js "isLoggedIn"]
        /\ lookup_prop (js "name") props
           = reread (lookup_prop (js "name") stored)
        /\ (forall s, lookup_prop (js "name") stored = VStr s ->
                      lookup_prop (js "name") props = VStr s)
        /\ lookup_prop (js "email") props = VStr email
        /\ lookup_prop (js "isLoggedIn") props = VBool true
        /\ lookup_prop (js "password") props = VUndefined
        /\ (forall key, key <> js "userData" ->
                        getItem key ls' = getItem key ls))
  /\ (forall email password ls,
         (handleLogin email password ls).1 <> Normal LoggedIn ->
         (handleLogin email password ls).2 = ls)
  /\ (forall fd ls ls',
         saveUploadedFile fd ls = Normal ls' ->
         getItem (js "userData") ls' = getItem (js "userData") ls)
  /\ (forall e w w',
         react e w = Some w' ->
         getItem (js "userData") (localStorage w')
         = getItem (js "userData") (localStorage w)).
Proof.
  split; [|split; [|split]].
  - intros email password ls ls' Hlogin.
    destruct (handleLogin_cases email password ls)
      as [[_ H]|[Hfilled [[_ H]|[(st & _ & _ & H)
                                |(ps & Hread & Hem & Hpw
                                  & [(ls1 & Hset & H)|[_ H]])]]]];
      rewrite H in Hlogin; try discriminate.
    injection Hlogin as <-.
    pose proof (login_record_reads_back ps email ls ls1 Hread Hset) as Hback.
    destruct (persisted_user_fields (reread (lookup_prop (js "name") ps))
                email)
      as (props & Hprops & Hincl & Hname & Hemail & Hin & Hnopw).
    destruct (setItem_spec _ _ _ _ Hset) as (Hget & Hother & _).
    exists ps, props. rewrite Hback, Hprops.
    repeat split; try assumption.
    intros s Hs. rewrite Hname, Hs. reflexivity.
  - apply handleLogin_failure.
  - intros fd ls ls'.
    apply saveUploadedFile_other_key, userData_not_uploadedFiles.
  - intros e w w'. apply react_other_key, userData_not_uploadedFiles.
Qed.

Lemma userData_after_operations_witness :
  exists stored props,
    readUser ann_signed_up = Normal (VObj stored)
    /\ getItem (js "userData") ann_logged_in
       = Some (JSON_stringify
                 (userData (lookup_prop (js "name") stored)
                    (VStr (js "ann@x.io"))))
    /\ readUser ann_logged_in = Normal (VObj props)
    /\ incl (List.map fst props) [js "name"; js "email"; js "isLoggedIn"]
    /\ lookup_prop (js "name") props
       = reread (lookup_prop (js "name") stored)
    /\ (forall s, lookup_prop (js "name") stored = VStr s ->
                  lookup_prop (js "name") props = VStr s)
    /\ lookup_prop (js "email") props = VStr (js "ann@x.io")
    /\ lookup_prop (js "isLoggedIn") props = VBool true
    /\ lookup_prop (js "password") props = VUndefined
    /\ (forall key, key <> js "userData" ->
                    getItem key ann_logged_in = getItem key ann_signed_up).
Proof.
  apply (proj1 userData_after_operations (js "ann@x.io") (js "pw")).
  vm_compute. reflexivity.
Defined.

(** C1, as the claim states it, fails: on a store whose texts are not JSON
    both reads raise [SyntaxError], and so do the handlers. *)
Lemma malformed_text_raises :
  readUser broken_store = Throw SyntaxError
  /\ readUploadedFiles broken_store = Throw SyntaxError
  /\ handleLogin (js "ann@x.io") (js "pw") broken_store
     = (Throw SyntaxError, broken_store)
  /\ saveUploadedFile (fileData (js "a.txt-0") a_txt 0) broken_store
     = Throw SyntaxError.
Proof. repeat split; vm_compute; reflexivity. Qed.

Lemma or_text_absent item fallback :
  item = None \/ item = Some [] -> or_text item fallback = fallback.
Proof. intros [-> | ->]; reflexivity. Qed.

(** C1, as the code has it.  With no text or the empty text under the key,
    [readUser] gives the empty object and [readUploadedFiles] the empty
    sequence.  With any other text the reads give what [JSON.parse] gives,
    and raise [SyntaxError] when the text is not JSON.  Nothing catches an
    exception.  [handleLogin] raises [SyntaxError] exactly when both
    inputs are filled in and [readUser] raises, [QuotaExceededError]
    exactly when the inputs match the stored record and the store does not
    take the text of line 40, and nothing else.  [saveUploadedFile]
    raises [SyntaxError] exactly when [readUploadedFiles] raises,
    [TypeError] exactly when the value read is neither an array nor a
    string, which [[...existingFiles]] cannot iterate, and
    [QuotaExceededError] exactly when the store does not take the text of
    line 91.  [localStorage.setItem] raises exactly when the store would
    grow beyond its quota.  A handler that raises has written nothing. *)
Theorem reads_of_the_store ls :
  (getItem (js "userData") ls = None \/ getItem (js "userData") ls = Some [] ->
   readUser ls = Normal (VObj []))
  /\ (getItem (js "uploadedFiles") ls = None
      \/ getItem (js "uploadedFiles") ls = Some [] ->
      readUploadedFiles ls = Normal (VArr []))
  /\ (forall c t,
         getItem (js "userData") ls = Some (c :: t) ->
         (forall v, JSON_parse (c :: t) = Some v -> readUser ls = Normal v)
         /\ (JSON_parse (c :: t) = None -> readUser ls = Throw SyntaxError))
  /\ (forall c t,
         getItem (js "uploadedFiles") ls = Some (c :: t) ->
         (forall v, JSON_parse (c :: t) = Some v ->
                    readUploadedFiles ls = Normal v)
         /\ (JSON_parse (c :: t) = None ->
             readUploadedFiles ls = Throw SyntaxError))
  /\ (forall email password e,
         (handleLogin email password ls).1 = Throw e
         <-> email <> [] /\ password <> []
             /\ ((e = SyntaxError /\ readUser ls = Throw SyntaxError)
                 \/ (e = QuotaExceededError
                     /\ exists props,
                         readUser ls = Normal (VObj props)
                         /\ lookup_prop (js "email") props = VStr email
                         /\ lookup_prop (js "password") props = VStr password
                         /\ setItem (js "userData")
                              (JSON_stringify
                                 (userData (lookup_prop (js "name") props)
                                    (VStr email)))
                              ls
                            = Throw QuotaExceededError)))
  /\ (forall email password e,
         (handleLogin email password ls).1 = Throw e ->
         (handleLogin email password ls).2 = ls)
  /\ (forall fd e,
         saveUploadedFile fd ls = Throw e
         <-> (e = SyntaxError /\ readUploadedFiles ls = Throw SyntaxError)
             \/ (e = TypeError
                 /\ exists v, readUploadedFiles ls = Normal v
                              /\ (forall xs, v <> VArr xs)
                              /\ (forall s, v <> VStr s))
             \/ (e = QuotaExceededError
                 /\ exists v existing,
                     readUploadedFiles ls = Normal v
                     /\ spread v = Normal existing
                     /\ setItem (js "uploadedFiles")
                          (JSON_stringify (VArr (existing ++ [fd]))) ls
                        = Throw QuotaExceededError))
  /\ (forall key text e,
         setItem key text ls = Throw e
         <-> e = QuotaExceededError
             /\ capacity ls < usage (<[key := text]> (texts ls))).
Proof.
  repeat apply conj.
  - intros H. unfold readUser. rewrite (or_text_absent _ _ H). reflexivity.
  - intros H. unfold readUploadedFiles. rewrite (or_text_absent _ _ H).
    reflexivity.
  - intros c t H. unfold readUser. rewrite H. cbn [or_text].
    split; [intros v ->; reflexivity | intros ->; reflexivity].
  - intros c t H. unfold readUploadedFiles. rewrite H. cbn [or_text].
    split; [intros v ->; reflexivity | intros ->; reflexivity].
  - intros email password e.
    destruct (handleLogin_cases email password ls)
      as [[He H]|[He [[Hr H]|[(st & Hr & Hrej & H)
                             |(ps & Hr & Hem & Hpw
                               & [(ls1 & Hset & H)|[Hset H]])]]]];
      rewrite H; cbn [fst].
    + split; [discriminate|]. intros (H1 & H2 & _).
      apply orb_true_iff in He as [He|He]; destruct email, password;
        cbn in He; congruence.
    + apply filled_in in He as [He Hp].
      split; [intros [= <-]; auto|].
      intros (_ & _ & [[-> _]|[_ (props & Hp' & _)]]);
        [reflexivity | congruence].
    + split; [discriminate|].
      intros (_ & _ & [[_ Hthrow]|[_ (props & Hp' & Hem & Hpw & _)]]);
        [congruence|].
      rewrite Hr in Hp'. injection Hp' as ->.
      destruct (rejects_spec (VObj props) email password)
        as [(Hrej' & _)|(_ & [Hd|Hd])]; cbn [get] in *; congruence.
    + split; [discriminate|].
      intros (_ & _ & [[_ Hthrow]|[_ (props & Hp' & _ & _ & Hq)]]);
        [congruence|].
      rewrite Hr in Hp'. injection Hp' as <-. congruence.
    + apply filled_in in He as [He Hp].
      split.
      * intros [= <-]. split; [exact He|]. split; [exact Hp|].
        right. split; [reflexivity|]. exists ps. auto.
      * intros (_ & _ & [[_ Hthrow]|[-> _]]); [congruence|reflexivity].
  - intros email password e He. apply handleLogin_failure.
    rewrite He. discriminate.
  - intros fd e.
    destruct (saveUploadedFile_cases fd ls)
      as [[Hr ->]|[(v & Hr & Hs & Hna & Hns & ->)|(v & ex & Hr & Hs & ->)]].
    + split; [intros [= <-]; auto|].
      intros [[-> _]|[[_ (v & Hv & _)]|[_ (v & ex & Hv & _)]]];
        [reflexivity | congruence | congruence].
    + split.
      * intros [= <-]. right. left. split; [reflexivity|]. exists v. auto.
      * intros [[_ H]|[[-> _]|[_ (v' & ex & Hv & Hs' & _)]]];
          [congruence | reflexivity |].
        rewrite Hr in Hv. injection Hv as <-. congruence.
    + split.
      * intros He. pose proof (setItem_throw _ _ _ _ He) as ->.
        right. right. split; [reflexivity|]. exists v, ex. auto.
      * intros [[_ H]|[[_ (v' & Hv & Hna & Hns)]|[-> (v' & ex' & Hv & Hs' & Hq)]]].
        -- congruence.
        -- rewrite Hr in Hv. injection Hv as <-.
           destruct v; cbn [spread] in Hs; try discriminate;
             [exfalso; exact (Hns _ eq_refl) | exfalso; exact (Hna _ eq_refl)].
        -- rewrite Hr in Hv. injection Hv as <-.
           rewrite Hs in Hs'. injection Hs' as <-. exact Hq.
  - intros key text e.
    destruct (setItem_cases key text ls) as [[Hfit ->]|[Hfull ->]].
    + split; [discriminate|]. intros [_ H]. lia.
    + split; [intros [= <-]; auto | intros [-> _]; reflexivity].
Qed.

Lemma reads_of_the_store_witness :
  readUser empty_store = Normal (VObj [])
  /\ readUploadedFiles empty_store = Normal (VArr [])
  /\ (handleLogin (js "ann@x.io") (js "pw") broken_store).2 = broken_store.
Proof.
  split; [|split].
  - apply (proj1 (reads_of_the_store empty_store)). left. reflexivity.
  - apply (proj1 (proj2 (reads_of_the_store empty_store))). left. reflexivity.
  - apply (proj1 (proj2 (proj2 (proj2 (proj2 (proj2
             (reads_of_the_store broken_store))))))
             (js "ann@x.io") (js "pw") SyntaxError).
    vm_compute. reflexivity.
Defined.

(** * The durable list of uploaded files *)

Lemma record_is_json fid f now :
  is_json (printed_file_record fid f now) = true
  /\ serialize (fileData fid f now) = serialize (printed_file_record fid f now)
  /\ reread (printed_file_record fid f now) = uploaded_file_record fid f now.
Proof. repeat split. Qed.

Lemma stringify_snoc items x y :
  serialize x = serialize y ->
  JSON_stringify (VArr (items ++ [x])) = JSON_stringify (VArr (items ++ [y])).
Proof.
  intros H. unfold JSON_stringify. cbn [serialize or_else].
  rewrite !map_app. cbn [List.map]. rewrite H. reflexivity.
Qed.

Lemma readUploadedFiles_is_json ls v :
  readUploadedFiles ls = Normal v -> is_json v = true.
Proof.
  unfold readUploadedFiles.
  destruct (JSON_parse _) as [v'|] eqn:H; [|discriminate].
  intros [= <-]. exact (JSON_parse_is_json _ _ H).
Qed.

Lemma readUploadedFiles_after_write xs ls ls' :
  is_json (VArr xs) = true ->
  setItem (js "uploadedFiles") (JSON_stringify (VArr xs)) ls = Normal ls' ->
  readUploadedFiles ls' = Normal (VArr (List.map reread xs)).
Proof.
  intros Hj Hset. apply setItem_spec in Hset as (Hget & _).
  unfold readUploadedFiles. rewrite Hget.
  destruct (stringify_array xs) as (rest & Hrest).
  rewrite Hrest, or_text_nonempty, <- Hrest.
  rewrite (JSON_parse_stringify _ Hj). reflexivity.
Qed.

Lemma saveUploadedFile_array fd ls items :
  readUploadedFiles ls = Normal (VArr items) ->
  saveUploadedFile fd ls
  = setItem (js "uploadedFiles") (JSON_stringify (VArr (items ++ [fd]))) ls.
Proof. intros H. unfold saveUploadedFile. rewrite H. reflexivity. Qed.

Lemma code_points_json_bounded n : forall s,
  (List.length s <= n)%nat -> forallb is_json (code_points s) = true.
Proof.
  induction n as [|n IH]; intros s Hlen.
  - destruct s; [reflexivity | simpl in Hlen; lia].
  - destruct s as [|c s]; [reflexivity|]. simpl in Hlen.
    cbn [code_points]. destruct (is_high_surrogate c).
    + destruct s as [|d s]; [reflexivity|]. simpl in Hlen.
      destruct (is_low_surrogate d); cbn [forallb is_json]; apply IH;
        simpl; lia.
    + cbn [forallb is_json]. apply IH. lia.
Qed.

Lemma spread_is_json v items :
  is_json v = true -> spread v = Normal items ->
  forallb is_json items = true.
Proof.
  destruct v; cbn [spread]; try discriminate; intros Hj [= <-].
  - apply (code_points_json_bounded (List.length s)). lia.
  - exact Hj.
Qed.

(** What is read after [saveUploadedFile] has stored the record of lines
    58-65. *)
Lemma saveUploadedFile_record fid f now ls ls' v existing :
  readUploadedFiles ls = Normal v -> spread v = Normal existing ->
  saveUploadedFile (fileData fid f now) ls = Normal ls' ->
  getItem (js "uploadedFiles") ls'
  = Some (JSON_stringify (VArr (existing ++ [fileData fid f now])))
  /\ readUploadedFiles ls'
     = Normal (VArr (List.map reread existing
                     ++ [uploaded_file_record fid f now])).
Proof.
  intros Hread Hspread Hsave. unfold saveUploadedFile in Hsave.
  rewrite Hread, Hspread in Hsave.
  split; [apply (setItem_spec _ _ _ _ Hsave)|].
  destruct (record_is_json fid f now) as (Hj & Hser & Hre).
  rewrite (stringify_snoc existing _ _ Hser) in Hsave.
  assert (Hall : is_json (VArr (existing ++ [printed_file_record fid f now]))
                 = true).
  { cbn [is_json]. apply forallb_snoc; [|exact Hj].
    apply (spread_is_json v); [|exact Hspread].
    exact (readUploadedFiles_is_json _ _ Hread). }
  rewrite (readUploadedFiles_after_write _ _ _ Hall Hsave).
  rewrite map_app. cbn [List.map]. rewrite Hre. reflexivity.
Qed.

Lemma reprinted_trans v1 v2 v3 :
  reprinted v1 v2 -> reprinted v2 v3 -> reprinted v1 v3.
Proof.
  intros [n ->] [m ->]. exists (m + n)%nat.
  induction m as [|m IH]; [reflexivity|].
  change (reread (Nat.iter m reread (Nat.iter n reread v1))
          = reread (Nat.iter (m + n) reread v1)).
  rewrite IH. reflexivity.
Qed.

Lemma Forall2_reprinted_trans xs ys zs :
  Forall2 reprinted xs ys -> Forall2 reprinted ys zs ->
  Forall2 reprinted xs zs.
Proof.
  intros H. revert zs. induction H as [|x y xs ys Hxy _ IH]; intros zs Hz.
  - inversion Hz. constructor.
  - inversion Hz as [|y' z ys' zs' Hyz Hrest]; subst.
    constructor; [exact (reprinted_trans _ _ _ Hxy Hyz) | apply IH, Hrest].
Qed.

(** What a tick leaves in the stored sequence: the entries it had, each
    printed and read once more when the tick has written, and at most
    one record after them. *)
Lemma tick_appends r u w items :
  readUploadedFiles (localStorage w) = Normal (VArr items) ->
  (localStorage (tick r u w).1.2 = localStorage w
   /\ toasts (tick r u w).1.2 = toasts w
   /\ ((tick r u w).2 = Normal tt -> interval (tick r u w).1.1 <> None)
   /\ ((tick r u w).2 <> Normal tt ->
       (tick r u w).2 = Throw QuotaExceededError
       /\ interval (tick r u w).1.1 = None))
  \/ ((tick r u w).2 = Normal tt
      /\ interval (tick r u w).1.1 = None
      /\ toasts (tick r u w).1.2 = S (toasts w)
      /\ readUploadedFiles (localStorage (tick r u w).1.2)
         = Normal (VArr (List.map reread items
                         ++ [uploaded_file_record (fileId u) (upload_file u)
                               (clock w)]))).
Proof.
  intros H. unfold tick.
  destruct (Qle_bool 100 _).
  - destruct (saveUploadedFile _ _) as [ls'|e] eqn:Hsave;
      cbn [fst snd localStorage toasts interval].
    + right. split; [reflexivity|]. split; [reflexivity|].
      split; [reflexivity|].
      apply (saveUploadedFile_record _ _ _ _ _ _ _ H eq_refl Hsave).
    + left. split; [reflexivity|]. split; [reflexivity|].
      split; [discriminate|]. intros _. split; [|reflexivity].
      rewrite (saveUploadedFile_array _ _ _ H) in Hsave.
      apply setItem_throw in Hsave as ->. reflexivity.
  - left. cbn [fst snd localStorage toasts interval].
    split; [reflexivity|]. split; [reflexivity|].
    split; [discriminate|]. intros Hne. congruence.
Qed.

Lemma react_appends e w w' items :
  readUploadedFiles (localStorage w) = Normal (VArr items) ->
  react e w = Some w' ->
  exists items' more,
    readUploadedFiles (localStorage w') = Normal (VArr (items' ++ more))
    /\ Forall2 reprinted items items'.
Proof.
  intros H He.
  destruct (react_store e w w' He) as [->|(i & r & u & _ & _ & ->)].
  - exists items, []. rewrite app_nil_r.
    split; [exact H | apply Forall2_reprinted_refl].
  - destruct (tick_appends r u w items H)
      as [(-> & _)|(_ & _ & _ & Hback)].
    + exists items, []. rewrite app_nil_r.
      split; [exact H | apply Forall2_reprinted_refl].
    + eexists _, _. split; [exact Hback|].
      apply Forall2_reprinted_step, Forall2_reprinted_refl.
Qed.

Lemma Forall2_app_split {A B} (R : A -> B -> Prop) xs1 xs2 : forall ys,
  Forall2 R (xs1 ++ xs2) ys ->
  exists ys1 ys2,
    ys = ys1 ++ ys2 /\ Forall2 R xs1 ys1 /\ Forall2 R xs2 ys2.
Proof.
  induction xs1 as [|x xs1 IH]; intros ys H; cbn [app] in H.
  - exists [], ys. split; [reflexivity|]. split; [constructor|exact H].
  - inversion H as [|x' y xs' ys' Hxy Hrest]; subst.
    destruct (IH _ Hrest) as (ys1 & ys2 & -> & H1 & H2).
    exists (y :: ys1), ys2. split; [reflexivity|].
    split; [constructor; assumption|exact H2].
Qed.

Lemma react_all_appends es : forall w w' items,
  readUploadedFiles (localStorage w) = Normal (VArr items) ->
  react_all es w = Some w' ->
  exists items' more,
    readUploadedFiles (localStorage w') = Normal (VArr (items' ++ more))
    /\ Forall2 reprinted items items'.
Proof.
  induction es as [|e es IH]; intros w w' items H; cbn [react_all].
  - intros [= <-]. exists items, []. rewrite app_nil_r.
    split; [exact H | apply Forall2_reprinted_refl].
  - destruct (react e w) as [w1|] eqn:He; [|discriminate].
    destruct (react_appends _ _ _ _ H He) as (items1 & more1 & H1 & R1).
    intros Hes. destruct (IH _ _ _ H1 Hes) as (xs & more2 & H2 & R2).
    apply Forall2_app_split in R2 as (xs1 & xs2 & -> & R21 & R22).
    exists xs1, (xs2 ++ more2). rewrite app_assoc.
    split; [exact H2|]. exact (Forall2_reprinted_trans _ _ _ R1 R21).
Qed.

Lemma handleLogin_other_key email password ls key :
  key <> js "userData" ->
  getItem key (handleLogin email password ls).2 = getItem key ls.
Proof.
  intros Hkey.
  destruct (handleLogin_cases email password ls)
    as [[_ H]|[_ [[_ H]|[(st & _ & _ & H)
                        |(ps & _ & _ & _ & [(ls1 & Hset & H)|[_ H]])]]]];
    rewrite H; cbn [snd]; try reflexivity.
  apply (setItem_spec _ _ _ _ Hset). exact Hkey.
Qed.

(** C8, as the claim states it, fails: a stored entry that holds a number
    which does not print as it was read is changed by the next write.
    The store holds the sequence of an infinity (the value of 1e400), a
    negative zero and a third number; after [saveUploadedFile] the first
    entry is null and the second a positive zero. *)
Lemma reprinting_changes_entries :
  exists x ls',
    readUploadedFiles odd_numbers
    = Normal (VArr [VNum (S754_infinity false); VNum (S754_zero true); VNum x])
    /\ saveUploadedFile (fileData (js "a.txt-0") a_txt 0) odd_numbers
       = Normal ls'
    /\ readUploadedFiles ls'
       = Normal (VArr [VNull; VNum (S754_zero false); VNum x;
                       uploaded_file_record (js "a.txt-0") a_txt 0])
    /\ getItem (js "uploadedFiles") ls'
       = Some (sample_text "[null,0,0.12345678901234568,{'id':'a.txt-0','name':'a.txt','type':'text/plain','size':10,'modifiedAt':'1970-01-01T00:00:00.000Z','isFolder':false}]").
Proof.
  eexists _, _. split; [vm_compute; reflexivity|].
  split; [vm_compute; reflexivity|]. split; vm_compute; reflexivity.
Qed.

(** C8, as the code has it.  Let the store hold a sequence under
    "uploadedFiles" (or nothing, which reads as the empty sequence).
    [saveUploadedFile] then writes the text of that sequence with the new
    record added at the end, under that key and no other, or raises
    [QuotaExceededError] and writes nothing.  What is read afterwards is
    the entries the sequence had, in their order, each as it is printed
    and read, followed by the record; an entry that prints as it was
    read ([stable]) is not changed.  Whatever the uploader does later, the
    sequence read from the store begins with these entries, in the same
    order, none removed, each printed and read some number of times.  A
    login does not touch the key. *)
Theorem uploadedFiles_append_only :
  (forall fd ls items,
      readUploadedFiles ls = Normal (VArr items) ->
      saveUploadedFile fd ls
      = setItem (js "uploadedFiles")
          (JSON_stringify (VArr (items ++ [fd]))) ls)
  /\ (forall fd ls,
         (exists ls',
             saveUploadedFile fd ls = Normal ls'
             /\ forall key, key <> js "uploadedFiles" ->
                            getItem key ls' = getItem key ls)
         \/ exists e, saveUploadedFile fd ls = Throw e)
  /\ (forall fid f now ls ls' items,
         readUploadedFiles ls = Normal (VArr items) ->
         saveUploadedFile (fileData fid f now) ls = Normal ls' ->
         getItem (js "uploadedFiles") ls'
         = Some (JSON_stringify (VArr (items ++ [fileData fid f now])))
         /\ readUploadedFiles ls'
            = Normal (VArr (List.map reread items
                            ++ [uploaded_file_record fid f now]))
         /\ (Forall stable items ->
             readUploadedFiles ls'
             = Normal (VArr (items ++ [uploaded_file_record fid f now]))))
  /\ (forall es w w' items,
         readUploadedFiles (localStorage w) = Normal (VArr items) ->
         react_all es w = Some w' ->
         exists items' more,
           readUploadedFiles (localStorage w')
           = Normal (VArr (items' ++ more))
           /\ Forall2 reprinted items items'
           /\ (Forall stable items -> items' = items))
  /\ (forall email password ls,
         getItem (js "uploadedFiles") (handleLogin email password ls).2
         = getItem (js "uploadedFiles") ls).
Proof.
  split; [exact saveUploadedFile_array|]. split; [|split; [|split]].
  - intros fd ls. destruct (saveUploadedFile fd ls) as [ls'|e] eqn:Hsave.
    + left. exists ls'. split; [reflexivity|]. intros key Hkey.
      exact (saveUploadedFile_other_key _ _ _ _ Hkey Hsave).
    + right. eauto.
  - intros fid f now ls ls' items Hread Hsave.
    destruct (saveUploadedFile_record fid f now ls ls' _ _ Hread eq_refl Hsave)
      as [Hget Hback].
    split; [exact Hget|]. split; [exact Hback|].
    intros Hstable. rewrite Hback, (stable_array _ Hstable). reflexivity.
  - intros es w w' items Hread Hes.
    destruct (react_all_appends es w w' items Hread Hes)
      as (items' & more & H & R).
    exists items', more. split; [exact H|]. split; [exact R|].
    intros Hstable. exact (Forall2_reprinted_stable _ _ Hstable R).
  - intros email password ls. apply handleLogin_other_key. discriminate.
Qed.

Lemma uploadedFiles_append_only_witness :
  getItem (js "uploadedFiles")
    {| texts :=
         <[js "uploadedFiles" :=
             JSON_stringify
               (VArr ([uploaded_file_record (js "b.txt-5") b_txt 5]
                      ++ [fileData (js "a.txt-0") a_txt 0]))]>
           (texts one_uploaded);
       capacity := capacity one_uploaded |}
  = Some (JSON_stringify
            (VArr ([uploaded_file_record (js "b.txt-5") b_txt 5]
                   ++ [fileData (js "a.txt-0") a_txt 0])))
  /\ readUploadedFiles
       {| texts :=
            <[js "uploadedFiles" :=
                JSON_stringify
                  (VArr ([uploaded_file_record (js "b.txt-5") b_txt 5]
                         ++ [fileData (js "a.txt-0") a_txt 0]))]>
              (texts one_uploaded);
          capacity := capacity one_uploaded |}
     = Normal (VArr (List.map reread
                       [uploaded_file_record (js "b.txt-5") b_txt 5]
                     ++ [uploaded_file_record (js "a.txt-0") a_txt 0]))
  /\ (Forall stable [uploaded_file_record (js "b.txt-5") b_txt 5] ->
      readUploadedFiles
        {| texts :=
             <[js "uploadedFiles" :=
                 JSON_stringify
                   (VArr ([uploaded_file_record (js "b.txt-5") b_txt 5]
                          ++ [fileData (js "a.txt-0") a_txt 0]))]>
               (texts one_uploaded);
           capacity := capacity one_uploaded |}
      = Normal (VArr ([uploaded_file_record (js "b.txt-5") b_txt 5]
                      ++ [uploaded_file_record (js "a.txt-0") a_txt 0]))).
Proof.
  apply (proj1 (proj2 (proj2 uploadedFiles_append_only))
           (js "a.txt-0") a_txt 0%Z one_uploaded).
  - vm_compute. reflexivity.
  - vm_compute. reflexivity.
Defined.

(** * Completion of an upload *)




Lemma clock_never_goes_back e w1 w2 :
  react e w1 = Some w2 -> (clock w1 <= clock w2)%Z.
Proof.
  destruct e as [files|i r|j|fid|dt]; cbn [react].
  - intros [= <-].
    destruct (handleFileSelect_cases files w1)
      as [[-> _]|(f0 & fs0 & _ & ->)]; [lia|].
    cbn [clock]. apply newFiles_clock.
  - unfold fire_interval.
    destruct (uploads w1 !! i) as [u|]; [|discriminate].
    destruct (interval u); [|discriminate].
    destruct (_ && _); [|discriminate].
    pose proof (tick_clock r u w1) as Hc.
    destruct (tick r u w1) as [[u' w'] c]. cbn [fst snd] in Hc.
    intros [= <-]. cbn [put_upload clock]. lia.
  - unfold fire_timeout.
    destruct (timeouts w1 !! j) as [[due fid]|]; [|discriminate].
    destruct (due <=? clock w1)%Z; [|discriminate].
    intros [= <-]. cbn [clock removeFile]. lia.
  - intros [= <-]. cbn [clock removeFile]. lia.
  - unfold pass_time. destruct (0 <=? dt)%Z eqn:E; [|discriminate].
    apply Z.leb_le in E. intros [= <-]. cbn [clock]. lia.
Qed.

Lemma tick_marks_complete r u w :
  (100 <= upload_progress u + r * 10)%Q ->
  uploadingFiles (tick r u w).1.2
  = List.map (mark_complete (fileId u)) (uploadingFiles w)
  /\ interval (tick r u w).1.1 = None
  /\ upload_progress (tick r u w).1.1 = 100%Q.
Proof.
  intros Hreach. apply Qle_bool_iff in Hreach. unfold tick. rewrite Hreach.
  destruct (saveUploadedFile _ _); cbn [fst snd uploadingFiles];
    [|repeat split].
  split; [|split; reflexivity].
  rewrite List.map_map. apply List.map_ext.
  intros f. apply set_progress_mark_complete.
Qed.



(** * Further properties of the login handler *)

Lemma rejects_match props email password :
  lookup_prop (js "email") props = VStr email ->
  lookup_prop (js "password") props = VStr password ->
  rejects (VObj props) email password = Normal false.
Proof.
  intros He Hp.
  destruct (rejects_spec (VObj props) email password)
    as [[H _]|[_ [H|H]]]; [exact H| |]; cbn [get] in H; congruence.
Qed.

(** X1. [handleLogin] signals success exactly when both inputs are filled
    in, the store holds an object whose [email] and [password] are
    strings equal to the inputs, and the store takes the text of the
    record written at line 40: no other stored value, and no value of
    another type in these two fields, lets a login through, and a full
    store lets none through. *)
Theorem login_exactly_on_match email password ls :
  (handleLogin email password ls).1 = Normal LoggedIn
  <-> email <> [] /\ password <> []
      /\ exists props ls',
          readUser ls = Normal (VObj props)
          /\ lookup_prop (js "email") props = VStr email
          /\ lookup_prop (js "password") props = VStr password
          /\ setItem (js "userData")
               (JSON_stringify
                  (userData (lookup_prop (js "name") props) (VStr email)))
               ls
             = Normal ls'.
Proof.
  destruct (handleLogin_cases email password ls)
    as [[He H]|[He [[Hr H]|[(st & Hr & Hrej & H)
                           |(ps & Hr & Hem & Hpw
                             & [(ls1 & Hset & H)|[Hset H]])]]]];
    rewrite H; cbn [fst].
  - split; [discriminate|]. intros (H1 & H2 & _).
    apply orb_true_iff in He as [He|He]; destruct email, password;
      cbn in He; congruence.
  - split; [discriminate|]. intros (_ & _ & props & ls' & Hp & _). congruence.
  - split; [discriminate|]. intros (_ & _ & props & ls' & Hp & Hem & Hpw & _).
    rewrite Hr in Hp. injection Hp as ->.
    rewrite (rejects_match _ _ _ Hem Hpw) in Hrej. discriminate.
  - split; [|reflexivity]. intros _.
    apply filled_in in He as [He Hp]. eauto 10.
  - split; [discriminate|].
    intros (_ & _ & props & ls' & Hp & _ & _ & Hset').
    rewrite Hr in Hp. injection Hp as <-. congruence.
Qed.

Lemma login_exactly_on_match_witness :
  (handleLogin (js "ann@x.io") (js "pw") ann_signed_up).1 = Normal LoggedIn.
Proof.
  apply (proj2 (login_exactly_on_match (js "ann@x.io") (js "pw")
                  ann_signed_up)).
  split; [discriminate|]. split; [discriminate|].
  exists [(js "name", VStr (js "Ann")); (js "email", VStr (js "ann@x.io"));
          (js "password", VStr (js "pw")); (js "isLoggedIn", VBool false)],
         ann_logged_in.
  split; [vm_compute; reflexivity|]. split; [reflexivity|].
  split; [reflexivity|]. vm_compute. reflexivity.
Defined.

Lemma no_password_no_login props ls email password :
  readUser ls = Normal (VObj props) ->
  lookup_prop (js "password") props = VUndefined ->
  (handleLogin email password ls).1 <> Normal LoggedIn
  /\ (handleLogin email password ls).2 = ls.
Proof.
  intros Hread Hnopw.
  assert (Hno : (handleLogin email password ls).1 <> Normal LoggedIn).
  { destruct (handleLogin_cases email password ls)
      as [[_ H]|[_ [[_ H]|[(st & _ & _ & H)|(ps & Hr & _ & Hpw & _)]]]];
      try (rewrite H; cbn [fst]; discriminate).
    rewrite Hread in Hr. injection Hr as <-. congruence. }
  split; [exact Hno | exact (handleLogin_failure _ _ _ Hno)].
Qed.

(** X2. Once a login has succeeded, no later attempt succeeds, whatever
    email and password it submits: the record left under "userData" has no
    [password], and the attempts leave the store as that login left it. *)
Theorem locked_out_after_login email password ls ls' attempts :
  handleLogin email password ls = (Normal LoggedIn, ls') ->
  login_all attempts ls' = ls'
  /\ Forall (fun ep => (handleLogin ep.1 ep.2 ls').1 <> Normal LoggedIn)
       attempts.
Proof.
  intros Hlogin.
  assert (Hlocked : exists props,
             readUser ls' = Normal (VObj props)
             /\ lookup_prop (js "password") props = VUndefined).
  { destruct (handleLogin_cases email password ls)
      as [[_ H]|[_ [[_ H]|[(st & _ & _ & H)
                          |(ps & Hread & _ & _
                            & [(ls1 & Hset & H)|[_ H]])]]]];
      rewrite H in Hlogin; try discriminate.
    injection Hlogin as <-.
    pose proof (login_record_reads_back ps email ls ls1 Hread Hset) as Hback.
    destruct (persisted_user_fields (reread (lookup_prop (js "name") ps))
                email)
      as (props & Hprops & _ & _ & _ & _ & Hnopw).
    rewrite Hprops in Hback. eauto. }
  destruct Hlocked as (props & Hread & Hnopw).
  induction attempts as [|[e p] attempts [IH1 IH2]]; [split; constructor|].
  destruct (no_password_no_login props ls' e p Hread Hnopw) as [Hno Hsame].
  split.
  - cbn [login_all]. rewrite Hsame. exact IH1.
  - constructor; assumption.
Qed.

Lemma locked_out_after_login_witness :
  login_all [(js "ann@x.io", js "pw"); (js "bob@x.io", js "x")] ann_logged_in
  = ann_logged_in
  /\ Forall (fun ep => (handleLogin ep.1 ep.2 ann_logged_in).1
                       <> Normal LoggedIn)
       [(js "ann@x.io", js "pw"); (js "bob@x.io", js "x")].
Proof.
  apply (locked_out_after_login (js "ann@x.io") (js "pw") ann_signed_up).
  vm_compute. reflexivity.
Defined.

Lemma submit_cases f ls :
  let '(f', ls', outcome) := submit f ls in
  (outcome, ls') = handleLogin (Form.email f) (Form.password f) ls
  /\ Form.email f' = Form.email f
  /\ Form.password f' = Form.password f
  /\ (outcome = Normal InvalidCredentials ->
      Form.error f' = invalid_credentials_message)
  /\ (outcome <> Normal InvalidCredentials -> Form.error f' = Form.error f).
Proof.
  unfold submit.
  destruct (handleLogin (Form.email f) (Form.password f) ls)
    as [[[| |]|e] ls'];
    cbn [Form.email Form.password Form.error];
    repeat split; congruence.
Qed.

Lemma act_error a f ls :
  (Form.error (act a (f, ls)).1 = Form.error f
   \/ Form.error (act a (f, ls)).1 = invalid_credentials_message).
Proof.
  destruct a; cbn [act fst Form.error]; auto.
  pose proof (submit_cases f ls) as H.
  destruct (submit f ls) as [[f' ls'] outcome]. cbn [fst].
  destruct H as (_ & _ & _ & Hset & Hkeep).
  destruct outcome as [[| |]|e]; (right; apply Hset; reflexivity)
    || (left; apply Hkeep; discriminate).
Qed.

(** X3. The error text of the login form is only ever set, never cleared:
    a submit that ends with "invalid credentials" sets it to the message of
    line 28, every other submit and every keystroke leaves it as it is.
    After any sequence of keystrokes and submits the text is the one the
    form started with or that message, and once the message shows it
    stays.  A submit never changes the two inputs. *)
Theorem error_text_is_never_cleared :
  (forall f ls,
      Form.email (submit f ls).1.1 = Form.email f
      /\ Form.password (submit f ls).1.1 = Form.password f
      /\ ((submit f ls).2 = Normal InvalidCredentials ->
          Form.error (submit f ls).1.1 = invalid_credentials_message)
      /\ ((submit f ls).2 <> Normal InvalidCredentials ->
          Form.error (submit f ls).1.1 = Form.error f))
  /\ (forall acts f ls,
         (Form.error (act_all acts (f, ls)).1 = Form.error f
          \/ Form.error (act_all acts (f, ls)).1
             = invalid_credentials_message)
         /\ (Form.error f = invalid_credentials_message ->
             Form.error (act_all acts (f, ls)).1
             = invalid_credentials_message)).
Proof.
  split.
  - intros f ls. pose proof (submit_cases f ls) as H.
    destruct (submit f ls) as [[f' ls'] outcome]. cbn [fst snd]. tauto.
  - intros acts. unfold act_all.
    induction acts as [|a acts IH]; intros f ls; cbn [List.fold_left].
    + auto.
    + destruct (act a (f, ls)) as [f1 ls1] eqn:Ha.
      pose proof (act_error a f ls) as H1. rewrite Ha in H1. cbn [fst] in H1.
      destruct (IH f1 ls1) as [H2 H3].
      split; [|intros Hf]; destruct H1 as [H1|H1];
        try (rewrite <- H1; exact H2);
        try (right; apply H3; exact H1);
        apply H3; congruence.
Qed.

Lemma error_text_is_never_cleared_witness :
  Form.error
    (submit {| Form.email := js "ann@x.io"; Form.password := js "wrong";
               Form.error := [] |} ann_signed_up).1.1
  = invalid_credentials_message.
Proof.
  apply (proj1 error_text_is_never_cleared).
  vm_compute. reflexivity.
Defined.

(** * Further properties of the store *)

(** X4. Whenever [saveUploadedFile] returns normally, the text under
    "uploadedFiles" is that of a sequence: the items that
    [[...existingFiles]] took from the stored value (the entries of a
    stored array, the characters of a stored string), followed by the new
    record.  What is read afterwards is these items, each as it is
    printed and read, followed by the record as it is read.  No other key
    is changed. *)
Theorem save_leaves_a_sequence fid f now ls ls' :
  saveUploadedFile (fileData fid f now) ls = Normal ls' ->
  exists v existing,
    readUploadedFiles ls = Normal v
    /\ spread v = Normal existing
    /\ getItem (js "uploadedFiles") ls'
       = Some (JSON_stringify (VArr (existing ++ [fileData fid f now])))
    /\ readUploadedFiles ls'
       = Normal (VArr (List.map reread existing
                       ++ [uploaded_file_record fid f now]))
    /\ (Forall stable existing ->
        readUploadedFiles ls'
        = Normal (VArr (existing ++ [uploaded_file_record fid f now])))
    /\ forall key, key <> js "uploadedFiles" ->
                   getItem key ls' = getItem key ls.
Proof.
  intros Hsave.
  destruct (saveUploadedFile_cases (fileData fid f now) ls)
    as [[_ H]|[(v & _ & _ & _ & _ & H)|(v & existing & Hread & Hspread & _)]];
    try congruence.
  destruct (saveUploadedFile_record fid f now ls ls' v existing
              Hread Hspread Hsave) as [Hget Hback].
  exists v, existing. split; [exact Hread|]. split; [exact Hspread|].
  split; [exact Hget|]. split; [exact Hback|]. split.
  - intros Hstable. rewrite Hback, (stable_array _ Hstable). reflexivity.
  - intros key Hkey. exact (saveUploadedFile_other_key _ _ _ _ Hkey Hsave).
Qed.

Lemma save_leaves_a_sequence_witness :
  exists v existing,
    readUploadedFiles odd_numbers = Normal v
    /\ spread v = Normal existing
    /\ getItem (js "uploadedFiles") odd_numbers_saved
       = Some (JSON_stringify
                 (VArr (existing ++ [fileData (js "a.txt-0") a_txt 0])))
    /\ readUploadedFiles odd_numbers_saved
       = Normal (VArr (List.map reread existing
                       ++ [uploaded_file_record (js "a.txt-0") a_txt 0]))
    /\ (Forall stable existing ->
        readUploadedFiles odd_numbers_saved
        = Normal (VArr (existing
                        ++ [uploaded_file_record (js "a.txt-0") a_txt 0])))
    /\ forall key, key <> js "uploadedFiles" ->
                   getItem key odd_numbers_saved = getItem key odd_numbers.
Proof.
  apply (save_leaves_a_sequence (js "a.txt-0") a_txt 0 odd_numbers).
  vm_compute. reflexivity.
Defined.

Lemma readUser_same_item ls ls' :
  getItem (js "userData") ls' = getItem (js "userData") ls ->
  readUser ls' = readUser ls.
Proof. unfold readUser. intros ->. reflexivity. Qed.

Lemma readUploadedFiles_same_item ls ls' :
  getItem (js "uploadedFiles") ls' = getItem (js "uploadedFiles") ls ->
  readUploadedFiles ls' = readUploadedFiles ls.
Proof. unfold readUploadedFiles. intros ->. reflexivity. Qed.

Lemma handleLogin_readable email password ls :
  readable ls -> readable (handleLogin email password ls).2.
Proof.
  intros [[v Hu] [items Hf]]. split.
  - destruct (handleLogin_cases email password ls)
      as [[_ H]|[_ [[_ H]|[(st & _ & _ & H)
                          |(ps & Hread & _ & _
                            & [(ls1 & Hset & H)|[_ H]])]]]];
      rewrite H; cbn [snd]; eauto.
    eexists. apply (login_record_reads_back ps email ls ls1 Hread Hset).
  - exists items. rewrite <- Hf. apply readUploadedFiles_same_item.
    apply handleLogin_other_key. discriminate.
Qed.

Lemma react_readable e w w' :
  react e w = Some w' -> readable (localStorage w) ->
  readable (localStorage w').
Proof.
  intros He [[v Hu] [items Hf]]. split.
  - exists v. rewrite <- Hu. apply readUser_same_item.
    apply (react_other_key e w w'); [discriminate|exact He].
  - destruct (react_appends e w w' items Hf He) as (items' & more & H & _).
    eauto.
Qed.

Lemma tick_raises_quota_only r u w items e :
  readUploadedFiles (localStorage w) = Normal (VArr items) ->
  (tick r u w).2 = Throw e ->
  e = QuotaExceededError /\ localStorage (tick r u w).1.2 = localStorage w.
Proof.
  intros Hread He.
  destruct (tick_appends r u w items Hread)
    as [(Hls & _ & _ & Hq)|(Hn & _)]; [|congruence].
  split; [|exact Hls].
  destruct Hq as [Hq _]; [rewrite He; discriminate|]. congruence.
Qed.

(** X5. A store from which both reads return normally stays such a store
    through every login attempt and every event of the uploader: neither
    component leaves behind a text that a later read cannot parse.  On such
    a store a tick of the uploader raises nothing but
    [QuotaExceededError], and then it has not changed the store.  The
    login handler writes under no key but "userData", the uploader under
    no key but "uploadedFiles". *)
Theorem store_stays_readable :
  (forall email password ls,
      readable ls -> readable (handleLogin email password ls).2)
  /\ (forall es w w',
         react_all es w = Some w' -> readable (localStorage w) ->
         readable (localStorage w'))
  /\ (forall r u w e,
         readable (localStorage w) -> (tick r u w).2 = Throw e ->
         e = QuotaExceededError
         /\ localStorage (tick r u w).1.2 = localStorage w)
  /\ (forall email password ls key,
         key <> js "userData" ->
         getItem key (handleLogin email password ls).2 = getItem key ls)
  /\ (forall es w w' key,
         key <> js "uploadedFiles" ->
         react_all es w = Some w' ->
         getItem key (localStorage w') = getItem key (localStorage w)).
Proof.
  split; [exact handleLogin_readable|]. split; [|split; [|split]].
  - intros es. induction es as [|e es IH]; intros w w'; cbn [react_all].
    + intros [= <-]. auto.
    + destruct (react e w) as [w1|] eqn:He; [|discriminate].
      intros Hes Hr. apply (IH w1 w' Hes). exact (react_readable _ _ _ He Hr).
  - intros r u w e [_ [items Hf]]. apply (tick_raises_quota_only _ _ _ items).
    exact Hf.
  - exact handleLogin_other_key.
  - intros es. induction es as [|e es IH]; intros w w' key Hkey;
      cbn [react_all].
    + intros [= <-]. reflexivity.
    + destruct (react e w) as [w1|] eqn:He; [|discriminate].
      intros Hes. rewrite (IH w1 w' key Hkey Hes).
      exact (react_other_key e w w1 key Hkey He).
Qed.

Lemma store_stays_readable_witness :
  readable (handleLogin (js "ann@x.io") (js "pw") ann_signed_up).2.
Proof.
  apply (proj1 store_stays_readable). split.
  - eexists. vm_compute. reflexivity.
  - exists []. vm_compute. reflexivity.
Defined.

(** * Further properties of the uploader *)

(** ** Progress stays between 0 and 100 *)

Lemma spec_sum_range ps :
  Forall (fun p => (0 <= p /\ p <= 100)%Q) ps ->
  (0 <= spec_sum ps
   /\ spec_sum ps <= 100 * inject_Z (Z.of_nat (List.length ps)))%Q.
Proof.
  induction 1 as [|p ps [Hp0 Hp1] _ [IH0 IH1]].
  - cbn [spec_sum List.length]. change (inject_Z (Z.of_nat 0)) with 0%Q.
    split; lra.
  - cbn [spec_sum List.length]. rewrite Nat2Z.inj_succ. unfold Z.succ.
    rewrite inject_Z_plus. change (inject_Z 1) with 1%Q. split; lra.
Qed.

Lemma getTotalProgress_range l :
  Forall (fun f => (0 <= progress f /\ progress f <= 100)%Q) l ->
  (0 <= getTotalProgress l /\ getTotalProgress l <= 100)%Q.
Proof.
  intros Hl. destruct l as [|f l]; [cbn; split; lra|].
  assert (Hsum := spec_sum_range (List.map progress (f :: l))).
  rewrite length_map in Hsum.
  destruct Hsum as [H0 H1].
  { apply Forall_map. exact Hl. }
  unfold getTotalProgress. cbn [Nat.eqb List.length].
  rewrite fold_left_progress, Qplus_0_l.
  assert (Hn : (0 < inject_Z (Z.of_nat (S (List.length l))))%Q).
  { change 0%Q with (inject_Z 0). rewrite <- Zlt_Qlt. lia. }
  cbn [List.length] in H1. split.
  - apply Qle_shift_div_l; [exact Hn|]. lra.
  - apply Qle_shift_div_r; [exact Hn|]. exact H1.
Qed.

Lemma Math_round_spec x k :
  Math_round x = k
  <-> (inject_Z k - (1 # 2) <= x /\ x < inject_Z k + (1 # 2))%Q.
Proof.
  unfold Math_round.
  pose proof (Qfloor_le (x + (1 # 2))) as Hle.
  pose proof (Qlt_floor (x + (1 # 2))) as Hlt.
  rewrite inject_Z_plus in Hlt. change (inject_Z 1) with 1%Q in Hlt.
  split.
  - intros <-. split; lra.
  - intros [H0 H1].
    assert (Hk1 : (inject_Z (Qfloor (x + (1 # 2))) < inject_Z (k + 1))%Q).
    { rewrite inject_Z_plus. change (inject_Z 1) with 1%Q. lra. }
    assert (Hk2 : (inject_Z k < inject_Z (Qfloor (x + (1 # 2)) + 1))%Q).
    { rewrite inject_Z_plus. change (inject_Z 1) with 1%Q. lra. }
    rewrite <- Zlt_Qlt in Hk1, Hk2. lia.
Qed.

Lemma Math_round_range x :
  (0 <= x /\ x <= 100)%Q -> (0 <= Math_round x <= 100)%Z.
Proof.
  intros [H0 H1].
  destruct (proj1 (Math_round_spec x (Math_round x)) eq_refl) as [Ha Hb].
  assert (Hk1 : (inject_Z (-1) < inject_Z (Math_round x))%Q).
  { change (inject_Z (-1)) with (-1)%Q. lra. }
  assert (Hk2 : (inject_Z (Math_round x) < inject_Z 101)%Q).
  { change (inject_Z 101) with 101%Q. lra. }
  rewrite <- Zlt_Qlt in Hk1, Hk2. lia.
Qed.

Lemma tick_range r u w :
  random_draw r = true ->
  (0 <= upload_progress u /\ upload_progress u <= 100)%Q ->
  Forall (fun f => (0 <= progress f /\ progress f <= 100)%Q)
    (uploadingFiles w) ->
  (0 <= upload_progress (tick r u w).1.1
   /\ upload_progress (tick r u w).1.1 <= 100)%Q
  /\ Forall (fun f => (0 <= progress f /\ progress f <= 100)%Q)
       (uploadingFiles (tick r u w).1.2).
Proof.
  intros Hr [Hu0 Hu1] Hfiles. apply random_draw_spec in Hr as [Hr0 Hr1].
  assert (Hset : forall p l,
             (0 <= p /\ p <= 100)%Q ->
             Forall (fun f => (0 <= progress f /\ progress f <= 100)%Q) l ->
             Forall (fun f => (0 <= progress f /\ progress f <= 100)%Q)
               (List.map (set_progress (fileId u) p) l)).
  { intros p l Hp Hl. apply Forall_map. eapply Forall_impl; [exact Hl|].
    intros f Hf. unfold set_progress. destruct (same_id _ f); assumption. }
  assert (Hmark :
            Forall (fun f => (0 <= progress f /\ progress f <= 100)%Q)
              (List.map (mark_complete (fileId u)) (uploadingFiles w))).
  { apply Forall_map. eapply Forall_impl; [exact Hfiles|].
    intros f Hf. unfold mark_complete. destruct (same_id _ f); [|assumption].
    cbn [progress]. split; lra. }
  unfold tick.
  destruct (Qle_bool 100 (upload_progress u + r * 10)) eqn:Hreach.
  - destruct (saveUploadedFile _ _);
      cbn [fst snd upload_progress uploadingFiles];
      (split; [split; lra|]); [apply Hset; [split; lra|]|]; exact Hmark.
  - assert (Hnot : ~ (100 <= upload_progress u + r * 10)%Q).
    { intros H. apply Qle_bool_iff in H. congruence. }
    cbn [fst snd upload_progress uploadingFiles].
    split; [split; lra|]. apply Hset; [split; lra|exact Hfiles].
Qed.

Lemma Forall_List_filter {A} (P : A -> Prop) (keep : A -> bool) l :
  Forall P l -> Forall P (List.filter keep l).
Proof.
  induction 1 as [|x l Hx _ IH]; cbn [List.filter]; [constructor|].
  destruct (keep x); [constructor; assumption | exact IH].
Qed.

Lemma react_range e w w' :
  react e w = Some w' -> progress_in_range w -> progress_in_range w'.
Proof.
  intros He [Hfiles Hups]. destruct e as [files|i r|j|fid|dt];
    cbn [react] in He.
  - injection He as <-.
    destruct (handleFileSelect_cases files w)
      as [[-> _]|(f0 & fs0 & _ & ->)]; [split; assumption|].
    split; cbn [uploadingFiles uploads].
    + apply Forall_app. split; [exact Hfiles|].
      apply newFiles_Forall. intros now g.
      cbn [newFile progress]. split; lra.
    + apply Forall_app. split; [exact Hups|].
      rewrite Forall_map. apply Forall_forall. intros g _.
      cbn. split; lra.
  - unfold fire_interval in He.
    destruct (uploads w !! i) as [u|] eqn:Hi; [|discriminate].
    destruct (interval u); [|discriminate].
    destruct (_ <=? _)%Z; [|discriminate]. cbn [andb] in He.
    destruct (random_draw r) eqn:Hr; [|discriminate].
    assert (Hu : (0 <= upload_progress u /\ upload_progress u <= 100)%Q).
    { rewrite Forall_lookup in Hups. exact (Hups i u Hi). }
    pose proof (tick_range r u w Hr Hu Hfiles) as [Hu' Hfiles'].
    pose proof (tick_uploads r u w) as Hsame.
    destruct (tick r u w) as [[u' w1] c]. cbn [fst snd] in *.
    injection He as <-. split; cbn [put_upload uploadingFiles uploads].
    + exact Hfiles'.
    + rewrite Hsame. apply Forall_insert; assumption.
  - unfold fire_timeout in He.
    destruct (timeouts w !! j) as [[due fid]|]; [|discriminate].
    destruct (due <=? clock w)%Z; [|discriminate].
    injection He as <-. split; cbn [uploadingFiles uploads removeFile].
    + apply Forall_List_filter. exact Hfiles.
    + exact Hups.
  - injection He as <-. split; cbn [uploadingFiles uploads removeFile].
    + apply Forall_List_filter. exact Hfiles.
    + exact Hups.
  - unfold pass_time in He. destruct (0 <=? dt)%Z; [|discriminate].
    injection He as <-. split; assumption.
Qed.

(** X6. Progress stays between 0 and 100.  If every list entry and every
    upload has a progress in that range, then so it is after any sequence
    of events (files picked, ticks, removals, time passing); the aggregate
    of [getTotalProgress] and the percentages shown at lines 155 and 180
    are then between 0 and 100 too. *)
Theorem progress_stays_in_range es w w' :
  progress_in_range w -> react_all es w = Some w' ->
  progress_in_range w'
  /\ (0 <= getTotalProgress (uploadingFiles w')
      /\ getTotalProgress (uploadingFiles w') <= 100)%Q
  /\ (0 <= total_percent (uploadingFiles w') <= 100)%Z
  /\ Forall (fun f => (0 <= file_percent f <= 100)%Z) (uploadingFiles w').
Proof.
  revert w. induction es as [|e es IH]; intros w Hw; cbn [react_all].
  - intros [= <-]. split; [exact Hw|]. destruct Hw as [Hfiles _].
    pose proof (getTotalProgress_range _ Hfiles) as Htotal.
    split; [exact Htotal|]. split; [apply Math_round_range, Htotal|].
    eapply Forall_impl; [exact Hfiles|].
    intros f Hf. apply Math_round_range, Hf.
  - destruct (react e w) as [w1|] eqn:He; [|discriminate].
    apply IH. exact (react_range e w w1 He Hw).
Qed.

Lemma progress_stays_in_range_witness :
  (0 <= total_percent
          (uploadingFiles
             (handleFileSelect (Some [(a_txt, 0%N)])
                {| uploadingFiles := []; localStorage := empty_store;
                   uploads := []; timeouts := []; clock := 0;
                   toasts := 0 |})) <= 100)%Z.
Proof.
  refine (proj1 (proj2 (proj2
            (progress_stays_in_range [FilesSelected (Some [(a_txt, 0)])]
               {| uploadingFiles := []; localStorage := empty_store;
                  uploads := []; timeouts := []; clock := 0; toasts := 0 |}
               _ _ eq_refl)))).
  split; constructor.
Defined.

(** X7. The percentage shown for an entry (line 180) is the integer
    within half a point of its progress, the larger one at a tie, and the
    same holds of the aggregate shown at line 155.  So an entry whose
    progress has reached 99.5 shows 100 while its upload is still running,
    and one below 0.5 shows 0. *)
Theorem percent_shown :
  (forall f k,
      file_percent f = k
      <-> (inject_Z k - (1 # 2) <= progress f
           /\ progress f < inject_Z k + (1 # 2))%Q)
  /\ (forall l k,
         total_percent l = k
         <-> (inject_Z k - (1 # 2) <= getTotalProgress l
              /\ getTotalProgress l < inject_Z k + (1 # 2))%Q)
  /\ (forall f,
         ((199 # 2) <= progress f /\ progress f <= 100)%Q ->
         file_percent f = 100%Z)
  /\ (forall f,
         (0 <= progress f /\ progress f < (1 # 2))%Q -> file_percent f = 0%Z).
Proof.
  split; [intros f k; apply Math_round_spec|].
  split; [intros l k; apply Math_round_spec|].
  split; intros f [H0 H1]; apply Math_round_spec;
    [change (inject_Z 100) with 100%Q | change (inject_Z 0) with 0%Q];
    split; lra.
Qed.

Lemma percent_shown_witness :
  file_percent {| id := js "a.txt-0"; file := a_txt; progress := (995 # 10)%Q;
                  status := uploading; error_text := None |} = 100%Z.
Proof.
  apply (proj1 (proj2 (proj2 percent_shown))). split; reflexivity || discriminate.
Defined.

(** ** The error status is never produced *)

Lemma react_never_failed e w w' :
  react e w = Some w' -> never_failed w -> never_failed w'.
Proof.
  unfold never_failed. intros He Hw.
  destruct e as [files|i r|j|fid|dt]; cbn [react] in He.
  - injection He as <-.
    destruct (handleFileSelect_cases files w)
      as [[-> _]|(f0 & fs0 & _ & ->)]; [assumption|].
    cbn [uploadingFiles]. apply Forall_app. split; [exact Hw|].
    apply newFiles_Forall. intros now g.
    cbn [newFile status error_text]. split; [discriminate|reflexivity].
  - unfold fire_interval in He.
    destruct (uploads w !! i) as [u|]; [|discriminate].
    destruct (interval u); [|discriminate].
    destruct (_ && _); [|discriminate].
    assert (Hg : forall g,
               (forall f, status (g f) = status f \/ status (g f) = complete) ->
               (forall f, error_text (g f) = error_text f) ->
               Forall (fun f => status f <> error /\ error_text f = None)
                 (List.map g (uploadingFiles w))).
    { intros g Hs Ht. apply Forall_map. eapply Forall_impl; [exact Hw|].
      intros f [Hf1 Hf2]. cbn. rewrite Ht.
      split; [|exact Hf2]. destruct (Hs f) as [-> | ->];
        [exact Hf1 | discriminate]. }
    assert (Hmark : forall f,
               (status (mark_complete (fileId u) f) = status f
                \/ status (mark_complete (fileId u) f) = complete)
               /\ error_text (mark_complete (fileId u) f) = error_text f).
    { intros f. unfold mark_complete. destruct (same_id _ f); cbn; auto. }
    assert (Hset : forall p f,
               status (set_progress (fileId u) p f) = status f
               /\ error_text (set_progress (fileId u) p f) = error_text f).
    { intros p f. unfold set_progress. destruct (same_id _ f); cbn; auto. }
    unfold tick in He.
    destruct (Qle_bool 100 _).
    + destruct (saveUploadedFile _ _); injection He as <-;
        cbn [put_upload uploadingFiles].
      * rewrite List.map_map. apply Hg; intros f.
        -- destruct (Hset 100%Q (mark_complete (fileId u) f)) as [-> _].
           apply Hmark.
        -- destruct (Hset 100%Q (mark_complete (fileId u) f)) as [_ ->].
           apply Hmark.
      * apply Hg; intros f; apply Hmark.
    + injection He as <-. cbn [put_upload uploadingFiles].
      apply Hg; intros f; [left|]; apply Hset.
  - unfold fire_timeout in He.
    destruct (timeouts w !! j) as [[due fid]|]; [|discriminate].
    destruct (due <=? clock w)%Z; [|discriminate].
    injection He as <-. cbn [uploadingFiles removeFile].
    apply Forall_List_filter. exact Hw.
  - injection He as <-. cbn [uploadingFiles removeFile].
    apply Forall_List_filter. exact Hw.
  - unfold pass_time in He. destruct (0 <=? dt)%Z; [|discriminate].
    injection He as <-. exact Hw.
Qed.

(** X8. The uploader never produces the status [error] and never sets the
    [error] text of an entry: if no entry of the list has them, none has
    after any sequence of events; an entry is then [uploading] or
    [complete]. *)
Theorem error_status_is_never_produced es w w' :
  never_failed w -> react_all es w = Some w' ->
  never_failed w'
  /\ Forall (fun f => status f = uploading \/ status f = complete)
       (uploadingFiles w').
Proof.
  revert w. induction es as [|e es IH]; intros w Hw; cbn [react_all].
  - intros [= <-]. split; [exact Hw|].
    eapply Forall_impl; [exact Hw|]. intros f [Hf _].
    destruct (status f); auto. contradiction.
  - destruct (react e w) as [w1|] eqn:He; [|discriminate].
    apply IH. exact (react_never_failed e w w1 He Hw).
Qed.

Lemma error_status_is_never_produced_witness :
  never_failed (handleFileSelect (Some [(a_txt, 0)]) broken_uploads)
  /\ Forall (fun f => status f = uploading \/ status f = complete)
       (uploadingFiles (handleFileSelect (Some [(a_txt, 0)]) broken_uploads)).
Proof.
  apply (error_status_is_never_produced [FilesSelected (Some [(a_txt, 0)])]
           broken_uploads).
  - constructor.
  - reflexivity.
Defined.

(** ** One record and one notification per finished upload *)

Lemma armed_insert (l : list Upload) : forall i u u',
  l !! i = Some u ->
  (List.length (List.filter is_armed (<[i := u']> l))
   + (if is_armed u then 1 else 0)
   = List.length (List.filter is_armed l)
     + (if is_armed u' then 1 else 0))%nat.
Proof.
  induction l as [|x l IH]; intros i u u' Hi; [discriminate|].
  destruct i as [|i]; cbn in Hi.
  - injection Hi as ->. cbn [List.filter].
    change (<[0%nat := u']> (u :: l)) with (u' :: l). cbn [List.filter].
    destruct (is_armed u), (is_armed u'); cbn [List.length]; lia.
  - change (<[S i := u']> (x :: l)) with (x :: <[i := u']> l).
    cbn [List.filter]. specialize (IH i u u' Hi).
    destruct (is_armed x); cbn [List.length]; lia.
Qed.

Lemma armed_new_uploads now (l : list UploadingFile) :
  List.length
    (List.filter is_armed
       (List.map (fun f => simulateFileUpload now (id f) (file f)) l))
  = List.length l.
Proof. induction l as [|f l IH]; cbn; [reflexivity | rewrite IH; reflexivity]. Qed.

Lemma tick_counts r u w items :
  readUploadedFiles (localStorage w) = Normal (VArr items) ->
  is_armed u = true ->
  exists items' more,
    readUploadedFiles (localStorage (tick r u w).1.2)
    = Normal (VArr (items' ++ more))
    /\ Forall2 reprinted items items'
    /\ toasts (tick r u w).1.2 = (toasts w + List.length more)%nat
    /\ ((if is_armed (tick r u w).1.1 then 1 else 0) + List.length more
        + match (tick r u w).2 with Throw _ => 1 | Normal _ => 0 end
        = 1)%nat.
Proof.
  intros Hread Harmed.
  destruct (tick_appends r u w items Hread)
    as [(Hls & Ht & Hn & Hq)|(Hn & Hint & Ht & Hback)].
  - exists items, []. rewrite app_nil_r, Hls, Ht. cbn [List.length].
    split; [exact Hread|]. split; [apply Forall2_reprinted_refl|].
    split; [lia|]. unfold is_armed.
    destruct ((tick r u w).2) as [[]|e] eqn:E.
    + specialize (Hn eq_refl).
      destruct (interval (tick r u w).1.1); [reflexivity|congruence].
    + destruct Hq as [_ ->]; [discriminate|reflexivity].
  - eexists _, _. split; [exact Hback|].
    split; [apply Forall2_reprinted_step, Forall2_reprinted_refl|].
    cbn [List.length]. split; [lia|].
    unfold is_armed. rewrite Hint, Hn. reflexivity.
Qed.

Lemma react_counts e w w' items :
  readUploadedFiles (localStorage w) = Normal (VArr items) ->
  react e w = Some w' ->
  exists items' more,
    readUploadedFiles (localStorage w') = Normal (VArr (items' ++ more))
    /\ Forall2 reprinted items items'
    /\ toasts w' = (toasts w + List.length more)%nat
    /\ (armed w' + List.length more + (if raises e w then 1 else 0)
        = armed w + selected e)%nat.
Proof.
  intros Hread He.
  assert (Hsame : forall w1,
             localStorage w1 = localStorage w -> toasts w1 = toasts w ->
             raises e w = false ->
             (armed w1 = armed w + selected e)%nat ->
             exists items' more,
               readUploadedFiles (localStorage w1)
               = Normal (VArr (items' ++ more))
               /\ Forall2 reprinted items items'
               /\ toasts w1 = (toasts w + List.length more)%nat
               /\ (armed w1 + List.length more
                   + (if raises e w then 1 else 0)
                   = armed w + selected e)%nat).
  { intros w1 Hls Ht Hr Ha. exists items, []. rewrite app_nil_r, Hls, Ht, Hr.
    cbn [List.length]. split; [exact Hread|].
    split; [apply Forall2_reprinted_refl|]. split; lia. }
  destruct e as [files|i r|j|fid|dt]; cbn [react] in He.
  - injection He as <-.
    destruct (handleFileSelect_cases files w)
      as [[-> Hnone]|(f0 & fs0 & -> & ->)].
    + apply Hsame; try reflexivity.
      destruct Hnone as [-> | ->]; cbn [selected List.length]; lia.
    + apply Hsame; try reflexivity.
      unfold armed. cbn [uploads selected].
      rewrite List.filter_app, length_app, armed_new_uploads, newFiles_length.
      reflexivity.
  - unfold fire_interval in He.
    destruct (uploads w !! i) as [u|] eqn:Hi; [|discriminate].
    destruct (interval u) as [due|] eqn:Hdue; [|discriminate].
    destruct (_ && _); [|discriminate].
    assert (Harmed : is_armed u = true)
      by (unfold is_armed; rewrite Hdue; reflexivity).
    destruct (tick_counts r u w items Hread Harmed)
      as (items' & more & H1 & R & H2 & H3).
    pose proof (tick_uploads r u w) as Hup.
    cbn [raises]. rewrite Hi.
    destruct (tick r u w) as [[u' w1] c]. cbn [fst snd] in *.
    injection He as <-. exists items', more.
    split; [exact H1|]. split; [exact R|]. split; [exact H2|].
    unfold armed. cbn [put_upload uploads selected]. rewrite Hup.
    pose proof (armed_insert (uploads w) i u u' Hi) as Hins.
    rewrite Harmed in Hins. destruct c; lia.
  - unfold fire_timeout in He.
    destruct (timeouts w !! j) as [[due fid]|]; [|discriminate].
    destruct (due <=? clock w)%Z; [|discriminate].
    injection He as <-. apply Hsame; try reflexivity. cbn [selected].
    unfold armed. cbn [uploads removeFile]. lia.
  - injection He as <-. apply Hsame; try reflexivity. cbn [selected].
    unfold armed. cbn [uploads removeFile]. lia.
  - unfold pass_time in He. destruct (0 <=? dt)%Z; [|discriminate].
    injection He as <-. apply Hsame; try reflexivity. cbn [selected].
    unfold armed. cbn [uploads]. lia.
Qed.

(** X9. Every picked file is accounted for once.  Starting from a store
    that holds a sequence under "uploadedFiles", after any sequence of
    events the stored sequence holds the entries it had (each printed and
    read some number of times) followed by new records; the "File
    uploaded successfully" notification has been shown once for each new
    record; and the uploads still running, the new records and the ticks
    that ended with an exception add up to the uploads that were running
    at the start and the files picked since.  So an upload stores one
    record, no more, and none when its last tick raises; removing its
    entry from the list does not change that. *)
Theorem every_upload_is_stored_once es w w' items :
  readUploadedFiles (localStorage w) = Normal (VArr items) ->
  react_all es w = Some w' ->
  exists items' more,
    readUploadedFiles (localStorage w') = Normal (VArr (items' ++ more))
    /\ Forall2 reprinted items items'
    /\ toasts w' = (toasts w + List.length more)%nat
    /\ (armed w' + List.length more + raised_all es w
        = armed w + selected_all es)%nat.
Proof.
  revert w items. induction es as [|e es IH]; intros w items Hread;
    cbn [react_all raised_all selected_all].
  - intros [= <-]. exists items, []. rewrite app_nil_r. cbn [List.length].
    split; [exact Hread|]. split; [apply Forall2_reprinted_refl|].
    split; lia.
  - destruct (react e w) as [w1|] eqn:He; [|discriminate].
    destruct (react_counts e w w1 items Hread He)
      as (items1 & more1 & H1 & R1 & H2 & H3).
    intros Hes.
    destruct (IH w1 _ H1 Hes) as (xs & more2 & H4 & R2 & H5 & H6).
    apply Forall2_app_split in R2 as (xs1 & xs2 & -> & R21 & R22).
    apply Forall2_length in R22.
    exists xs1, (xs2 ++ more2). rewrite app_assoc, length_app.
    split; [exact H4|].
    split; [exact (Forall2_reprinted_trans _ _ _ R1 R21)|].
    split; lia.
Qed.

Lemma every_upload_is_stored_once_witness :
  exists items' more,
    readUploadedFiles (localStorage a_txt_uploaded)
    = Normal (VArr (items' ++ more))
    /\ Forall2 reprinted [uploaded_file_record (js "b.txt-5") b_txt 5] items'
    /\ toasts a_txt_uploaded = (toasts a_txt_picked + List.length more)%nat
    /\ (armed a_txt_uploaded + List.length more
        + raised_all eleven_ticks_only a_txt_picked
        = armed a_txt_picked + selected_all eleven_ticks_only)%nat.
Proof.
  apply (every_upload_is_stored_once eleven_ticks_only a_txt_picked
           a_txt_uploaded [uploaded_file_record (js "b.txt-5") b_txt 5]).
  - vm_compute. reflexivity.
  - vm_compute. reflexivity.
Defined.

(** ** Removing an entry *)

Lemma filter_map_same_id fid (g : UploadingFile -> UploadingFile) l :
  (forall f, id (g f) = id f) ->
  List.filter (fun f => negb (same_id fid f)) (List.map g l)
  = List.map g (List.filter (fun f => negb (same_id fid f)) l).
Proof.
  intros Hg. induction l as [|f l IH]; [reflexivity|].
  cbn [List.map List.filter].
  assert (Hsame : same_id fid (g f) = same_id fid f).
  { unfold same_id. rewrite Hg. reflexivity. }
  rewrite Hsame. destruct (same_id fid f); cbn [negb List.map];
    rewrite IH; reflexivity.
Qed.

Lemma tick_removeFile r u w fid :
  tick r u (removeFile fid w)
  = ((tick r u w).1.1, removeFile fid (tick r u w).1.2, (tick r u w).2).
Proof.
  assert (Hm : forall f, id (mark_complete (fileId u) f) = id f).
  { intros f. apply mark_complete_spec. }
  assert (Hs : forall p f, id (set_progress (fileId u) p f) = id f).
  { intros p f. apply set_progress_spec. }
  unfold tick. cbn [removeFile localStorage clock uploadingFiles uploads
                      timeouts toasts].
  destruct (Qle_bool 100 _).
  - destruct (saveUploadedFile _ _); cbn [fst snd]; unfold removeFile;
      cbn [localStorage clock uploadingFiles uploads timeouts toasts];
      rewrite ?filter_map_same_id by auto; reflexivity.
  - cbn [fst snd]. unfold removeFile.
    cbn [localStorage clock uploadingFiles uploads timeouts toasts].
    rewrite filter_map_same_id by auto. reflexivity.
Qed.

(** X10. [removeFile] takes out of the list the entries with the given
    identifier, all of them and no other, keeping the order of the rest;
    removing twice is removing once.  It touches neither the store nor any
    timer: a tick after the removal does to the upload and to the store
    exactly what it would have done without it, so an upload whose entry
    the user has removed still runs to the end and still stores its
    record. *)
Theorem removeFile_only_hides :
  (forall fid w f,
      In f (uploadingFiles (removeFile fid w))
      <-> In f (uploadingFiles w) /\ id f <> fid)
  /\ (forall fid w, removeFile fid (removeFile fid w) = removeFile fid w)
  /\ (forall fid w,
         localStorage (removeFile fid w) = localStorage w
         /\ uploads (removeFile fid w) = uploads w
         /\ timeouts (removeFile fid w) = timeouts w)
  /\ (forall r u w fid,
         tick r u (removeFile fid w)
         = ((tick r u w).1.1, removeFile fid (tick r u w).1.2,
            (tick r u w).2))
  /\ (forall fid i r w,
         fire_interval i r (removeFile fid w)
         = option_map (removeFile fid) (fire_interval i r w)).
Proof.
  split; [|split; [|split; [|split]]].
  - intros fid w f. cbn [removeFile uploadingFiles]. rewrite filter_In.
    unfold same_id. rewrite negb_true_iff, bool_decide_eq_false. tauto.
  - intros fid w. unfold removeFile. cbn [uploadingFiles localStorage uploads
                                            timeouts clock toasts].
    f_equal. induction (uploadingFiles w) as [|f l IH]; [reflexivity|].
    cbn [List.filter]. destruct (negb (same_id fid f)) eqn:E;
      cbn [List.filter]; rewrite ?E, IH; reflexivity.
  - intros fid w. repeat split.
  - exact tick_removeFile.
  - intros fid i r w. unfold fire_interval. cbn [removeFile uploads clock].
    destruct (uploads w !! i) as [u|]; [|reflexivity].
    destruct (interval u); [|reflexivity].
    destruct (_ && _); [|reflexivity].
    change {| uploadingFiles :=
                List.filter (fun f => negb (same_id fid f)) (uploadingFiles w);
              localStorage := localStorage w; uploads := uploads w;
              timeouts := timeouts w; clock := clock w; toasts := toasts w |}
      with (removeFile fid w).
    rewrite tick_removeFile. destruct (tick r u w) as [[u' w1] c].
    reflexivity.
Qed.

Lemma removeFile_only_hides_witness :
  In (newFile 0 a_txt)
    (uploadingFiles
       (removeFile (js "b.txt-0")
          {| uploadingFiles := [newFile 0 a_txt]; localStorage := empty_store;
             uploads := []; timeouts := []; clock := 0; toasts := 0 |})).
Proof.
  apply (proj1 removeFile_only_hides). split; [left; reflexivity|].
  vm_compute. discriminate.
Defined.

(** ** Identifiers of the entries *)

Lemma uint_units_digits d : Forall (fun c => c <> 45) (uint_units d).
Proof. induction d; cbn [uint_units]; constructor; (discriminate || assumption). Qed.

Lemma uint_units_inj d : forall d', uint_units d = uint_units d' -> d = d'.
Proof.
  induction d; destruct d'; cbn [uint_units]; intros H;
    try discriminate; try reflexivity;
    injection H as H; f_equal; auto.
Qed.

Lemma decimal_of_N_inj n m : decimal_of_N n = decimal_of_N m -> n = m.
Proof.
  unfold decimal_of_N. intros H. apply uint_units_inj in H.
  apply DecimalN.Unsigned.to_uint_inj. exact H.
Qed.

Lemma split_at_last_dash a : forall b x y,
  Forall (fun c => c <> 45) x -> Forall (fun c => c <> 45) y ->
  a ++ 45 :: x = b ++ 45 :: y -> a = b /\ x = y.
Proof.
  induction a as [|c a IH]; intros b x y Hx Hy H.
  - destruct b as [|c b]; cbn [app] in H.
    + injection H as ->. auto.
    + injection H as <- ->. exfalso.
      apply Forall_app in Hx as [_ Hx]. apply Forall_cons in Hx as [Hx _].
      congruence.
  - destruct b as [|c' b]; cbn [app] in H.
    + injection H as -> <-. exfalso.
      apply Forall_app in Hy as [_ Hy]. apply Forall_cons in Hy as [Hy _].
      congruence.
    + injection H as -> H. destruct (IH b x y Hx Hy H) as [-> ->]. auto.
Qed.

Lemma newFile_id_iff now1 now2 f1 f2 :
  (0 <= now1)%Z -> (0 <= now2)%Z ->
  id (newFile now1 f1) = id (newFile now2 f2)
  <-> File.name f1 = File.name f2 /\ now1 = now2.
Proof.
  intros H1 H2. cbn [newFile id]. split.
  - intros H.
    assert (Hd : forall z, (0 <= z)%Z ->
                           decimal_of_Z z = decimal_of_N (Z.to_N z)).
    { intros z Hz. destruct z; try reflexivity. lia. }
    rewrite (Hd now1 H1), (Hd now2 H2) in H.
    apply split_at_last_dash in H as [Hname Hdec];
      try apply uint_units_digits.
    split; [exact Hname|]. apply decimal_of_N_inj in Hdec. lia.
  - intros [-> ->]. reflexivity.
Qed.

Lemma newFiles_entries files : forall now,
  (newFiles now files).1
  = List.map (fun ft => newFile ft.2 ft.1.1)
      (List.combine files (reading_times now files)).
Proof.
  induction files as [|[f dt] files IH]; intros now;
    cbn [newFiles reading_times List.combine List.map]; [reflexivity|].
  specialize (IH (now + Z.of_N dt)%Z).
  destruct (newFiles (now + Z.of_N dt)%Z files) as [entries last].
  cbn [fst snd] in *. rewrite IH. reflexivity.
Qed.

Lemma reading_times_from files : forall now,
  Forall (fun t => (now <= t)%Z) (reading_times now files).
Proof.
  induction files as [|[f dt] files IH]; intros now; cbn [reading_times];
    constructor; [lia|].
  eapply Forall_impl; [apply IH|]. cbn. intros t Ht. lia.
Qed.

(** X11. The identifier given to a picked file is its name, a dash and
    the time in milliseconds at which [Date.now()] was read for that file;
    the clock is read once for each file of a batch, at times that do not
    go back.  At times from the epoch on, two entries get the same
    identifier exactly when their files have the same name and the clock
    gave the same millisecond for both.  So two files picked next to each
    other in one batch share their identifier exactly when they have the
    same name and no millisecond has passed between the two readings;
    files with different names never share it. *)
Theorem same_id_same_name_and_time :
  (forall now1 now2 f1 f2,
      (0 <= now1)%Z -> (0 <= now2)%Z ->
      id (newFile now1 f1) = id (newFile now2 f2)
      <-> File.name f1 = File.name f2 /\ now1 = now2)
  /\ (forall files now,
         (newFiles now files).1
         = List.map (fun ft => newFile ft.2 ft.1.1)
             (List.combine files (reading_times now files))
         /\ List.length (reading_times now files) = List.length files
         /\ Forall (fun t => (now <= t)%Z) (reading_times now files))
  /\ (forall now f1 dt1 f2 dt2 rest,
         (0 <= now)%Z ->
         exists g1 g2 more,
           (newFiles now ((f1, dt1) :: (f2, dt2) :: rest)).1
           = g1 :: g2 :: more
           /\ file g1 = f1 /\ file g2 = f2
           /\ (id g1 = id g2 <-> File.name f1 = File.name f2 /\ dt2 = 0)).
Proof.
  split; [exact newFile_id_iff|]. split.
  - intros files now. split; [apply newFiles_entries|].
    split; [|apply reading_times_from].
    revert now. induction files as [|[f dt] files IH]; intros now;
      cbn [reading_times List.length]; [reflexivity|].
    rewrite IH. reflexivity.
  - intros now f1 dt1 f2 dt2 rest Hnow.
    rewrite newFiles_entries.
    cbn [reading_times List.combine List.map fst snd].
    eexists _, _, _. split; [reflexivity|].
    split; [reflexivity|]. split; [reflexivity|].
    rewrite newFile_id_iff by lia. split.
    + intros [Hn Ht]. split; [exact Hn|]. lia.
    + intros [Hn ->]. split; [exact Hn|]. lia.
Qed.

Lemma same_id_same_name_and_time_witness :
  id (newFile 5 a_txt)
  = id (newFile 5 {| File.name := js "a.txt"; File.type := [];
                     File.size := 99 |}).
Proof.
  apply (proj2 (proj1 same_id_same_name_and_time 5%Z 5%Z a_txt
                  {| File.name := js "a.txt"; File.type := [];
                     File.size := 99 |} ltac:(lia) ltac:(lia))).
  split; reflexivity.
Defined.

(** ** How long an upload takes *)

Lemma inject_Z_succ k :
  (inject_Z (Z.of_nat (S k)) == inject_Z (Z.of_nat k) + 1)%Q.
Proof.
  rewrite Nat2Z.inj_succ. unfold Z.succ. rewrite inject_Z_plus. reflexivity.
Qed.

Lemma tick_paced p0 due0 r u w k due :
  interval u = Some due -> (due <= clock w)%Z -> random_draw r = true ->
  paced p0 due0 u (clock w) k ->
  paced p0 due0 (tick r u w).1.1 (clock w) (S k).
Proof.
  intros Hdue Hclock Hr Hp. apply random_draw_spec in Hr as [Hr0 Hr1].
  unfold paced in *. rewrite Hdue in Hp. destruct Hp as [Hp Hd].
  pose proof (inject_Z_succ k) as Hk.
  unfold tick.
  destruct (Qle_bool 100 (upload_progress u + r * 10)) eqn:Hreach.
  - apply Qle_bool_iff in Hreach.
    destruct (saveUploadedFile _ _); cbn [fst snd interval];
      (split; [lia|]); (split; [rewrite Hk; lra | lia]).
  - cbn [fst snd interval upload_progress]. split; [rewrite Hk; lra | lia].
Qed.

Lemma react_paced p0 due0 e w w' i u k :
  uploads w !! i = Some u -> paced p0 due0 u (clock w) k ->
  react e w = Some w' ->
  exists u',
    uploads w' !! i = Some u'
    /\ paced p0 due0 u' (clock w') (k + fired i [e]).
Proof.
  intros Hi Hp He.
  assert (Hlater : forall now, (clock w <= now)%Z -> paced p0 due0 u now k).
  { intros now Hnow. unfold paced in *. destruct (interval u); [exact Hp|].
    destruct Hp as (? & ? & ?). repeat split; try assumption. lia. }
  pose proof (clock_never_goes_back e w w' He) as Hclock'.
  destruct e as [files|i' r|j|fid|dt]; cbn [react] in He;
    cbn [fired]; rewrite ?Nat.add_0_r.
  - injection He as <-. exists u.
    destruct (handleFileSelect_cases files w)
      as [[-> _]|(f0 & fs0 & _ & Hw)]; [split; assumption|].
    rewrite Hw in *. cbn [uploads clock] in *. split; [|apply Hlater, Hclock'].
    apply lookup_app_l_Some. exact Hi.
  - unfold fire_interval in He.
    destruct (uploads w !! i') as [u0|] eqn:Hi'; [|discriminate].
    destruct (interval u0) as [due|] eqn:Hdue; [|discriminate].
    destruct (due <=? clock w)%Z eqn:Hclock; [|discriminate].
    cbn [andb] in He. destruct (random_draw r) eqn:Hr; [|discriminate].
    apply Z.leb_le in Hclock.
    pose proof (tick_uploads r u0 w) as Hup.
    pose proof (tick_clock r u0 w) as Hck.
    destruct (decide (i' = i)) as [->|Hne].
    + rewrite bool_decide_eq_true_2 by reflexivity.
      rewrite Hi in Hi'. injection Hi' as <-.
      pose proof (tick_paced p0 due0 r u w k due Hdue Hclock Hr Hp) as Hp'.
      destruct (tick r u w) as [[u' w1] c]. cbn [fst snd] in *.
      injection He as <-. exists u'.
      cbn [put_upload uploads clock]. rewrite Hup, Hck.
      rewrite ?Nat.add_0_r. replace (k + 1)%nat with (S k) by lia.
      split; [|exact Hp']. apply list_lookup_insert_eq.
      apply lookup_lt_Some in Hi. exact Hi.
    + rewrite bool_decide_eq_false_2 by exact Hne.
      destruct (tick r u0 w) as [[u' w1] c]. cbn [fst snd] in *.
      injection He as <-. exists u.
      cbn [put_upload uploads clock]. rewrite Hup, Hck.
      rewrite ?Nat.add_0_r.
      split; [|exact Hp]. rewrite list_lookup_insert_ne by exact Hne.
      exact Hi.
  - unfold fire_timeout in He.
    destruct (timeouts w !! j) as [[due fid]|]; [|discriminate].
    destruct (due <=? clock w)%Z; [|discriminate].
    injection He as <-. exists u. split; assumption.
  - injection He as <-. exists u. split; assumption.
  - unfold pass_time in He. destruct (0 <=? dt)%Z eqn:Hdt; [|discriminate].
    apply Z.leb_le in Hdt. injection He as <-. exists u.
    split; [exact Hi|]. apply Hlater. cbn [clock]. lia.
Qed.

Lemma fired_cons i e es : fired i (e :: es) = (fired i [e] + fired i es)%nat.
Proof. destruct e; cbn [fired]; lia. Qed.

Lemma react_all_paced p0 due0 i es : forall w w' u k,
  uploads w !! i = Some u -> paced p0 due0 u (clock w) k ->
  react_all es w = Some w' ->
  exists u',
    uploads w' !! i = Some u'
    /\ paced p0 due0 u' (clock w') (k + fired i es).
Proof.
  induction es as [|e es IH]; intros w w' u k Hi Hp; cbn [react_all].
  - intros [= <-]. cbn [fired]. rewrite Nat.add_0_r. eauto.
  - destruct (react e w) as [w1|] eqn:He; [|discriminate].
    destruct (react_paced p0 due0 e w w1 i u k Hi Hp He) as (u1 & Hi1 & Hp1).
    intros Hes. destruct (IH w1 w' u1 _ Hi1 Hp1 Hes) as (u' & Hi' & Hp').
    exists u'. split; [exact Hi'|].
    rewrite fired_cons, Nat.add_assoc. exact Hp'.
Qed.

(** X12. No upload finishes in fewer than eleven ticks, nor sooner than
    2000 ms after the time its interval was first due (which is 200 ms
    after the file was picked).  Let an upload stand at progress 0 with its
    interval due at [due0], and let [n] be the number of times its
    interval fires in a sequence of events.  If the interval has been
    cleared after these events, then [n] is at least 11 and the clock is
    at [due0 + 2000] or later.  If it is still running, the progress is at
    most [10 n], the interval is due no sooner than [due0 + 200 n], and so
    the progress is at most a twentieth of the time by which the due time
    has moved on. *)
Theorem no_upload_is_faster_than_eleven_ticks es w w' i u due0 :
  uploads w !! i = Some u ->
  (upload_progress u == 0)%Q -> interval u = Some due0 ->
  react_all es w = Some w' ->
  exists u',
    uploads w' !! i = Some u'
    /\ (interval u' = None ->
        (11 <= fired i es)%nat /\ (due0 + 2000 <= clock w')%Z)
    /\ (forall due, interval u' = Some due ->
                    (upload_progress u'
                     <= 10 * inject_Z (Z.of_nat (fired i es)))%Q
                    /\ (due0 + 200 * Z.of_nat (fired i es) <= due)%Z
                    /\ (20 * upload_progress u' <= inject_Z (due - due0))%Q).
Proof.
  intros Hi Hp0 Hdue Hes.
  destruct (react_all_paced 0 due0 i es w w' u 0%nat Hi) as (u' & Hi' & Hp');
    [|exact Hes|].
  { unfold paced. rewrite Hdue. change (inject_Z (Z.of_nat 0)) with 0%Q.
    split; [lra|lia]. }
  cbn [Nat.add] in Hp'. set (n := fired i es) in *.
  exists u'. split; [exact Hi'|]. unfold paced in Hp'. split.
  - intros Hnone. rewrite Hnone in Hp'. destruct Hp' as (Hk & H100 & Hclock).
    assert (Hk11 : (inject_Z 10 < inject_Z (Z.of_nat n))%Q).
    { change (inject_Z 10) with 10%Q. lra. }
    rewrite <- Zlt_Qlt in Hk11. split; lia.
  - intros due Hsome. rewrite Hsome in Hp'. destruct Hp' as [Hprog Hd].
    assert (Hk : (inject_Z (200 * Z.of_nat n) <= inject_Z (due - due0))%Q).
    { rewrite <- Zle_Qle. lia. }
    rewrite inject_Z_mult in Hk. change (inject_Z 200) with 200%Q in Hk.
    split; [lra|]. split; [exact Hd|]. lra.
Qed.

Lemma no_upload_is_faster_than_eleven_ticks_witness :
  exists u',
    uploads a_txt_uploaded !! 0%nat = Some u'
    /\ (interval u' = None ->
        (11 <= fired 0 eleven_ticks_only)%nat
        /\ (200 + 2000 <= clock a_txt_uploaded)%Z)
    /\ (forall due, interval u' = Some due ->
                    (upload_progress u'
                     <= 10 * inject_Z (Z.of_nat (fired 0 eleven_ticks_only)))%Q
                    /\ (200 + 200 * Z.of_nat (fired 0 eleven_ticks_only)
                        <= due)%Z
                    /\ (20 * upload_progress u' <= inject_Z (due - 200))%Q).
Proof.
  apply (no_upload_is_faster_than_eleven_ticks eleven_ticks_only a_txt_picked
           a_txt_uploaded 0%nat (simulateFileUpload 0 (js "a.txt-0") a_txt)
           200).
  - reflexivity.
  - reflexivity.
  - reflexivity.
  - vm_compute. reflexivity.
Defined.

(** ** The "all uploaded" flag after a completion and after a removal *)

Lemma mark_complete_status fid f :
  status (mark_complete fid f) = complete
  <-> id f = fid \/ status f = complete.
Proof.
  unfold mark_complete, same_id.
  destruct (bool_decide (id f = fid)) eqn:E.
  - apply bool_decide_eq_true in E. cbn [status]. tauto.
  - apply bool_decide_eq_false in E. tauto.
Qed.

(** X13. After the tick on which an upload reaches 100, whether or not
    the record could be stored, the "all uploaded" flag is true exactly
    when the list is non-empty and each entry either carries the
    identifier of that upload or was complete already: an entry of
    another upload with the same identifier counts as complete although
    that upload is still running.  When a removal takes the last entries
    out of the list, the flag is false again and the aggregate progress is
    0. *)
Theorem allUploaded_after_completion :
  (forall r u w,
      (100 <= upload_progress u + r * 10)%Q ->
      allUploaded (uploadingFiles (tick r u w).1.2) = true
      <-> uploadingFiles w <> []
          /\ Forall (fun f => id f = fileId u \/ status f = complete)
               (uploadingFiles w))
  /\ (forall fid w,
         Forall (fun f => id f = fid) (uploadingFiles w) ->
         uploadingFiles (removeFile fid w) = []
         /\ allUploaded (uploadingFiles (removeFile fid w)) = false
         /\ getTotalProgress (uploadingFiles (removeFile fid w)) = 0%Q).
Proof.
  split.
  - intros r u w Hreach. rewrite (proj1 (tick_marks_complete r u w Hreach)).
    unfold allUploaded. rewrite andb_true_iff, forallb_complete, length_map.
    rewrite Forall_map.
    assert (Hlen : (0 <? List.length (uploadingFiles w))%nat = true
                   <-> uploadingFiles w <> []).
    { destruct (uploadingFiles w); cbn; split; congruence. }
    rewrite Hlen. apply and_iff_compat_l. apply Forall_iff.
    intros f. apply mark_complete_status.
  - intros fid w Hall.
    assert (Hempty : uploadingFiles (removeFile fid w) = []).
    { cbn [removeFile uploadingFiles].
      induction Hall as [|f l Hf _ IH]; [reflexivity|].
      cbn [List.filter]. unfold same_id at 1.
      rewrite bool_decide_eq_true_2 by exact Hf. exact IH. }
    rewrite Hempty. repeat split.
Qed.

Lemma allUploaded_after_completion_witness :
  let u := {| fileId := js "a.txt-0"; upload_file := a_txt;
              upload_progress := 95%Q; interval := Some 2200%Z |} in
  let w := {| uploadingFiles := [newFile 0 a_txt; newFile 0 a_txt];
              localStorage := empty_store;
              uploads := [u; simulateFileUpload 0 (js "a.txt-0") a_txt];
              timeouts := []; clock := 2200; toasts := 0 |} in
  allUploaded (uploadingFiles (tick (9 # 10)%Q u w).1.2) = true.
Proof.
  cbv zeta. apply (proj1 allUploaded_after_completion).
  - vm_compute. discriminate.
  - split; [discriminate|]. repeat constructor.
Defined.

(** ** The size shown for a file *)

Lemma toFixed2_shape n :
  exists a b,
    toFixed2 n = a ++ 46 :: b
    /\ List.length b = 2%nat /\ a <> []
    /\ a ++ b
       = List.repeat 48 (3 - List.length (decimal_of_N n)) ++ decimal_of_N n.
Proof.
  unfold toFixed2. set (m := decimal_of_N n).
  set (m' := List.repeat 48 (3 - List.length m) ++ m).
  assert (Hlen : (3 <= List.length m')%nat).
  { unfold m'. rewrite length_app, repeat_length. lia. }
  exists (List.firstn (List.length m' - 2) m'),
         (List.skipn (List.length m' - 2) m').
  split; [reflexivity|]. split; [rewrite length_skipn; lia|].
  split; [|apply firstn_skipn].
  intros H. apply (f_equal (@List.length N)) in H.
  rewrite length_firstn in H. cbn [List.length] in H. lia.
Qed.

(** X14. The size shown at line 175 is the size in units of 2^20 bytes
    rounded to hundredths, halves upwards: the number of hundredths [n]
    satisfies [2^20 n <= 100 size + 2^19 < 2^20 (n + 1)], it grows with
    the size, it is 0 exactly for the sizes up to 5242 bytes (shown as
    0.00), and a size of [k] times 2^20 bytes gives [100 k].  The text has
    a point followed by exactly two digits and at least one digit before
    it. *)
Theorem size_shown_in_megabytes :
  (forall size,
      1048576 * megabyte_hundredths size <= 100 * size + 524288
      /\ 100 * size + 524288 < 1048576 * (megabyte_hundredths size + 1))
  /\ (forall size size',
         size <= size' -> megabyte_hundredths size <= megabyte_hundredths size')
  /\ (forall size, megabyte_hundredths size = 0 <-> size <= 5242)
  /\ (forall k, megabyte_hundredths (1048576 * k) = 100 * k)
  /\ (forall n,
         exists a b,
           toFixed2 n = a ++ 46 :: b
           /\ List.length b = 2%nat /\ a <> []
           /\ a ++ b
              = List.repeat 48 (3 - List.length (decimal_of_N n))
                ++ decimal_of_N n).
Proof.
  unfold megabyte_hundredths. split; [|split; [|split; [|split]]].
  - intros size. split.
    + apply N.Div0.mul_div_le.
    + rewrite N.mul_add_distr_l, N.mul_1_r.
      pose proof (N.div_mod' (100 * size + 524288) 1048576) as Hdm.
      pose proof (N.mod_lt (100 * size + 524288) 1048576 ltac:(lia)).
      lia.
  - intros size size' Hle. apply N.Div0.div_le_mono. lia.
  - intros size. rewrite N.div_small_iff by lia. lia.
  - intros k.
    replace (100 * (1048576 * k) + 524288) with (524288 + (100 * k) * 1048576)
      by lia.
    rewrite N.div_add by lia. reflexivity.
  - exact toFixed2_shape.
Qed.

Lemma size_shown_in_megabytes_witness :
  megabyte_hundredths 5242 <= megabyte_hundredths 5243.
Proof.
  apply (proj1 (proj2 size_shown_in_megabytes)). lia.
Defined.
